(** * Dive log application: upsert workflow, resolvers and statistics

    A shallow embedding of the server functions of the dive-log
    repository and of its client-side resolver wrappers:

    - [convex/dives.ts]: [upsertDive] and [getDiveById] (snake_case
      schema); [getDives], [createDive], [updateDive], [deleteDive],
      [getDiveStats] and [getAutocompleteData] (camelCase schema);
    - [lib/geocoding.ts]: [searchLocation], [reverseGeocode];
    - [lib/search.ts]: [searchClubWebsite], [formatUrl];
    - [app/api/search-club] route: [GET];
    - [components/map/LocationPicker.tsx]: the click handler.

    JavaScript strings are sequences of UTF-16 code units.  Numbers that
    are only stored, compared or printed are canonical rationals ([Qc]),
    which hold every finite double exactly; the numbers the statistics
    compute with are IEEE 754 doubles, with rounding to nearest, the
    infinities and NaN.  Network access is an explicit effect:
    a program either finishes or issues one [fetch] and continues with
    whatever the environment answers. *)

From stdpp Require Import gmap strings list fin_maps pretty.
From Stdlib Require Import ZArith QArith Qcanon SpecFloat.

Set Warnings "-register-all".

Local Open Scope Z_scope.

(* ===================================================================== *)
(** ** JavaScript strings *)
(* ===================================================================== *)

(** A string is its list of UTF-16 code units, of type [list N];
    [length] is the list length, as [String.prototype.length] counts
    code units. *)

(** Literals are written as Rocq strings and converted byte by byte
    (every literal of the sources is ASCII). *)
Definition js (s : string) : list N :=
  map Ascii.N_of_ascii (String.list_ascii_of_string s).
Arguments js : simpl never.

(** The double-quote character, code unit 34. *)
Definition dq : N := 34%N.

(** ECMAScript [WhiteSpace] and [LineTerminator] code units, the ones
    [String.prototype.trim] strips. *)
Definition is_whitespace (c : N) : bool :=
  ((9 <=? c) && (c <=? 13) || (c =? 32) || (c =? 160) || (c =? 5760)
   || (8192 <=? c) && (c <=? 8202) || (c =? 8232) || (c =? 8233)
   || (c =? 8239) || (c =? 8287) || (c =? 12288) || (c =? 65279))%N.

Fixpoint trimStart (s : list N) : list N :=
  match s with
  | c :: s' => if is_whitespace c then trimStart s' else s
  | [] => []
  end.

Definition trimEnd (s : list N) : list N := rev (trimStart (rev s)).

Definition trim (s : list N) : list N := trimEnd (trimStart s).

Fixpoint startsWith (p s : list N) : bool :=
  match p, s with
  | [], _ => true
  | a :: p', b :: s' => (a =? b)%N && startsWith p' s'
  | _ :: _, [] => false
  end.

(** [!s] for a string: only the empty string is falsy. *)
Definition str_falsy (s : list N) : bool :=
  match s with [] => true | _ => false end.

(* ===================================================================== *)
(** ** Errors and results *)
(* ===================================================================== *)

Inductive error_kind := Error | TypeError | SyntaxError | URIError.

(** A thrown JavaScript error, or a rejection of the Convex runtime. *)
Inductive js_error :=
| JsError (kind : error_kind) (message : list N)
| ArgumentValidationError (field : string)
| SchemaValidationError (field : string)
| NotUnique
| DocumentNotFound (id : N).

Inductive result (A : Type) :=
| Ok (a : A)
| Throw (e : js_error).
Arguments Ok {A} a.
Arguments Throw {A} e.

#[global] Instance result_ret : MRet result := fun A a => Ok a.

#[global] Instance result_bind : MBind result := fun A B f r =>
  match r with
  | Ok a => f a
  | Throw e => Throw e
  end.

(* ===================================================================== *)
(** ** The Convex document store *)
(* ===================================================================== *)

(** Field values that the [upsertDive] validators admit. *)
Inductive value :=
| VNum (n : Qc)
| VStr (s : list N)
| VBool (b : bool).

#[global] Instance value_eq_dec : EqDecision value.
Proof. solve_decision. Defined.

(** A document (and an argument object) is a JavaScript object: a finite
    map from field names to values, of type [gmap string value].  An
    absent key reads as [undefined]. *)

(** A table keeps its rows in insertion order, each with the [_id] the
    store assigned, and the next identifier to hand out.  The
    [_creationTime] system field is not read by any function here and is
    left out. *)
Record table := {
  rows : list (N * gmap string value);
  next_id : N
}.

Definition empty_table : table := {| rows := []; next_id := 0%N |}.

(** Identifiers are pairwise distinct and were all handed out already. *)
Definition wf_table (db : table) : Prop :=
  NoDup (rows db).*1 /\ Forall (fun i => (i < next_id db)%N) (rows db).*1.

(** [ctx.db.get(id)] *)
Definition db_get (i : N) (db : table) : option (gmap string value) :=
  (fun x => x.2.2) <$> list_find (fun r => r.1 = i) (rows db).

(** Validators, as written in a mutation's [args] and in a table of the
    schema. *)
Inductive validator :=
| v_string
| v_number
| v_boolean
| v_optional (v : validator).

#[global] Instance validator_eq_dec : EqDecision validator.
Proof. solve_decision. Defined.

Fixpoint has_type (v : validator) (x : value) : bool :=
  match v, x with
  | v_string, VStr _ => true
  | v_number, VNum _ => true
  | v_boolean, VBool _ => true
  | v_optional v', _ => has_type v' x
  | _, _ => false
  end.

Definition is_optional (v : validator) : bool :=
  match v with v_optional _ => true | _ => false end.

(** One declared field against an object: a required field must be
    present, a present field must have the declared type. *)
Definition field_ok (args : gmap string value) (fv : string * validator)
    : bool :=
  match args !! fv.1 with
  | None => is_optional fv.2
  | Some x => has_type fv.2 x
  end.

(** The first offending field, if any: a declared field that is missing
    or ill-typed, else a field that is not declared at all. *)
Definition validate (spec : list (string * validator))
    (args : gmap string value) : option string :=
  match list_find (fun fv => field_ok args fv = false) spec with
  | Some (_, fv) => Some fv.1
  | None =>
      match list_find (fun k => k ∉ spec.*1) (map_to_list args).*1 with
      | Some (_, k) => Some k
      | None => None
      end
  end.

(** [ctx.db.insert(table, value)]: the document is checked against the
    table's schema and, when it conforms, appended under a fresh
    identifier. *)
Definition db_insert (schema : list (string * validator))
    (d : gmap string value) (db : table) : result (N * table) :=
  match validate schema d with
  | Some f => Throw (SchemaValidationError f)
  | None =>
      Ok (next_id db,
          {| rows := rows db ++ [(next_id db, d)];
             next_id := N.succ (next_id db) |})
  end.

(** [ctx.db.patch(id, value)]: shallow merge, the fields of [p] win; it
    rejects when no document has that identifier, and when the merged
    document does not conform to the table's schema. *)
Definition patch_row (i : N) (p : gmap string value)
    (r : N * gmap string value) : N * gmap string value :=
  if decide (r.1 = i) then (r.1, p ∪ r.2) else r.

Definition db_patch (schema : list (string * validator)) (i : N)
    (p : gmap string value) (db : table) : result table :=
  match db_get i db with
  | None => Throw (DocumentNotFound i)
  | Some d =>
      match validate schema (p ∪ d) with
      | Some f => Throw (SchemaValidationError f)
      | None =>
          Ok {| rows := patch_row i p <$> rows db; next_id := next_id db |}
      end
  end.

(** [withIndex("by_dive_number", q => q.eq("user_id", u).eq("dive_number", n))]:
    the rows whose two indexed fields equal the given values; a missing
    field compares as [undefined]. *)
Definition by_dive_number (u n : option value)
    (r : N * gmap string value) : Prop :=
  r.2 !! "user_id" = u /\ r.2 !! "dive_number" = n.

#[global] Instance by_dive_number_dec u n r : Decision (by_dive_number u n r).
Proof. unfold by_dive_number. apply _. Defined.

(** [.unique()]: [null] for no row, the row when there is exactly one,
    and an error when there are several. *)
Definition unique {A} (l : list A) : result (option A) :=
  match l with
  | [] => Ok None
  | [x] => Ok (Some x)
  | _ => Throw NotUnique
  end.

(** [mutation({ args, handler })]: validate, then run the handler as one
    transaction; when it throws, nothing it wrote is kept. *)
Definition mutation {A} (spec : list (string * validator))
    (handler : gmap string value -> table -> result (A * table))
    (args : gmap string value) (db : table) : result A * table :=
  match validate spec args with
  | Some f => (Throw (ArgumentValidationError f), db)
  | None =>
      match handler args db with
      | Ok (a, db') => (Ok a, db')
      | Throw e => (Throw e, db)
      end
  end.

(* ===================================================================== *)
(** ** [convex/dives.ts]: the upsert *)
(* ===================================================================== *)

(** The [args] of [upsertDive]. *)
Definition upsertDive_args : list (string * validator) :=
  [ ("user_id", v_string);
    ("dive_number", v_number);
    ("dive_date", v_number);
    ("location", v_string);
    ("latitude", v_optional v_number);
    ("longitude", v_optional v_number);
    ("osm_link", v_optional v_string);
    ("site", v_optional v_string);
    ("duration", v_number);
    ("max_depth", v_number);
    ("temperature", v_optional v_number);
    ("visibility", v_optional v_number);
    ("weather", v_optional v_string);
    ("suit_thickness", v_optional v_number);
    ("lead_weights", v_optional v_number);
    ("club_name", v_string);
    ("instructor_name", v_string);
    ("photo_storage_id", v_string);
    ("club_website", v_optional v_string);
    ("notes", v_optional v_string);
    ("Buddy_check", v_boolean);
    ("Briefed", v_boolean) ].

(** The [dives] table of the snake_case [convex/schema.ts], the last
    schema listed in [convex/convex_readme.md] (the one with the
    [by_dive_number] index and the two flags).  It declares every
    argument of [upsertDive] except [osm_link], and the two stamps. *)
Definition dives_schema : list (string * validator) :=
  [ ("user_id", v_string);
    ("dive_number", v_number);
    ("dive_date", v_number);
    ("location", v_string);
    ("latitude", v_optional v_number);
    ("longitude", v_optional v_number);
    ("site", v_optional v_string);
    ("duration", v_number);
    ("max_depth", v_number);
    ("temperature", v_optional v_number);
    ("visibility", v_optional v_number);
    ("weather", v_optional v_string);
    ("suit_thickness", v_optional v_number);
    ("lead_weights", v_optional v_number);
    ("club_name", v_string);
    ("instructor_name", v_string);
    ("photo_storage_id", v_string);
    ("club_website", v_optional v_string);
    ("notes", v_optional v_string);
    ("Buddy_check", v_boolean);
    ("Briefed", v_boolean);
    ("logged_at", v_number);
    ("updated_at", v_number) ].

Inductive action := updated | inserted.

(** What the handler returns: [{ id, action }]. *)
Record upsert_result := {
  res_id : N;
  res_action : action
}.

(** The lookup of the handler: the index query followed by [.unique()]. *)
Definition find_by_dive_number (u n : option value) (db : table)
    : result (option (N * gmap string value)) :=
  unique (filter (by_dive_number u n) (rows db)).

(** The handler of [upsertDive]; [now] is the value of [Date.now()]. *)
Definition upsertDive_handler (now : Z) (args : gmap string value)
    (db : table) : result (upsert_result * table) :=
  let user_id := args !! "user_id" in
  let dive_number := args !! "dive_number" in
  existing ← find_by_dive_number user_id dive_number db;
  match existing with
  | Some ex =>
      db' ← db_patch dives_schema ex.1
              (<["updated_at" := VNum (Qc_of_Z now)]> args) db;
      Ok ({| res_id := ex.1; res_action := updated |}, db')
  | None =>
      r ← db_insert dives_schema
             (<["updated_at" := VNum (Qc_of_Z now)]>
                (<["logged_at" := VNum (Qc_of_Z now)]> args))
             db;
      Ok ({| res_id := r.1; res_action := inserted |}, r.2)
  end.

Definition upsertDive (now : Z) (args : gmap string value) (db : table)
    : result upsert_result * table :=
  mutation upsertDive_args (upsertDive_handler now) args db.

(** A finite sequence of upsert calls, each with its clock reading; the
    store is threaded through, failed calls leave it as it was. *)
Fixpoint upserts (calls : list (Z * gmap string value)) (db : table)
    : table :=
  match calls with
  | [] => db
  | (now, args) :: rest => upserts rest (upsertDive now args db).2
  end.

(** Number of stored records for an (owner, sequence number) key. *)
Definition count_key (u : list N) (n : Qc) (db : table) : nat :=
  length (filter (by_dive_number (Some (VStr u)) (Some (VNum n))) (rows db)).

(** Each owner has at most one record per sequence number. *)
Definition key_unique (db : table) : Prop :=
  forall u n, (count_key u n db <= 1)%nat.

(** A submission with every required field and no optional one. *)
Definition sample_args (u : string) (n duration : Z) : gmap string value :=
  list_to_map
    [ ("user_id", VStr (js u)); ("dive_number", VNum (Qc_of_Z n));
      ("dive_date", VNum (Qc_of_Z 1700000000000));
      ("location", VStr (js "Blue Corner"));
      ("duration", VNum (Qc_of_Z duration)); ("max_depth", VNum (Qc_of_Z 18));
      ("club_name", VStr (js "Fish n Fins"));
      ("instructor_name", VStr (js "J. Doe"));
      ("photo_storage_id", VStr (js "kg2abc"));
      ("Buddy_check", VBool true); ("Briefed", VBool true) ].

(* ===================================================================== *)
(** ** [convex/dives.ts]: statistics (camelCase schema) *)
(* ===================================================================== *)

(** *** Double-precision numbers *)

(** A JavaScript number: a finite value, held exactly, an infinity or
    NaN.  The two zeros are not told apart; nothing here observes the
    sign of a zero. *)
Inductive double :=
| Fin (q : Qc)
| Inf (negative : bool)
| NaN.

#[global] Instance double_eq_dec : EqDecision double.
Proof. solve_decision. Defined.

(** The exponent [k] with [2^k <= n/d < 2^(k+1)]. *)
Definition floor_log2 (n d : positive) : Z :=
  let k := Z.log2 (Z.pos n) - Z.log2 (Z.pos d) in
  if Z.pos d * 2 ^ Z.max 0 k <=? Z.pos n * 2 ^ Z.max 0 (- k)
  then k else k - 1.

(** The integer nearest to [a/b], the even one of two equally near. *)
Definition round_half_even (a b : Z) : Z :=
  let q := a / b in
  match 2 * (a mod b) ?= b with
  | Lt => q
  | Gt => q + 1
  | Eq => if Z.even q then q else q + 1
  end.

(** Rounding of a positive rational [n/d] to binary64: 53 significant
    bits, the least exponent of the last place -1074 (subnormal
    numbers), and overflow from [2^1024] on, for which the answer is
    [None]. *)
Definition round_pos (n d : positive) : option Qc :=
  let e := Z.max (floor_log2 n d - 52) (-1074) in
  let m := round_half_even (Z.pos n * 2 ^ Z.max 0 (- e))
                           (Z.pos d * 2 ^ Z.max 0 e) in
  if 2 ^ 1024 <=? m * 2 ^ Z.max 0 e then None
  else Some (Q2Qc (m * 2 ^ Z.max 0 e # Z.to_pos (2 ^ Z.max 0 (- e)))).

(** Round to nearest, ties to even. *)
Definition round64 (q : Qc) : double :=
  match Qnum q with
  | Z0 => Fin 0
  | Zpos n =>
      match round_pos n (Qden q) with
      | Some v => Fin v
      | None => Inf false
      end
  | Zneg n =>
      match round_pos n (Qden q) with
      | Some v => Fin (- v)
      | None => Inf true
      end
  end.
Arguments round64 : simpl never.

(** The [+] of two numbers. *)
Definition js_add (x y : double) : double :=
  match x, y with
  | NaN, _ | _, NaN => NaN
  | Inf a, Inf b => if Bool.eqb a b then Inf a else NaN
  | Inf a, Fin _ => Inf a
  | Fin _, Inf b => Inf b
  | Fin a, Fin b => round64 (a + b)
  end.

(** The [<] of two numbers: false as soon as one is NaN. *)
Definition js_lt (x y : double) : bool :=
  match x, y with
  | NaN, _ | _, NaN => false
  | _, Inf true => false
  | Inf true, _ => true
  | Inf false, _ => false
  | Fin _, Inf false => true
  | Fin a, Fin b => bool_decide (a < b)%Qc
  end.

(** One step of [Math.max]: NaN wins, else the greater value. *)
Definition max2 (highest x : double) : double :=
  match highest, x with
  | NaN, _ | _, NaN => NaN
  | _, _ => if js_lt highest x then x else highest
  end.

(** [Math.max(...xs)]: it starts from [-Infinity]. *)
Definition Math_max (xs : list double) : double :=
  fold_left max2 xs (Inf true).

(** The value of a float of the Standard Library's reference
    implementation of IEEE 754 ([SpecFloat]). *)
Definition of_spec_float (x : spec_float) : double :=
  match x with
  | S754_zero _ => Fin 0
  | S754_infinity s => Inf s
  | S754_nan => NaN
  | S754_finite s m e =>
      let v := Q2Qc (Z.pos m * 2 ^ Z.max 0 e # Z.to_pos (2 ^ Z.max 0 (- e))) in
      Fin (if s then (- v)%Qc else v)
  end.

(** A document of the [dives] table of [convex/schema.ts]. *)
Module Dive.
Record t := {
  userId : list N;
  diveNumber : option Qc;
  diveDate : Qc;
  location : list N;
  latitude : option Qc;
  longitude : option Qc;
  site : option (list N);
  duration : double;
  maxDepth : double;
  temperature : option Qc;
  waterType : list N;
  visibility : option Qc;
  weather : option (list N);
  suitThickness : option Qc;
  leadWeights : option Qc;
  clubName : option (list N);
  clubWebsite : option (list N);
  instructorName : option (list N);
  notes : option (list N);
  photoStorageId : option N;
  buddyIds : list (list N);
  equipment : list (list N);
  loggedAt : Qc;
  updatedAt : Qc
}.
End Dive.

Record dive_stats := {
  totalDives : nat;
  maxDepth : double;
  totalTime : double
}.

(** [withIndex('by_userId', q => q.eq('userId', userId)).collect()] *)
Definition by_userId (userId : list N) (dives : list Dive.t) : list Dive.t :=
  filter (fun d => Dive.userId d = userId) dives.

Definition getDiveStats (userId : list N) (table : list Dive.t)
    : dive_stats :=
  let dives := by_userId userId table in
  match dives with
  | [] => {| totalDives := 0; maxDepth := Fin 0; totalTime := Fin 0 |}
  | _ :: _ =>
      {| totalDives := length dives;
         maxDepth := Math_max (Dive.maxDepth <$> dives);
         totalTime :=
           fold_left (fun sum d => js_add sum (Dive.duration d)) dives
             (Fin 0) |}
  end.

(** The owner's stored dives, as the statistics claim speaks of them. *)
Definition dives_of (userId : list N) (table : list Dive.t) : list Dive.t :=
  filter (fun d => Dive.userId d = userId) table.

(** Less than or equal, for numbers that are not NaN. *)
Definition js_le (x y : double) : Prop := x = y \/ js_lt x y = true.

(** The greatest of the maximum depths of some dives: the depth of one
    of them, and none is deeper. *)
Definition is_max_depth (m : double) (ds : list Dive.t) : Prop :=
  (exists d, d ∈ ds /\ Dive.maxDepth d = m) /\
  (forall d, d ∈ ds -> js_le (Dive.maxDepth d) m).

(** Durations that are the whole numbers [zs], in order. *)
Definition whole_minutes (ds : list Dive.t) (zs : list Z) : Prop :=
  Dive.duration <$> ds = (fun z => Fin (Qc_of_Z z)) <$> zs.

(* ===================================================================== *)
(** ** JavaScript values and the [fetch] effect *)
(* ===================================================================== *)

(** Values that [JSON.parse] can produce, and [undefined]. *)
Inductive jsval :=
| JUndefined
| JNull
| JBool (b : bool)
| JNum (q : Qc)
| JStr (s : list N)
| JArr (l : list jsval)
| JObj (m : gmap string jsval).

(** ToBoolean. *)
Definition truthy (v : jsval) : bool :=
  match v with
  | JUndefined | JNull => false
  | JBool b => b
  | JNum q => negb (bool_decide (q = 0%Qc))
  | JStr s => negb (str_falsy s)
  | JArr _ | JObj _ => true
  end.

Definition read_error (what p : string) : js_error :=
  JsError TypeError
    (js "Cannot read properties of " ++ js what ++ js " (reading '"
     ++ js p ++ js "')").

Definition js_length (n : nat) : jsval := JNum (Qc_of_Z (Z.of_nat n)).

(** Property read [v.p]: it throws on [undefined] and [null]; objects
    parsed from JSON have own data properties only. *)
Definition get_prop (v : jsval) (p : string) : result jsval :=
  match v with
  | JUndefined => Throw (read_error "undefined" p)
  | JNull => Throw (read_error "null" p)
  | JObj m => Ok (default JUndefined (m !! p))
  | JArr l => Ok (if decide (p = "length") then js_length (length l)
                  else JUndefined)
  | JStr s => Ok (if decide (p = "length") then js_length (length s)
                  else JUndefined)
  | JBool _ | JNum _ => Ok JUndefined
  end.

(** Indexed read [v[0]]. *)
Definition get_first (v : jsval) : result jsval :=
  match v with
  | JUndefined => Throw (read_error "undefined" "0")
  | JNull => Throw (read_error "null" "0")
  | JArr l => Ok (default JUndefined (head l))
  | JStr s => Ok (match s with c :: _ => JStr [c] | [] => JUndefined end)
  | JObj m => Ok (default JUndefined (m !! "0"))
  | JBool _ | JNum _ => Ok JUndefined
  end.

(** [v === 0] *)
Definition is_zero (v : jsval) : bool :=
  match v with
  | JNum q => bool_decide (q = 0%Qc)
  | _ => false
  end.

Record request := {
  req_url : list N;
  req_headers : list (list N * list N)
}.

(** What the code reads of a [Response]: [text()] and [json()] may
    reject. *)
Record response := {
  ok : bool;
  status : N;
  statusText : list N;
  text : result (list N);
  json : result jsval
}.

(** An asynchronous function: it settles with a result, or awaits one
    [fetch] and goes on with its outcome (a response or a rejection).
    Writes to the console are not recorded. *)
Inductive prog (A : Type) :=
| Done (r : result A)
| Fetch (req : request) (k : result response -> prog A).
Arguments Done {A} r.
Arguments Fetch {A} req k.

#[global] Instance prog_ret : MRet prog := fun A a => Done (Ok a).

Fixpoint prog_bind' {A B} (f : A -> prog B) (p : prog A) : prog B :=
  match p with
  | Done (Ok a) => f a
  | Done (Throw e) => Done (Throw e)
  | Fetch req k => Fetch req (fun o => prog_bind' f (k o))
  end.

#[global] Instance prog_bind : MBind prog := @prog_bind'.

(** [try { p } catch (e) { h e }] *)
Fixpoint try_catch {A} (p : prog A) (h : js_error -> prog A) : prog A :=
  match p with
  | Done (Ok a) => Done (Ok a)
  | Done (Throw e) => h e
  | Fetch req k => Fetch req (fun o => try_catch (k o) h)
  end.

Definition fetch (req : request) : prog response := Fetch req Done.

Definition throw {A} (e : js_error) : prog A := Done (Throw e).

(** Running a program against an environment that answers requests: the
    settled result and the requests issued, in order. *)
Fixpoint run {A} (w : request -> result response) (p : prog A)
    : result A * list request :=
  match p with
  | Done r => (r, [])
  | Fetch req k => let '(r, t) := run w (k (w req)) in (r, req :: t)
  end.

(** What the sources take from the platform: the environment variable
    with the provider key, the URI component codecs (they throw a
    URIError on malformed input) and the printing of numbers in template
    literals. *)
Record platform := {
  GEOAPIFY_API_KEY : option (list N);
  encodeURIComponent : list N -> result (list N);
  decodeURIComponent : list N -> result (list N);
  number_toString : Qc -> list N
}.

(* ===================================================================== *)
(** ** [lib/geocoding.ts] *)
(* ===================================================================== *)

Record address_t := {
  city : jsval;
  country : jsval;
  state : jsval
}.

Record GeocodingResult := {
  lat : jsval;
  lon : jsval;
  name : jsval;
  display_name : jsval;
  address : address_t
}.

Definition GEOCODING_API_URL : list N :=
  js "https://api.geoapify.com/v1/geocode".

(** [!GEOAPIFY_API_KEY] *)
Definition key_missing (P : platform) : bool :=
  match GEOAPIFY_API_KEY P with
  | None => true
  | Some k => str_falsy k
  end.

(** [${GEOAPIFY_API_KEY}] *)
Definition key_text (P : platform) : list N :=
  default (js "undefined") (GEOAPIFY_API_KEY P).

(** The object literal both functions build from a feature. *)
Definition of_feature (feature : jsval) : result GeocodingResult :=
  properties ← get_prop feature "properties";
  lat ← get_prop properties "lat";
  lon ← get_prop properties "lon";
  name ← get_prop properties "name";
  formatted ← get_prop properties "formatted";
  city ← get_prop properties "city";
  country ← get_prop properties "country";
  state ← get_prop properties "state";
  Ok {| lat := lat;
        lon := lon;
        name := if truthy name then name else formatted;
        display_name := formatted;
        address := {| city := city; country := country; state := state |} |}.

Fixpoint map_features (l : list jsval) : result (list GeocodingResult) :=
  match l with
  | [] => Ok []
  | f :: l' => r ← of_feature f; rs ← map_features l'; Ok (r :: rs)
  end.

(** [(data.features || []).map(...)] *)
Definition features_of (data : jsval) : result (list GeocodingResult) :=
  features ← get_prop data "features";
  match (if truthy features then features else JArr []) with
  | JArr l => map_features l
  | _ => Throw (JsError TypeError
                  (js "(data.features || []).map is not a function"))
  end.

Definition searchLocation (P : platform) (query : list N)
    : prog (list GeocodingResult) :=
  if key_missing P
  then throw (JsError Error (js "Geoapify API key not configured"))
  else if str_falsy query || (length (trim query) <? 2)%nat
  then mret []
  else
    try_catch
      (text ← Done (encodeURIComponent P query);
       response ← fetch
         {| req_url := GEOCODING_API_URL ++ js "/autocomplete?text=" ++ text
                       ++ js "&apiKey=" ++ key_text P ++ js "&limit=5";
            req_headers := [] |};
       if negb (ok response)
       then throw (JsError Error
                     (js "Geocoding API error: " ++ statusText response))
       else
         data ← Done (json response);
         Done (features_of data))
      (fun error => throw error).

Definition reverseGeocode (P : platform) (lat lon : Qc)
    : prog (option GeocodingResult) :=
  if key_missing P
  then throw (JsError Error (js "Geoapify API key not configured"))
  else
    try_catch
      (response ← fetch
         {| req_url := GEOCODING_API_URL ++ js "/reverse?lat="
                       ++ number_toString P lat ++ js "&lon="
                       ++ number_toString P lon
                       ++ js "&apiKey=" ++ key_text P;
            req_headers := [] |};
       if negb (ok response)
       then throw (JsError Error
                     (js "Reverse geocoding API error: "
                      ++ statusText response))
       else
         data ← Done (json response);
         features ← Done (get_prop data "features");
         if negb (truthy features)
         then mret None
         else
           len ← Done (get_prop features "length");
           if is_zero len
           then mret None
           else
             feature ← Done (get_first features);
             r ← Done (of_feature feature);
             mret (Some r))
      (fun error => throw error).

(* ===================================================================== *)
(** ** [lib/search.ts] *)
(* ===================================================================== *)

Record SearchResult := {
  url : jsval;
  title : list N
}.

Definition searchClubWebsite (P : platform) (clubName : list N)
    : prog (option SearchResult) :=
  if str_falsy clubName || (length (trim clubName) =? 0)%nat
  then mret None
  else
    try_catch
      (query ← Done (encodeURIComponent P clubName);
       response ← fetch {| req_url := js "/api/search-club?q=" ++ query;
                           req_headers := [] |};
       if negb (ok response)
       then mret None
       else
         data ← Done (json response);
         success ← Done (get_prop data "success");
         if truthy success
         then
           u ← Done (get_prop data "url");
           if truthy u
           then mret (Some {| url := u; title := clubName |})
           else mret None
         else mret None)
      (fun error => mret None).

Definition formatUrl (url : list N) : list N :=
  if str_falsy url then []
  else
    let trimmed := trim url in
    if startsWith (js "http://") trimmed || startsWith (js "https://") trimmed
    then trimmed
    else js "https://" ++ trimmed.

(* ===================================================================== *)
(** ** The [search-club] API route *)
(* ===================================================================== *)

(** The regular expressions of the route are sequences of three kinds of
    items: literal text, a greedy [[^c]*], and a greedy capturing
    [([^c]+)]. *)
Inductive atom :=
| Lit (s : list N)
| StarNot (c : N)
| CapPlusNot (c : N).

(** A greedy run of code units other than [c]: the longest run is tried
    first and shortened until the rest of the pattern, [k], matches. *)
Fixpoint greedy_not {R} (c : N) (k : list N -> list N -> option R)
    (taken s : list N) : option R :=
  match s with
  | x :: s' =>
      if (x =? c)%N then k taken s
      else
        match greedy_not c k (taken ++ [x]) s' with
        | Some r => Some r
        | None => k taken s
        end
  | [] => k taken []
  end.

(** Match at the start of [s]; the answer is the text of the capture
    group, if the pattern has one. *)
Fixpoint match_here (re : list atom) (cap : option (list N)) (s : list N)
    : option (option (list N)) :=
  match re with
  | [] => Some cap
  | Lit l :: re' =>
      if startsWith l s then match_here re' cap (drop (length l) s) else None
  | StarNot c :: re' =>
      greedy_not c (fun _ rest => match_here re' cap rest) [] s
  | CapPlusNot c :: re' =>
      greedy_not c
        (fun taken rest =>
           match taken with
           | [] => None
           | _ => match_here re' (Some taken) rest
           end) [] s
  end.

(** [s.match(re)] without the global flag: the leftmost match. *)
Fixpoint regex_match (re : list atom) (s : list N)
    : option (option (list N)) :=
  match match_here re None s with
  | Some m => Some m
  | None =>
      match s with
      | [] => None
      | _ :: s' => regex_match re s'
      end
  end.

(** [m && m[1]]: there is a match and its group is a non-empty string. *)
Definition group1 (m : option (option (list N))) : option (list N) :=
  match m with
  | Some (Some (c :: g)) => Some (c :: g)
  | _ => None
  end.

(** [/<a[^>]*class=\x22result__a\x22[^>]*href=\x22([^\x22]+)\x22/],
    writing [\x22] for the double quote. *)
Definition result_a_re : list atom :=
  [ Lit (js "<a"); StarNot 62;
    Lit (js "class=" ++ [dq] ++ js "result__a" ++ [dq]); StarNot 62;
    Lit (js "href=" ++ [dq]); CapPlusNot dq; Lit [dq] ].

(** [/uddg=([^&]+)/] *)
Definition uddg_re : list atom := [ Lit (js "uddg="); CapPlusNot 38 ].

(** [/class=\x22result__url\x22[^>]*>([^<]+)</] *)
Definition result_url_re : list atom :=
  [ Lit (js "class=" ++ [dq] ++ js "result__url" ++ [dq]); StarNot 62;
    Lit (js ">"); CapPlusNot 60; Lit (js "<") ].

(** [url.replace(/^\/\//, 'https://')] *)
Definition clean_up (url : list N) : list N :=
  if startsWith (js "//") url then js "https://" ++ drop 2 url else url.

(** [NextResponse.json(body, { status })] *)
Record http_response := {
  http_status : N;
  http_body : gmap string jsval
}.

Definition error_message (e : js_error) : list N :=
  match e with
  | JsError _ m => m
  | _ => js "Unknown error"
  end.

Definition USER_AGENT : list N :=
  js "Mozilla/5.0 (Windows NT 10.0; Win64; x64) AppleWebKit/537.36 (KHTML, like Gecko) Chrome/91.0.4472.124 Safari/537.36".

Definition found (url query : list N) : http_response :=
  {| http_status := 200;
     http_body := {[ "url" := JStr url; "query" := JStr query;
                     "success" := JBool true ]} |}.

(** The route handler; [q] is [searchParams.get('q')]. *)
Definition GET (P : platform) (q : option (list N)) : prog http_response :=
  match q with
  | None | Some [] =>
      mret {| http_status := 400;
              http_body :=
                {[ "error" := JStr (js "Query parameter " ++ [dq] ++ js "q"
                                    ++ [dq] ++ js " is required") ]} |}
  | Some query =>
      try_catch
        (q' ← Done (encodeURIComponent P query);
         response ← fetch
           {| req_url := js "https://html.duckduckgo.com/html/?q=" ++ q';
              req_headers := [(js "User-Agent", USER_AGENT)] |};
         if negb (ok response)
         then throw (JsError Error (js "DuckDuckGo returned status "
                                    ++ js (pretty (status response))))
         else
           html ← Done (text response);
           match group1 (regex_match result_a_re html) with
           | Some href =>
               url ← match group1 (regex_match uddg_re href) with
                     | Some target => Done (decodeURIComponent P target)
                     | None => mret href
                     end;
               mret (found (clean_up url) query)
           | None =>
               match group1 (regex_match result_url_re html) with
               | Some shown =>
                   let url := trim shown in
                   mret (found (if startsWith (js "http") url then url
                                else js "https://" ++ url) query)
               | None =>
                   mret {| http_status := 404;
                           http_body :=
                             {[ "error" := JStr (js "No results found");
                                "query" := JStr query ]} |}
               end
           end)
        (fun error =>
           mret {| http_status := 500;
                   http_body :=
                     {[ "error" := JStr (js "Failed to search DuckDuckGo");
                        "details" := JStr (error_message error) ]} |})
  end.

(** A platform for concrete runs: the given key and codecs that leave
    their argument as it is. *)
Definition sample_platform (key : option (list N)) : platform :=
  {| GEOAPIFY_API_KEY := key;
     encodeURIComponent := fun s => Ok s;
     decodeURIComponent := fun s => Ok s;
     number_toString := fun q => js (pretty (Qnum (this q))) |}.

(** A provider that answers every request with a page / a JSON body. *)
Definition page (html : list N) (_ : request) : result response :=
  Ok {| ok := true; status := 200; statusText := js "OK";
        text := Ok html;
        json := Throw (JsError SyntaxError (js "Unexpected token <")) |}.

Definition json_body (data : jsval) (_ : request) : result response :=
  Ok {| ok := true; status := 200; statusText := js "OK";
        text := Ok []; json := Ok data |}.

Definition anchor (href : string) : list N :=
  js "<a rel=" ++ [dq] ++ js "nofollow" ++ [dq] ++ js " class=" ++ [dq]
  ++ js "result__a" ++ [dq] ++ js " href=" ++ [dq] ++ js href ++ [dq]
  ++ js ">Club</a>".


(* ===================================================================== *)
(** ** Specification predicates and sample data *)
(* ===================================================================== *)

(** A field that makes [validate] reject: declared and missing or
    ill-typed, or present and not declared. *)
Definition offending (spec : list (string * validator))
    (args : gmap string value) (f : string) : Prop :=
  (exists v, (f, v) ∈ spec /\ field_ok args (f, v) = false) \/
  (is_Some (args !! f) /\ f ∉ spec.*1).

(** Submissions used in the concrete runs below. *)
Definition negative_duration_args : gmap string value :=
  sample_args "u1" 1 (-1).

Definition first_args : gmap string value :=
  <["notes" := VStr (js "first")]> (sample_args "u1" 5 45).

Definition second_args : gmap string value := sample_args "u1" 5 50.

(** The second submission with a map link added. *)
Definition osm_args : gmap string value :=
  <["osm_link" :=
      VStr (js "https://www.openstreetmap.org/?mlat=7.13&mlon=134.22")]>
    second_args.

(** The record the first submission leaves when it is inserted at time 5,
    and the store holding just that record. *)
Definition first_record : gmap string value :=
  <["updated_at" := VNum (Qc_of_Z 5)]>
    (<["logged_at" := VNum (Qc_of_Z 5)]> first_args).

Definition db_one : table := (upsertDive 5 first_args empty_table).2.

(** A submission without the required [duration]. *)
Definition no_duration_args : gmap string value :=
  delete "duration" first_args.

(** Dives of the camelCase table for the statistics examples. *)
Definition sample_dive (u : string) (minutes depth : Z) : Dive.t :=
  {| Dive.userId := js u; Dive.diveNumber := None;
     Dive.diveDate := Qc_of_Z 1700000000000;
     Dive.location := js "Blue Corner";
     Dive.latitude := None; Dive.longitude := None; Dive.site := None;
     Dive.duration := Fin (Qc_of_Z minutes);
     Dive.maxDepth := Fin (Qc_of_Z depth);
     Dive.temperature := None; Dive.waterType := js "saltwater";
     Dive.visibility := None; Dive.weather := None;
     Dive.suitThickness := None; Dive.leadWeights := None;
     Dive.clubName := None; Dive.clubWebsite := None;
     Dive.instructorName := None; Dive.notes := None;
     Dive.photoStorageId := None; Dive.buddyIds := []; Dive.equipment := [];
     Dive.loggedAt := Qc_of_Z 5; Dive.updatedAt := Qc_of_Z 5 |}.

Definition sample_dives : list Dive.t :=
  [ sample_dive "u1" 45 18; sample_dive "u2" 30 40; sample_dive "u1" 50 12 ].

(** Three dives of one owner whose durations are [2^53], 1 and 1. *)
Definition long_dives : list Dive.t :=
  [ sample_dive "u1" 9007199254740992 18; sample_dive "u1" 1 12;
    sample_dive "u1" 1 30 ].

(** A dive whose maximum depth is NaN, after one at 18. *)
Definition nan_dives : list Dive.t :=
  [ sample_dive "u1" 45 18;
    {| Dive.userId := js "u1"; Dive.diveNumber := None;
       Dive.diveDate := Qc_of_Z 1700000000000;
       Dive.location := js "Blue Corner";
       Dive.latitude := None; Dive.longitude := None; Dive.site := None;
       Dive.duration := Fin (Qc_of_Z 30); Dive.maxDepth := NaN;
       Dive.temperature := None; Dive.waterType := js "saltwater";
       Dive.visibility := None; Dive.weather := None;
       Dive.suitThickness := None; Dive.leadWeights := None;
       Dive.clubName := None; Dive.clubWebsite := None;
       Dive.instructorName := None; Dive.notes := None;
       Dive.photoStorageId := None; Dive.buddyIds := []; Dive.equipment := [];
       Dive.loggedAt := Qc_of_Z 5; Dive.updatedAt := Qc_of_Z 5 |} ].

(** Numbers of the reference implementation, for comparing sums: 0.1,
    0.2, 1, [2^53], the greatest finite number, the least positive
    number, -0.1, a zero, an infinity and NaN. *)
Definition reference_floats : list spec_float :=
  [ S754_finite false 7205759403792794 (-56);
    S754_finite false 7205759403792794 (-55);
    S754_finite false 4503599627370496 (-52);
    S754_finite false 4503599627370496 1;
    S754_finite false 9007199254740991 971;
    S754_finite false 1 (-1074);
    S754_finite true 7205759403792794 (-56);
    S754_zero false;
    S754_infinity false;
    S754_infinity true;
    S754_nan ].

(** The route's answer when nothing could be parsed, as the client's
    [fetch] sees it. *)
Definition no_result_response (_ : request) : result response :=
  Ok {| ok := false; status := 404; statusText := js "Not Found";
        text := Ok [];
        json := Ok (JObj {[ "error" := JStr (js "No results found") ]}) |}.

(** The error both geocoding functions throw without a provider key. *)
Definition key_not_configured : js_error :=
  JsError Error (js "Geoapify API key not configured").

(** The provider's body reports no match: an object whose [features] is
    absent, [null] or the empty array. *)
Definition no_matches (data : jsval) : Prop :=
  exists m, data = JObj m /\
    (m !! "features" = None \/ m !! "features" = Some JNull \/
     m !! "features" = Some (JArr [])).

(** The provider's body has the shape the code relies on: no match, or a
    first feature that is an object with a [properties] object. *)
Definition feature_collection (data : jsval) : Prop :=
  no_matches data \/
  exists m f p rest, data = JObj m /\
    m !! "features" = Some (JArr (JObj f :: rest)) /\
    f !! "properties" = Some (JObj p).

(** Transport or provider failure, as seen by the caller of [fetch]. *)
Definition provider_failure (o : result response) : Prop :=
  match o with
  | Throw _ => True
  | Ok resp =>
      ok resp = false \/
      match json resp with
      | Throw _ => True
      | Ok data => ~ feature_collection data
      end
  end.

(** The request [reverseGeocode] sends. *)
Definition reverse_request (P : platform) (lat lon : Qc) : request :=
  {| req_url := GEOCODING_API_URL ++ js "/reverse?lat="
                ++ number_toString P lat ++ js "&lon="
                ++ number_toString P lon ++ js "&apiKey=" ++ key_text P;
     req_headers := [] |}.

Arguments clean_up : simpl never.
Arguments found : simpl never.
Arguments trim : simpl never.
Arguments regex_match : simpl never.

(** The request the route sends to the search provider. *)
Definition search_request (q' : list N) : request :=
  {| req_url := js "https://html.duckduckgo.com/html/?q=" ++ q';
     req_headers := [(js "User-Agent", USER_AGENT)] |}.

(** The route's answer as the client's [fetch] receives it. *)
Definition served (h : http_response) (_ : request) : result response :=
  Ok {| ok := (200 <=? http_status h)%N && (http_status h <=? 299)%N;
        status := http_status h; statusText := [];
        text := Ok []; json := Ok (JObj (http_body h)) |}.

(** The redirect wrapper the provider puts around outbound links. *)
Definition wrapped (target rest : list N) : list N :=
  js "//duckduckgo.com/l/?uddg=" ++ target ++ 38%N :: rest.

(** A platform with the provider key set. *)
Definition keyed_platform : platform := sample_platform (Some (js "k3y")).

(** The provider's body for a coordinate without coverage. *)
Definition no_features : jsval := JObj {[ "features" := JArr [] ]}.

(** A result page whose first link goes through the redirect wrapper. *)
Definition wrapped_page : list N :=
  anchor "//duckduckgo.com/l/?uddg=https://x.org&rut=1".

(* ===================================================================== *)
(** ** [convex/dives.ts]: the other functions *)
(* ===================================================================== *)

(** [getDiveById]: [ctx.db.get(args.id)]. *)
Definition getDiveById (i : N) (db : table) : option (gmap string value) :=
  db_get i db.

(** A document that conforms to the schema of its table: every required
    field with its declared type, no field the schema does not declare. *)
Definition document_ok (d : gmap string value) : Prop :=
  validate dives_schema d = None.

(** The (owner, sequence number) key of a record, as the upsert workflow
    speaks of it. *)
Definition has_key (u : list N) (n : Qc) (d : gmap string value) : Prop :=
  d !! "user_id" = Some (VStr u) /\ d !! "dive_number" = Some (VNum n).

(** Both stamps are integral clock readings, the creation stamp not
    after the update stamp, and neither after [t]. *)
Definition stamps_ordered (t : Z) (d : gmap string value) : Prop :=
  exists l u, d !! "logged_at" = Some (VNum (Qc_of_Z l)) /\
              d !! "updated_at" = Some (VNum (Qc_of_Z u)) /\
              l <= u /\ u <= t.

(** Clock readings that never go back, starting at or after [t]. *)
Fixpoint clock_from (t : Z) (calls : list (Z * gmap string value)) : Prop :=
  match calls with
  | [] => True
  | (now, _) :: rest => t <= now /\ clock_from now rest
  end.

(** The reading of the last call, [t] when there is none. *)
Fixpoint last_clock (t : Z) (calls : list (Z * gmap string value)) : Z :=
  match calls with
  | [] => t
  | (now, _) :: rest => last_clock now rest
  end.

(** The camelCase [dives] table: rows in insertion order under their
    [_id], and the next identifier. *)
Record dive_table := {
  dive_rows : list (N * Dive.t);
  dive_next : N
}.

Definition wf_dive_table (t : dive_table) : Prop :=
  NoDup (dive_rows t).*1 /\
  Forall (fun i => (i < dive_next t)%N) (dive_rows t).*1.

Definition dive_get (i : N) (t : dive_table) : option Dive.t :=
  (fun x => x.2.2) <$> list_find (fun r => r.1 = i) (dive_rows t).

(** [getDives]: the rows of one owner, in index order. *)
Definition getDives (userId : list N) (t : dive_table)
    : list (N * Dive.t) :=
  filter (fun r => Dive.userId r.2 = userId) (dive_rows t).

(** The [args] of [createDive]. *)
Module NewDive.
Record t := {
  userId : list N;
  diveNumber : option Qc;
  diveDate : Qc;
  location : list N;
  latitude : option Qc;
  longitude : option Qc;
  site : option (list N);
  duration : double;
  maxDepth : double;
  temperature : option Qc;
  waterType : list N;
  visibility : option Qc;
  weather : option (list N);
  suitThickness : option Qc;
  leadWeights : option Qc;
  clubName : option (list N);
  clubWebsite : option (list N);
  instructorName : option (list N);
  notes : option (list N);
  photoStorageId : option N;
  buddyIds : list (list N);
  equipment : list (list N)
}.
End NewDive.

(** [createDive]; [now1] and [now2] are the two readings of
    [Date.now()], in the order the object literal takes them.  The
    camelCase [dives] table of [convex/schema.ts] (the later of its two
    versions) declares exactly the fields written here, with the types
    of the arguments, so the store's check of the document against the
    schema always passes and is not repeated. *)
Definition createDive (now1 now2 : Z) (args : NewDive.t) (t : dive_table)
    : N * dive_table :=
  let d :=
    {| Dive.userId := NewDive.userId args;
       Dive.diveNumber := NewDive.diveNumber args;
       Dive.diveDate := NewDive.diveDate args;
       Dive.location := NewDive.location args;
       Dive.latitude := NewDive.latitude args;
       Dive.longitude := NewDive.longitude args;
       Dive.site := NewDive.site args;
       Dive.duration := NewDive.duration args;
       Dive.maxDepth := NewDive.maxDepth args;
       Dive.temperature := NewDive.temperature args;
       Dive.waterType := NewDive.waterType args;
       Dive.visibility := NewDive.visibility args;
       Dive.weather := NewDive.weather args;
       Dive.suitThickness := NewDive.suitThickness args;
       Dive.leadWeights := NewDive.leadWeights args;
       Dive.clubName := NewDive.clubName args;
       Dive.clubWebsite := NewDive.clubWebsite args;
       Dive.instructorName := NewDive.instructorName args;
       Dive.notes := NewDive.notes args;
       Dive.photoStorageId := NewDive.photoStorageId args;
       Dive.buddyIds := NewDive.buddyIds args;
       Dive.equipment := NewDive.equipment args;
       Dive.loggedAt := Qc_of_Z now1;
       Dive.updatedAt := Qc_of_Z now2 |} in
  (dive_next t,
   {| dive_rows := dive_rows t ++ [(dive_next t, d)];
      dive_next := N.succ (dive_next t) |}).

(** The [updates] object of [updateDive]: every field may be left out. *)
Module Updates.
Record t := {
  diveNumber : option Qc;
  diveDate : option Qc;
  location : option (list N);
  latitude : option Qc;
  longitude : option Qc;
  site : option (list N);
  duration : option double;
  maxDepth : option double;
  temperature : option Qc;
  waterType : option (list N);
  visibility : option Qc;
  weather : option (list N);
  suitThickness : option Qc;
  leadWeights : option Qc;
  clubName : option (list N);
  clubWebsite : option (list N);
  instructorName : option (list N);
  notes : option (list N);
  photoStorageId : option N;
  buddyIds : option (list (list N));
  equipment : option (list (list N))
}.
End Updates.

(** The shallow merge of [{ ...updates, updatedAt }] into a document: a
    field that [updates] carries replaces the stored one. *)
Definition patch_dive (now : Z) (u : Updates.t) (d : Dive.t) : Dive.t :=
  {| Dive.userId := Dive.userId d;
     Dive.diveNumber := Updates.diveNumber u ∪ Dive.diveNumber d;
     Dive.diveDate := default (Dive.diveDate d) (Updates.diveDate u);
     Dive.location := default (Dive.location d) (Updates.location u);
     Dive.latitude := Updates.latitude u ∪ Dive.latitude d;
     Dive.longitude := Updates.longitude u ∪ Dive.longitude d;
     Dive.site := Updates.site u ∪ Dive.site d;
     Dive.duration := default (Dive.duration d) (Updates.duration u);
     Dive.maxDepth := default (Dive.maxDepth d) (Updates.maxDepth u);
     Dive.temperature := Updates.temperature u ∪ Dive.temperature d;
     Dive.waterType := default (Dive.waterType d) (Updates.waterType u);
     Dive.visibility := Updates.visibility u ∪ Dive.visibility d;
     Dive.weather := Updates.weather u ∪ Dive.weather d;
     Dive.suitThickness := Updates.suitThickness u ∪ Dive.suitThickness d;
     Dive.leadWeights := Updates.leadWeights u ∪ Dive.leadWeights d;
     Dive.clubName := Updates.clubName u ∪ Dive.clubName d;
     Dive.clubWebsite := Updates.clubWebsite u ∪ Dive.clubWebsite d;
     Dive.instructorName := Updates.instructorName u ∪ Dive.instructorName d;
     Dive.notes := Updates.notes u ∪ Dive.notes d;
     Dive.photoStorageId := Updates.photoStorageId u ∪ Dive.photoStorageId d;
     Dive.buddyIds := default (Dive.buddyIds d) (Updates.buddyIds u);
     Dive.equipment := default (Dive.equipment d) (Updates.equipment u);
     Dive.loggedAt := Dive.loggedAt d;
     Dive.updatedAt := Qc_of_Z now |}.

(** [updateDive]: [ctx.db.patch(args.diveId, ...)]; the patch rejects
    when no document has the identifier. *)
Definition updateDive (now : Z) (diveId : N) (updates : Updates.t)
    (t : dive_table) : result unit * dive_table :=
  match dive_get diveId t with
  | None => (Throw (DocumentNotFound diveId), t)
  | Some _ =>
      (Ok tt,
       {| dive_rows :=
            (fun r => if decide (r.1 = diveId)
                      then (r.1, patch_dive now updates r.2) else r)
              <$> dive_rows t;
          dive_next := dive_next t |})
  end.

(** [deleteDive]: [ctx.db.delete(args.diveId)]; it rejects when no
    document has the identifier. *)
Definition deleteDive (diveId : N) (t : dive_table)
    : result unit * dive_table :=
  match dive_get diveId t with
  | None => (Throw (DocumentNotFound diveId), t)
  | Some _ =>
      (Ok tt,
       {| dive_rows := filter (fun r => r.1 ≠ diveId) (dive_rows t);
          dive_next := dive_next t |})
  end.

(** [Set.prototype.add] on a set kept in insertion order. *)
Definition set_add (x : list N) (s : list (list N)) : list (list N) :=
  if decide (x ∈ s) then s else s ++ [x].

(** What [getAutocompleteData] returns: the two sets as arrays, the map
    as an object. *)
Record autocomplete := {
  clubNames : list (list N);
  instructorNames : list (list N);
  clubWebsites : gmap (list N) (list N)
}.

(** [if (s)] for an optional string: defined and not empty. *)
Definition present (s : option (list N)) : option (list N) :=
  match s with
  | Some (c :: r) => Some (c :: r)
  | _ => None
  end.

(** The body of the [forEach]. *)
Definition autocomplete_step (acc : autocomplete) (dive : Dive.t)
    : autocomplete :=
  let acc1 :=
    match present (Dive.clubName dive) with
    | Some club =>
        {| clubNames := set_add club (clubNames acc);
           instructorNames := instructorNames acc;
           clubWebsites :=
             match present (Dive.clubWebsite dive) with
             | Some site => <[club := site]> (clubWebsites acc)
             | None => clubWebsites acc
             end |}
    | None => acc
    end in
  match present (Dive.instructorName dive) with
  | Some who =>
      {| clubNames := clubNames acc1;
         instructorNames := set_add who (instructorNames acc1);
         clubWebsites := clubWebsites acc1 |}
  | None => acc1
  end.

(** The object the handler of [getAutocompleteData] builds. *)
Definition autocomplete_of (userId : list N) (table : list Dive.t)
    : autocomplete :=
  fold_left autocomplete_step (by_userId userId table)
    {| clubNames := []; instructorNames := []; clubWebsites := ∅ |}.

(** [getAutocompleteData]: the query answers with the object the handler
    built when the runtime can return it as a Convex value, and fails
    otherwise.  [returnable] is the runtime's check of a returned value;
    it refuses, among others, an object with a field name it does not
    admit, and the field names of [clubWebsites] are club names.  Its
    code is in the [convex] package, not in this repository, and it is
    taken as a parameter. *)
Definition getAutocompleteData (returnable : autocomplete -> bool)
    (userId : list N) (table : list Dive.t) : option autocomplete :=
  let data := autocomplete_of userId table in
  if returnable data then Some data else None.

(* ===================================================================== *)
(** ** [components/map/LocationPicker.tsx]: the click handler *)
(* ===================================================================== *)

Module Location.
Record t := {
  latitude : Qc;
  longitude : Qc;
  name : jsval;
  displayName : jsval
}.
End Location.

(** The [click] handler of [MapClickHandler] (the [dragend] handler of
    [DraggableMarker] has the same body): the value is the location it
    hands to [onLocationSelect].  [toFixed] is
    [Number.prototype.toFixed]; loading the geocoding module is taken to
    succeed and the callback not to throw. *)
Definition MapClickHandler_click (P : platform)
    (toFixed : Qc -> nat -> list N) (lat lng : Qc) : prog Location.t :=
  try_catch
    (result ← reverseGeocode P lat lng;
     mret {| Location.latitude := lat;
             Location.longitude := lng;
             Location.name :=
               match result with
               | Some r => if truthy (name r) then name r
                           else JStr (js "Unknown Location")
               | None => JStr (js "Unknown Location")
               end;
             Location.displayName :=
               match result with
               | Some r => display_name r
               | None => JUndefined
               end |})
    (fun error =>
       mret {| Location.latitude := lat;
               Location.longitude := lng;
               Location.name :=
                 JStr (toFixed lat 4%nat ++ js ", " ++ toFixed lng 4%nat);
               Location.displayName := JUndefined |}).

(** The request [searchLocation] sends. *)
Definition autocomplete_request (P : platform) (text : list N) : request :=
  {| req_url := GEOCODING_API_URL ++ js "/autocomplete?text=" ++ text
                ++ js "&apiKey=" ++ key_text P ++ js "&limit=5";
     req_headers := [] |}.

(** The request [searchClubWebsite] sends to the route. *)
Definition club_request (query : list N) : request :=
  {| req_url := js "/api/search-club?q=" ++ query; req_headers := [] |}.

(** ** Sample data for the further properties *)

(** A store in which one key was written twice by other means. *)
Definition db_twice : table :=
  {| rows := [(0%N, first_record); (1%N, first_record)]; next_id := 2 |}.

(** A provider body with one feature that has no name of its own. *)
Definition blue_corner : jsval :=
  JObj {[ "properties" :=
            JObj {[ "lat" := JNum (Qc_of_Z 7); "lon" := JNum (Qc_of_Z 134);
                    "name" := JStr [];
                    "formatted" := JStr (js "Blue Corner, Palau") ]} ]}.

Definition one_feature : gmap string jsval :=
  {[ "features" := JArr [blue_corner] ]}.

(** An environment in which every request is rejected. *)
Definition offline (_ : request) : result response :=
  Throw (JsError TypeError (js "Failed to fetch")).

(** The answers of the route to a failure and to a page without a
    result. *)
Definition server_error (details : list N) : http_response :=
  {| http_status := 500;
     http_body := {[ "error" := JStr (js "Failed to search DuckDuckGo");
                     "details" := JStr details ]} |}.

Definition not_found (query : list N) : http_response :=
  {| http_status := 404;
     http_body := {[ "error" := JStr (js "No results found");
                     "query" := JStr query ]} |}.

Definition bad_request : http_response :=
  {| http_status := 400;
     http_body :=
       {[ "error" := JStr (js "Query parameter " ++ [dq] ++ js "q"
                           ++ [dq] ++ js " is required") ]} |}.

(** A provider answering with a given status and no readable body. *)
Definition refusing (code : N) (_ : request) : result response :=
  Ok {| ok := false; status := code; statusText := js "Too Many Requests";
        text := Ok []; json := Ok JNull |}.

(** Sample data of the camelCase table. *)
Definition new_dive (u : string) (minutes depth : Z) : NewDive.t :=
  {| NewDive.userId := js u; NewDive.diveNumber := Some (Qc_of_Z 1);
     NewDive.diveDate := Qc_of_Z 1700000000000;
     NewDive.location := js "Blue Corner";
     NewDive.latitude := None; NewDive.longitude := None;
     NewDive.site := None;
     NewDive.duration := Fin (Qc_of_Z minutes);
     NewDive.maxDepth := Fin (Qc_of_Z depth);
     NewDive.temperature := None; NewDive.waterType := js "saltwater";
     NewDive.visibility := None; NewDive.weather := None;
     NewDive.suitThickness := None; NewDive.leadWeights := None;
     NewDive.clubName := Some (js "Fish n Fins");
     NewDive.clubWebsite := None;
     NewDive.instructorName := Some (js "J. Doe"); NewDive.notes := None;
     NewDive.photoStorageId := None; NewDive.buddyIds := [];
     NewDive.equipment := [] |}.

Definition no_dives : dive_table := {| dive_rows := []; dive_next := 0 |}.

Definition two_dives : dive_table :=
  (createDive 7 7 (new_dive "u2" 30 40)
     (createDive 5 5 (new_dive "u1" 45 18) no_dives).2).2.

(** An update that only rewrites the notes. *)
Definition notes_only (text : string) : Updates.t :=
  {| Updates.diveNumber := None; Updates.diveDate := None;
     Updates.location := None; Updates.latitude := None;
     Updates.longitude := None; Updates.site := None;
     Updates.duration := None; Updates.maxDepth := None;
     Updates.temperature := None; Updates.waterType := None;
     Updates.visibility := None; Updates.weather := None;
     Updates.suitThickness := None; Updates.leadWeights := None;
     Updates.clubName := None; Updates.clubWebsite := None;
     Updates.instructorName := None; Updates.notes := Some (js text);
     Updates.photoStorageId := None; Updates.buddyIds := None;
     Updates.equipment := None |}.

(** Dives logged with a club, for the autocomplete examples. *)
Definition club_dive (u club site : string) : Dive.t :=
  {| Dive.userId := js u; Dive.diveNumber := None;
     Dive.diveDate := Qc_of_Z 1700000000000;
     Dive.location := js "Blue Corner";
     Dive.latitude := None; Dive.longitude := None; Dive.site := None;
     Dive.duration := Fin (Qc_of_Z 45); Dive.maxDepth := Fin (Qc_of_Z 18);
     Dive.temperature := None; Dive.waterType := js "saltwater";
     Dive.visibility := None; Dive.weather := None;
     Dive.suitThickness := None; Dive.leadWeights := None;
     Dive.clubName := Some (js club); Dive.clubWebsite := Some (js site);
     Dive.instructorName := Some (js "J. Doe"); Dive.notes := None;
     Dive.photoStorageId := None; Dive.buddyIds := []; Dive.equipment := [];
     Dive.loggedAt := Qc_of_Z 5; Dive.updatedAt := Qc_of_Z 5 |}.

(** A check of the returned object that admits the field names made of
    printable ASCII characters that do not start with a dollar sign. *)
Definition ascii_fields (a : autocomplete) : bool :=
  forallb
    (fun k => negb (startsWith [36%N] k)
              && forallb (fun c => (32 <=? c)%N && (c <? 127)%N) k)
    (map_to_list (clubWebsites a)).*1.

Definition club_dives : list Dive.t :=
  [ club_dive "u1" "Fish n Fins" "https://old.example";
    club_dive "u1" "Fish n Fins" "https://fishnfins.example";
    club_dive "u2" "Sams Tours" "https://sams.example";
    club_dive "u1" "Fish n Fins" "" ].

(* ===================================================================== *)
(** * Properties *)
(* ===================================================================== *)
(** ** Argument validation *)

Section validation.
Context (spec : list (string * validator)) (args : gmap string value).

Lemma validate_None :
  validate spec args = None <->
  (forall fv, fv ∈ spec -> field_ok args fv = true) /\
  (forall k, is_Some (args !! k) -> k ∈ spec.*1).
Proof.
  unfold validate. split.
  - destruct (list_find _ spec) as [[? ?]|] eqn:E1; [done|].
    destruct (list_find _ (map_to_list args).*1) as [[? ?]|] eqn:E2; [done|].
    intros _. apply list_find_None in E1, E2.
    rewrite Forall_forall in E1. rewrite Forall_forall in E2.
    split.
    + intros fv Hfv. specialize (E1 fv Hfv).
      destruct (field_ok args fv); [done | contradiction E1; done].
    + intros k [x Hx]. destruct (decide (k ∈ spec.*1)) as [|Hn]; [done|].
      exfalso. apply (E2 k); [|done].
      apply list_elem_of_fmap. exists (k, x). split; [done|].
      by apply elem_of_map_to_list.
  - intros [H1 H2].
    destruct (list_find _ spec) as [[i fv]|] eqn:E1.
    { apply list_find_Some in E1 as (Hl & Hbad & _).
      apply list_elem_of_lookup_2 in Hl. rewrite (H1 fv Hl) in Hbad. done. }
    destruct (list_find _ (map_to_list args).*1) as [[i k]|] eqn:E2; [|done].
    apply list_find_Some in E2 as (Hl & Hbad & _).
    apply list_elem_of_lookup_2, list_elem_of_fmap in Hl as ([k' x] & -> & Hin).
    apply elem_of_map_to_list in Hin. contradiction Hbad. apply H2. by exists x.
Qed.

Lemma validate_Some f : validate spec args = Some f -> offending spec args f.
Proof.
  unfold validate, offending.
  destruct (list_find _ spec) as [[i fv]|] eqn:E1.
  - intros [= <-]. apply list_find_Some in E1 as (Hl & Hbad & _).
    left. exists fv.2. destruct fv as [g v]. simpl in *.
    split; [by eapply list_elem_of_lookup_2 | done].
  - destruct (list_find _ (map_to_list args).*1) as [[i k]|] eqn:E2; [|done].
    intros [= <-]. apply list_find_Some in E2 as (Hl & Hbad & _).
    right. split; [|done].
    apply list_elem_of_lookup_2, list_elem_of_fmap in Hl as ([k' x] & -> & Hin).
    apply elem_of_map_to_list in Hin. by exists x.
Qed.

Lemma validate_missing_required f v :
  (f, v) ∈ spec -> is_optional v = false -> args !! f = None ->
  exists g, validate spec args = Some g.
Proof.
  intros Hin Hreq Hnone.
  destruct (validate spec args) as [g|] eqn:E; [by exists g|].
  apply validate_None in E as [H1 _]. specialize (H1 _ Hin).
  unfold field_ok in H1. simpl in H1. rewrite Hnone in H1. congruence.
Qed.
End validation.

(** What an accepted [upsertDive] submission is known to contain. *)
Lemma upsertDive_args_key args :
  validate upsertDive_args args = None ->
  exists u n, args !! "user_id" = Some (VStr u) /\
              args !! "dive_number" = Some (VNum n).
Proof.
  intros [H1 _]%validate_None.
  assert (Hu := H1 ("user_id", v_string)).
  assert (Hn := H1 ("dive_number", v_number)).
  unfold field_ok in Hu, Hn. simpl in Hu, Hn.
  destruct (args !! "user_id") as [[]|]; try (discriminate Hu; set_solver).
  destruct (args !! "dive_number") as [[]|]; try (discriminate Hn; set_solver).
  eauto.
Qed.

Lemma upsertDive_args_undeclared args f :
  validate upsertDive_args args = None ->
  f ∉ upsertDive_args.*1 -> args !! f = None.
Proof.
  intros [_ H2]%validate_None Hf.
  destruct (args !! f) eqn:E; [|done].
  contradiction Hf. apply H2. rewrite E. by eexists.
Qed.

(** ** The document store *)

Lemma unique_Some {A} (l : list A) x : unique l = Ok (Some x) <-> l = [x].
Proof.
  destruct l as [|a [|b l]]; simpl; split; intros H; try congruence.
Qed.

Lemma unique_None {A} (l : list A) : unique l = Ok None <-> l = [].
Proof.
  destruct l as [|a [|b l]]; simpl; split; intros H; congruence.
Qed.

Lemma filter_fmap_stable {A} (P : A -> Prop) `{!forall x, Decision (P x)}
    (f : A -> A) (l : list A) :
  (forall x, x ∈ l -> P (f x) <-> P x) ->
  filter P (f <$> l) = f <$> filter P l.
Proof.
  induction l as [|a l IH]; intros Hst; [done|].
  rewrite fmap_cons, !filter_cons.
  rewrite IH by (intros x Hx; apply Hst; by right).
  pose proof (Hst a (list_elem_of_here _ _)) as Ha.
  destruct (decide (P (f a))), (decide (P a)); try done; tauto.
Qed.

Section store.
Context (db : table) (Hwf : wf_table db).

Lemma db_get_row r : r ∈ rows db -> db_get r.1 db = Some r.2.
Proof using Hwf.
  destruct Hwf as [Hnd _]. unfold db_get.
  induction (rows db) as [|a l IH]; intros Hin; [by apply elem_of_nil in Hin|].
  rewrite fmap_cons in Hnd. apply NoDup_cons in Hnd as [Hna Hnd].
  simpl. destruct (decide (a.1 = r.1)) as [Heq|Hne].
  - simpl. apply elem_of_cons in Hin as [->|Hin]; [done|].
    contradiction Hna. rewrite Heq. apply list_elem_of_fmap. by exists r.
  - apply elem_of_cons in Hin as [->|Hin]; [done|].
    specialize (IH Hnd Hin).
    destruct (list_find _ l) as [[? ?]|]; simpl in *; congruence.
Qed.

Lemma db_get_fresh : db_get (next_id db) db = None.
Proof using Hwf.
  destruct Hwf as [_ Hlt]. unfold db_get.
  destruct (list_find _ (rows db)) as [[i r]|] eqn:E; [|done].
  apply list_find_Some in E as (Hl & Heq & _).
  rewrite Forall_forall in Hlt. specialize (Hlt r.1).
  rewrite Heq in Hlt. exfalso. eapply N.lt_irrefl, Hlt.
  rewrite <- Heq. apply list_elem_of_fmap. exists r. split; [done|].
  by eapply list_elem_of_lookup_2.
Qed.

Lemma same_id_same_row r r' : r ∈ rows db -> r' ∈ rows db -> r.1 = r'.1 -> r = r'.
Proof using Hwf.
  intros Hr Hr' Heq. destruct r as [i d], r' as [i' d']. simpl in Heq. subst i'.
  pose proof (db_get_row _ Hr) as H1. pose proof (db_get_row _ Hr') as H2.
  simpl in *. congruence.
Qed.
End store.

Lemma patch_row_fst i p (l : list (N * gmap string value)) :
  (patch_row i p <$> l).*1 = l.*1.
Proof.
  rewrite <- list_fmap_compose. apply list_fmap_ext. intros _ r _.
  unfold patch_row. simpl. by destruct (decide (r.1 = i)).
Qed.

Lemma wf_table_patch db i p :
  wf_table db ->
  wf_table {| rows := patch_row i p <$> rows db; next_id := next_id db |}.
Proof. unfold wf_table. simpl. by rewrite patch_row_fst. Qed.

Lemma wf_table_insert db d :
  wf_table db ->
  wf_table {| rows := rows db ++ [(next_id db, d)];
              next_id := N.succ (next_id db) |}.
Proof.
  intros [Hnd Hlt]. unfold wf_table. simpl.
  rewrite fmap_app. simpl. rewrite Forall_forall in Hlt. split.
  - apply NoDup_app. split; [done|]. split; [|apply NoDup_singleton].
    intros i Hi ->%list_elem_of_singleton. specialize (Hlt _ Hi). lia.
  - apply Forall_app. split.
    + apply Forall_forall. intros i Hi. specialize (Hlt _ Hi). lia.
    + apply Forall_singleton. lia.
Qed.

Lemma wf_empty_table : wf_table empty_table.
Proof. split; [apply NoDup_nil_2 | apply Forall_nil_2]. Qed.

(** A patch that carries the key of the row it is applied to leaves the
    key of every row as it was. *)
Lemma filter_patch_same_key db ex p u n u' n' :
  wf_table db -> ex ∈ rows db -> by_dive_number u n ex ->
  p !! "user_id" = u -> p !! "dive_number" = n -> is_Some u -> is_Some n ->
  filter (by_dive_number u' n') (patch_row ex.1 p <$> rows db)
  = patch_row ex.1 p <$> filter (by_dive_number u' n') (rows db).
Proof.
  intros Hwf Hex [Hku Hkn] Hpu Hpn [xu Hxu] [xn Hxn].
  apply filter_fmap_stable. intros r Hr.
  unfold patch_row. destruct (decide (r.1 = ex.1)) as [Heq|]; [|done].
  assert (r = ex) as -> by (by eapply same_id_same_row).
  unfold by_dive_number. simpl.
  rewrite !lookup_union, Hpu, Hpn, Hku, Hkn. subst u n.
  rewrite Hxu, Hxn. done.
Qed.

Lemma db_get_patch_ne i j p db :
  i ≠ j ->
  db_get i {| rows := patch_row j p <$> rows db; next_id := next_id db |}
  = db_get i db.
Proof.
  intros Hne. unfold db_get. simpl.
  induction (rows db) as [|a l IH]; [done|].
  rewrite fmap_cons. simpl.
  assert (Hfst : (patch_row j p a).1 = a.1).
  { unfold patch_row. by destruct (decide (a.1 = j)). }
  rewrite Hfst. destruct (decide (a.1 = i)) as [Ha|Ha]; simpl.
  - unfold patch_row. rewrite decide_False by congruence. done.
  - destruct (list_find _ (patch_row j p <$> l)) as [[? ?]|],
      (list_find _ l) as [[? ?]|]; simpl in *; congruence.
Qed.


(** The key of the index and the key the workflow speaks of. *)
Lemma by_dive_number_has_key u n (r : N * gmap string value) :
  by_dive_number (Some (VStr u)) (Some (VNum n)) r <-> has_key u n r.2.
Proof. done. Qed.

(** The index returns nothing exactly when no record has the key. *)
Lemma key_absent db u n :
  filter (by_dive_number (Some (VStr u)) (Some (VNum n))) (rows db) = [] <->
  (forall i d, (i, d) ∈ rows db -> ~ has_key u n d).
Proof.
  split.
  - intros Hnil i d Hin Hkey.
    assert (Hf : (i, d) ∈ filter (by_dive_number (Some (VStr u))
                                   (Some (VNum n))) (rows db))
      by (apply list_elem_of_filter; split; [exact Hkey | exact Hin]).
    rewrite Hnil in Hf. by apply elem_of_nil in Hf.
  - intros Hnone.
    destruct (filter _ (rows db)) as [|[i d] l] eqn:E; [done|]. exfalso.
    assert (Hf : (i, d) ∈ filter (by_dive_number (Some (VStr u))
                                   (Some (VNum n))) (rows db))
      by (rewrite E; left).
    apply list_elem_of_filter in Hf as [Hkey Hin]. by eapply Hnone.
Qed.

(** The index returns one row exactly when that row is the only record
    with the key. *)
Lemma key_single db u n i d :
  wf_table db ->
  (i, d) ∈ rows db -> has_key u n d ->
  (forall j d', (j, d') ∈ rows db -> has_key u n d' -> j = i) ->
  filter (by_dive_number (Some (VStr u)) (Some (VNum n))) (rows db)
  = [(i, d)].
Proof.
  intros Hwf Hin Hkey Honly.
  assert (Hall : forall r,
            r ∈ filter (by_dive_number (Some (VStr u)) (Some (VNum n)))
                  (rows db) -> r = (i, d)).
  { intros [j d'] [Hk Hr]%list_elem_of_filter.
    apply (same_id_same_row db Hwf); [done|done|]. simpl.
    by eapply Honly. }
  assert (Hmem : (i, d) ∈ filter (by_dive_number (Some (VStr u))
                                    (Some (VNum n))) (rows db))
    by (apply list_elem_of_filter; split; [exact Hkey | exact Hin]).
  assert (Hnd : NoDup (filter (by_dive_number (Some (VStr u))
                                 (Some (VNum n))) (rows db))).
  { apply NoDup_filter. destruct Hwf as [Hnd _].
    by apply NoDup_fmap_1 in Hnd. }
  destruct (filter _ (rows db)) as [|a [|b l]].
  - by apply elem_of_nil in Hmem.
  - f_equal. apply Hall. left.
  - exfalso. apply NoDup_cons in Hnd as [Hna _]. apply Hna.
    rewrite (Hall a) by left. rewrite (Hall b) by (right; left). left.
Qed.

Lemma key_single_inv db u n i d :
  filter (by_dive_number (Some (VStr u)) (Some (VNum n))) (rows db)
  = [(i, d)] ->
  (i, d) ∈ rows db /\ has_key u n d /\
  (forall j d', (j, d') ∈ rows db -> has_key u n d' -> (j, d') = (i, d)).
Proof.
  intros Hone.
  assert (Hmem : (i, d) ∈ filter (by_dive_number (Some (VStr u))
                                    (Some (VNum n))) (rows db))
    by (rewrite Hone; left).
  apply list_elem_of_filter in Hmem as [Hkey Hin].
  split; [done|]. split; [done|]. intros j d' Hin' Hkey'.
  assert (Hf : (j, d') ∈ filter (by_dive_number (Some (VStr u))
                                   (Some (VNum n))) (rows db))
    by (apply list_elem_of_filter; split; [exact Hkey' | exact Hin']).
  rewrite Hone in Hf. by apply list_elem_of_singleton in Hf.
Qed.

(** ** The table schema *)

Lemma dives_schema_eq :
  dives_schema
  = filter (fun fv => fv.1 ≠ "osm_link") upsertDive_args
    ++ [ ("logged_at", v_number); ("updated_at", v_number) ].
Proof. reflexivity. Qed.

Lemma dives_schema_elem fv :
  fv ∈ dives_schema <->
  (fv ∈ upsertDive_args /\ fv.1 ≠ "osm_link")
  \/ fv = ("logged_at", v_number) \/ fv = ("updated_at", v_number).
Proof.
  rewrite dives_schema_eq, elem_of_app, list_elem_of_filter,
    !elem_of_cons, elem_of_nil. tauto.
Qed.

Lemma dives_schema_names k :
  k ∈ dives_schema.*1 <->
  (k ∈ upsertDive_args.*1 /\ k ≠ "osm_link")
  \/ k = "logged_at" \/ k = "updated_at".
Proof.
  split.
  - intros ([f v] & -> & H)%list_elem_of_fmap. cbn [fst].
    apply dives_schema_elem in H as [[H1 H2]|[[= -> ->]|[= -> ->]]];
      [left|tauto|tauto].
    split; [|done]. apply list_elem_of_fmap. by exists (f, v).
  - intros [[([f v] & -> & H)%list_elem_of_fmap Hne]|[->| ->]].
    + apply list_elem_of_fmap. exists (f, v). split; [done|].
      apply dives_schema_elem. by left.
    + apply (bool_decide_unpack _). by vm_compute.
    + apply (bool_decide_unpack _). by vm_compute.
Qed.

Lemma osm_link_not_in_schema : "osm_link" ∉ dives_schema.*1.
Proof. apply (bool_decide_unpack _). by vm_compute. Qed.

Lemma updated_at_undeclared : "updated_at" ∉ upsertDive_args.*1.
Proof. apply (bool_decide_unpack _). by vm_compute. Qed.

Lemma logged_at_undeclared : "logged_at" ∉ upsertDive_args.*1.
Proof. apply (bool_decide_unpack _). by vm_compute. Qed.

Lemma field_ok_ext (d d' : gmap string value) fv :
  d !! fv.1 = d' !! fv.1 -> field_ok d fv = field_ok d' fv.
Proof. unfold field_ok. by intros ->. Qed.

Lemma declared_not_stamp f v :
  (f, v) ∈ upsertDive_args -> f ≠ "logged_at" /\ f ≠ "updated_at".
Proof.
  intros Hin. split; intros ->.
  - apply logged_at_undeclared, list_elem_of_fmap. by eexists (_, _).
  - apply updated_at_undeclared, list_elem_of_fmap. by eexists (_, _).
Qed.

(** The record an update leaves behind: supplied fields win, the update
    stamp is set, everything else is as before. *)
Lemma patched_record now args old :
  validate upsertDive_args args = None ->
  let new := <["updated_at" := VNum (Qc_of_Z now)]> args ∪ old in
  (forall f v, args !! f = Some v -> new !! f = Some v) /\
  new !! "updated_at" = Some (VNum (Qc_of_Z now)) /\
  (forall f, args !! f = None -> f ≠ "updated_at" -> new !! f = old !! f).
Proof.
  intros Hvalid new.
  pose proof (upsertDive_args_undeclared _ _ Hvalid updated_at_undeclared) as Hua.
  unfold new. split; [|split].
  - intros f v Hf. apply lookup_union_Some_l.
    rewrite lookup_insert_ne; [done|]. intros <-. congruence.
  - apply lookup_union_Some_l. by rewrite lookup_insert_eq.
  - intros f Hf Hne. rewrite lookup_union_r; [done|].
    by rewrite lookup_insert_ne.
Qed.

(** The record an insertion writes. *)
Lemma inserted_record now args :
  validate upsertDive_args args = None ->
  let new := <["updated_at" := VNum (Qc_of_Z now)]>
               (<["logged_at" := VNum (Qc_of_Z now)]> args) in
  (forall f v, args !! f = Some v -> new !! f = Some v) /\
  new !! "updated_at" = Some (VNum (Qc_of_Z now)) /\
  new !! "logged_at" = Some (VNum (Qc_of_Z now)).
Proof.
  intros Hvalid new.
  pose proof (upsertDive_args_undeclared _ _ Hvalid logged_at_undeclared) as Hla.
  pose proof (upsertDive_args_undeclared _ _ Hvalid updated_at_undeclared) as Hua.
  unfold new. split; [|split].
  - intros f v Hf. rewrite !lookup_insert_ne; [done| |]; intros <-; congruence.
  - by rewrite lookup_insert_eq.
  - by rewrite lookup_insert_ne, lookup_insert_eq.
Qed.

(** Every field the schema declares is in order in what the handler
    writes; only an undeclared field can make the store refuse it. *)
Lemma inserted_fields_ok now args fv :
  validate upsertDive_args args = None -> fv ∈ dives_schema ->
  field_ok (<["updated_at" := VNum (Qc_of_Z now)]>
              (<["logged_at" := VNum (Qc_of_Z now)]> args)) fv = true.
Proof.
  intros [H1 _]%validate_None Hfv. destruct fv as [f v].
  apply dives_schema_elem in Hfv as [[Hin _]|[[= -> ->]|[= -> ->]]].
  - destruct (declared_not_stamp f v Hin) as [Hl Hu].
    etrans; [|exact (H1 _ Hin)]. apply field_ok_ext. simpl.
    by rewrite !lookup_insert_ne by congruence.
  - unfold field_ok. simpl. by rewrite lookup_insert_ne, lookup_insert_eq.
  - unfold field_ok. simpl. by rewrite lookup_insert_eq.
Qed.

Lemma patched_fields_ok now args old fv :
  validate upsertDive_args args = None -> document_ok old ->
  fv ∈ dives_schema ->
  field_ok (<["updated_at" := VNum (Qc_of_Z now)]> args ∪ old) fv = true.
Proof.
  intros Hvalid Hold Hfv.
  destruct (patched_record now args old Hvalid) as (Hsup & Hupd & Hframe).
  pose proof (upsertDive_args_undeclared _ _ Hvalid logged_at_undeclared) as Hla.
  apply validate_None in Hvalid as [H1 _].
  apply validate_None in Hold as [O1 _].
  destruct fv as [f v].
  pose proof Hfv as [[Hin _]|[[= -> ->]|[= -> ->]]]%dives_schema_elem.
  - destruct (declared_not_stamp f v Hin) as [Hl Hu].
    pose proof (H1 _ Hin) as Hok. unfold field_ok in Hok |- *. simpl in *.
    destruct (args !! f) as [x|] eqn:E.
    + by rewrite (Hsup f x E).
    + rewrite (Hframe f E Hu). specialize (O1 _ Hfv).
      unfold field_ok in O1. exact O1.
  - etrans; [|exact (O1 _ Hfv)]. apply field_ok_ext. simpl. by apply Hframe.
  - unfold field_ok. simpl. by rewrite Hupd.
Qed.

Lemma inserted_keys now args k :
  validate upsertDive_args args = None ->
  is_Some ((<["updated_at" := VNum (Qc_of_Z now)]>
              (<["logged_at" := VNum (Qc_of_Z now)]> args)) !! k) ->
  k ∈ dives_schema.*1 \/ (k = "osm_link" /\ is_Some (args !! k)).
Proof.
  intros [_ H2]%validate_None Hk. rewrite dives_schema_names.
  destruct (decide (k = "updated_at")) as [|Hu]; [tauto|].
  destruct (decide (k = "logged_at")) as [|Hl]; [tauto|].
  rewrite !lookup_insert_ne in Hk by congruence.
  destruct (decide (k = "osm_link")) as [|Ho]; [tauto|].
  left. left. split; [by apply H2 | done].
Qed.

Lemma patched_keys now args old k :
  validate upsertDive_args args = None -> document_ok old ->
  is_Some ((<["updated_at" := VNum (Qc_of_Z now)]> args ∪ old) !! k) ->
  k ∈ dives_schema.*1 \/ (k = "osm_link" /\ is_Some (args !! k)).
Proof.
  intros Hvalid Hold Hk.
  destruct (patched_record now args old Hvalid) as (_ & _ & Hframe).
  apply validate_None in Hvalid as [_ H2].
  apply validate_None in Hold as [_ O2].
  destruct (decide (k = "updated_at")) as [->|Hu].
  { left. apply dives_schema_names. tauto. }
  destruct (args !! k) as [x|] eqn:E.
  - destruct (decide (k = "osm_link")) as [->|Ho]; [right; by eauto|].
    left. apply dives_schema_names. left. split; [|done].
    apply H2. by rewrite E.
  - rewrite (Hframe k E Hu) in Hk. left. by apply O2.
Qed.

(** An object whose declared fields are in order and whose only
    undeclared field is [k] is refused for [k]. *)
Lemma validate_undeclared spec (d : gmap string value) k :
  (forall fv, fv ∈ spec -> field_ok d fv = true) ->
  (forall k', is_Some (d !! k') -> k' ∈ spec.*1 \/ k' = k) ->
  is_Some (d !! k) -> k ∉ spec.*1 ->
  validate spec d = Some k.
Proof.
  intros Hok Hkeys [x Hx] Hk. unfold validate.
  destruct (list_find _ spec) as [[i fv]|] eqn:E1.
  { apply list_find_Some in E1 as (Hl & Hbad & _).
    apply list_elem_of_lookup_2 in Hl. rewrite (Hok fv Hl) in Hbad. done. }
  destruct (list_find _ (map_to_list d).*1) as [[i k']|] eqn:E2.
  - apply list_find_Some in E2 as (Hl & Hbad & _).
    apply list_elem_of_lookup_2, list_elem_of_fmap in Hl
      as ([k'' y] & -> & Hin).
    apply elem_of_map_to_list in Hin. simpl in *.
    destruct (Hkeys k'') as [Hdecl|Heq]; [by exists y|done|by rewrite Heq].
  - apply list_find_None in E2. rewrite Forall_forall in E2.
    exfalso. apply (E2 k); [|done].
    apply list_elem_of_fmap. exists (k, x). split; [done|].
    by apply elem_of_map_to_list.
Qed.

Lemma inserted_document_ok now args :
  validate upsertDive_args args = None -> args !! "osm_link" = None ->
  document_ok (<["updated_at" := VNum (Qc_of_Z now)]>
                 (<["logged_at" := VNum (Qc_of_Z now)]> args)).
Proof.
  intros Hvalid Hosm. apply validate_None. split.
  - intros fv Hfv. by apply inserted_fields_ok.
  - intros k Hk.
    destruct (inserted_keys now args k Hvalid Hk) as [|[-> [x Hx]]]; [done|].
    congruence.
Qed.

Lemma patched_document_ok now args old :
  validate upsertDive_args args = None -> args !! "osm_link" = None ->
  document_ok old ->
  document_ok (<["updated_at" := VNum (Qc_of_Z now)]> args ∪ old).
Proof.
  intros Hvalid Hosm Hold. apply validate_None. split.
  - intros fv Hfv. by apply patched_fields_ok.
  - intros k Hk.
    destruct (patched_keys now args old k Hvalid Hold Hk) as [|[-> [x Hx]]];
      [done|congruence].
Qed.

Lemma inserted_osm_link now args link :
  validate upsertDive_args args = None -> args !! "osm_link" = Some link ->
  validate dives_schema
    (<["updated_at" := VNum (Qc_of_Z now)]>
       (<["logged_at" := VNum (Qc_of_Z now)]> args)) = Some "osm_link".
Proof.
  intros Hvalid Hosm. apply validate_undeclared.
  - intros fv Hfv. by apply inserted_fields_ok.
  - intros k Hk. destruct (inserted_keys now args k Hvalid Hk); tauto.
  - exists link. by apply (inserted_record now args Hvalid).
  - exact osm_link_not_in_schema.
Qed.

Lemma patched_osm_link now args old link :
  validate upsertDive_args args = None -> args !! "osm_link" = Some link ->
  document_ok old ->
  validate dives_schema (<["updated_at" := VNum (Qc_of_Z now)]> args ∪ old)
  = Some "osm_link".
Proof.
  intros Hvalid Hosm Hold. apply validate_undeclared.
  - intros fv Hfv. by apply patched_fields_ok.
  - intros k Hk. destruct (patched_keys now args old k Hvalid Hold Hk); tauto.
  - exists link. by apply (patched_record now args old Hvalid).
  - exact osm_link_not_in_schema.
Qed.

(** ** The upsert, one call *)

Section upsert_step.
Context (now : Z) (args : gmap string value) (db : table).
Context (Hvalid : validate upsertDive_args args = None).

(** The key is taken: the handler patches, and the store decides. *)
Lemma upsertDive_found ex :
  wf_table db ->
  filter (by_dive_number (args !! "user_id") (args !! "dive_number"))
    (rows db) = [ex] ->
  upsertDive now args db
  = match validate dives_schema
            (<["updated_at" := VNum (Qc_of_Z now)]> args ∪ ex.2) with
    | Some f => (Throw (SchemaValidationError f), db)
    | None =>
        (Ok {| res_id := ex.1; res_action := updated |},
         {| rows := patch_row ex.1
                      (<["updated_at" := VNum (Qc_of_Z now)]> args)
                      <$> rows db;
            next_id := next_id db |})
    end.
Proof using Hvalid.
  intros Hwf Hfilter.
  assert (Hex : ex ∈ filter (by_dive_number (args !! "user_id")
                               (args !! "dive_number")) (rows db))
    by (rewrite Hfilter; left).
  apply list_elem_of_filter in Hex as [Hkey Hex].
  unfold upsertDive, mutation. rewrite Hvalid.
  unfold upsertDive_handler, find_by_dive_number.
  rewrite Hfilter. simpl. unfold db_patch.
  rewrite (db_get_row db Hwf ex Hex).
  by destruct (validate dives_schema _).
Qed.

(** The store an accepted patch leaves. *)
Lemma patched_store ex :
  wf_table db ->
  filter (by_dive_number (args !! "user_id") (args !! "dive_number"))
    (rows db) = [ex] ->
  let db' := {| rows := patch_row ex.1
                          (<["updated_at" := VNum (Qc_of_Z now)]> args)
                          <$> rows db;
                next_id := next_id db |} in
  wf_table db' /\
  (forall u' n',
     filter (by_dive_number u' n') (rows db')
     = patch_row ex.1 (<["updated_at" := VNum (Qc_of_Z now)]> args)
         <$> filter (by_dive_number u' n') (rows db)) /\
  db_get ex.1 db'
    = Some (<["updated_at" := VNum (Qc_of_Z now)]> args ∪ ex.2).
Proof using Hvalid.
  intros Hwf Hfilter db'.
  assert (Hex : ex ∈ filter (by_dive_number (args !! "user_id")
                               (args !! "dive_number")) (rows db))
    by (rewrite Hfilter; left).
  apply list_elem_of_filter in Hex as [Hkey Hex].
  assert (Hwf' : wf_table db') by by apply wf_table_patch.
  split; [done|split].
  - intros u' n'.
    destruct (upsertDive_args_key args Hvalid) as (u & n & Hu & Hn).
    eapply filter_patch_same_key; eauto;
      by rewrite ?lookup_insert_ne, ?Hu, ?Hn.
  - set (new := <["updated_at" := VNum (Qc_of_Z now)]> args ∪ ex.2).
    change (db_get (ex.1, new).1 db' = Some (ex.1, new).2).
    apply db_get_row; [done|]. simpl.
    apply list_elem_of_fmap. exists ex. split; [|done].
    unfold patch_row. by rewrite decide_True.
Qed.

(** The key is free: the handler inserts, and the store decides. *)
Lemma upsertDive_absent :
  filter (by_dive_number (args !! "user_id") (args !! "dive_number"))
    (rows db) = [] ->
  upsertDive now args db
  = match validate dives_schema
            (<["updated_at" := VNum (Qc_of_Z now)]>
               (<["logged_at" := VNum (Qc_of_Z now)]> args)) with
    | Some f => (Throw (SchemaValidationError f), db)
    | None =>
        (Ok {| res_id := next_id db; res_action := inserted |},
         {| rows := rows db
                    ++ [(next_id db,
                         <["updated_at" := VNum (Qc_of_Z now)]>
                           (<["logged_at" := VNum (Qc_of_Z now)]> args))];
            next_id := N.succ (next_id db) |})
    end.
Proof using Hvalid.
  intros Hfilter. unfold upsertDive, mutation. rewrite Hvalid.
  unfold upsertDive_handler, find_by_dive_number.
  rewrite Hfilter. simpl. unfold db_insert.
  by destruct (validate dives_schema _).
Qed.

(** The store an accepted insertion leaves. *)
Lemma appended_store :
  wf_table db ->
  filter (by_dive_number (args !! "user_id") (args !! "dive_number"))
    (rows db) = [] ->
  let new := <["updated_at" := VNum (Qc_of_Z now)]>
               (<["logged_at" := VNum (Qc_of_Z now)]> args) in
  let db' := {| rows := rows db ++ [(next_id db, new)];
                next_id := N.succ (next_id db) |} in
  wf_table db' /\
  filter (by_dive_number (args !! "user_id") (args !! "dive_number"))
    (rows db') = [(next_id db, new)] /\
  db_get (next_id db) db' = Some new.
Proof using Hvalid.
  intros Hwf Hfilter new db'.
  assert (Hwf' : wf_table db') by by apply wf_table_insert.
  split; [done|split].
  - simpl. rewrite filter_app, Hfilter. simpl.
    rewrite filter_cons, decide_True; [done|].
    unfold by_dive_number, new. simpl. by rewrite !lookup_insert_ne.
  - apply (db_get_row db' Hwf' (next_id db, new)). simpl.
    apply elem_of_app. right. left.
Qed.

(** With at most one record under the key, the lookup does not fail. *)
Lemma upsertDive_lookup :
  key_unique db ->
  filter (by_dive_number (args !! "user_id") (args !! "dive_number"))
    (rows db) = [] \/
  exists ex,
    filter (by_dive_number (args !! "user_id") (args !! "dive_number"))
      (rows db) = [ex].
Proof using Hvalid.
  intros Huniq.
  destruct (upsertDive_args_key args Hvalid) as (u & n & Hu & Hn).
  specialize (Huniq u n). unfold count_key in Huniq. rewrite Hu, Hn.
  destruct (filter _ (rows db)) as [|a [|b l]]; simpl in Huniq; eauto; lia.
Qed.
End upsert_step.

(** A call keeps the store well formed and its keys unique. *)
Lemma upsertDive_preserves now args db :
  wf_table db -> key_unique db ->
  wf_table (upsertDive now args db).2 /\ key_unique (upsertDive now args db).2.
Proof.
  intros Hwf Huniq.
  destruct (validate upsertDive_args args) as [g|] eqn:Hvalid.
  { unfold upsertDive, mutation. by rewrite Hvalid. }
  destruct (upsertDive_lookup args db Hvalid Huniq) as [Hnone|[ex Hex]].
  - rewrite (upsertDive_absent now args db Hvalid Hnone).
    destruct (validate dives_schema _); [done|]. simpl.
    split; [by apply wf_table_insert|].
    intros u n. unfold count_key. simpl.
    rewrite filter_app, length_app. specialize (Huniq u n).
    unfold count_key in Huniq.
    rewrite filter_cons. simpl. case_decide as Hk; simpl; [|lia].
    destruct Hk as [Hu Hn]. simpl in Hu, Hn.
    rewrite !lookup_insert_ne in Hu, Hn by done.
    rewrite <- Hu, <- Hn, Hnone. simpl. lia.
  - rewrite (upsertDive_found now args db Hvalid ex Hwf Hex).
    destruct (validate dives_schema _); [done|].
    destruct (patched_store now args db Hvalid ex Hwf Hex)
      as (Hwf' & Hfilter & _).
    split; [done|]. intros u n. unfold count_key.
    cbn [snd]. rewrite Hfilter, length_fmap. apply Huniq.
Qed.

(** What an accepted call has done: the store took the document, which
    therefore conforms to the schema; it is the one record under the
    key, either appended under a fresh identifier or merged over the
    record that was there. *)
Lemma upsertDive_accepted now args db r :
  wf_table db ->
  (upsertDive now args db).1 = Ok r ->
  validate upsertDive_args args = None /\
  exists doc,
    db_get (res_id r) (upsertDive now args db).2 = Some doc /\
    filter (by_dive_number (args !! "user_id") (args !! "dive_number"))
      (rows (upsertDive now args db).2) = [(res_id r, doc)] /\
    document_ok doc /\
    (forall f x, args !! f = Some x -> doc !! f = Some x) /\
    doc !! "updated_at" = Some (VNum (Qc_of_Z now)) /\
    ((r = {| res_id := next_id db; res_action := inserted |} /\
      filter (by_dive_number (args !! "user_id") (args !! "dive_number"))
        (rows db) = [] /\
      doc !! "logged_at" = Some (VNum (Qc_of_Z now)) /\
      rows (upsertDive now args db).2 = rows db ++ [(next_id db, doc)]) \/
     (exists old,
        r = {| res_id := res_id r; res_action := updated |} /\
        filter (by_dive_number (args !! "user_id") (args !! "dive_number"))
          (rows db) = [(res_id r, old)] /\
        doc = <["updated_at" := VNum (Qc_of_Z now)]> args ∪ old /\
        rows (upsertDive now args db).2
        = patch_row (res_id r) (<["updated_at" := VNum (Qc_of_Z now)]> args)
            <$> rows db)).
Proof.
  intros Hwf Hrun.
  destruct (validate upsertDive_args args) as [g|] eqn:Hvalid.
  { unfold upsertDive, mutation in Hrun. by rewrite Hvalid in Hrun. }
  split; [done|].
  destruct (filter (by_dive_number (args !! "user_id")
                      (args !! "dive_number")) (rows db))
    as [|ex [|ex' l]] eqn:Hf.
  - rewrite (upsertDive_absent now args db Hvalid Hf) in Hrun |- *.
    destruct (validate dives_schema _) eqn:Hschema; [done|].
    injection Hrun as <-. cbn [fst snd res_id].
    destruct (appended_store now args db Hvalid Hwf Hf) as (_ & Hone & Hget).
    destruct (inserted_record now args Hvalid) as (Hsup & Hupd & Hlog).
    eexists. split; [exact Hget|]. split; [exact Hone|].
    split; [exact Hschema|]. split; [exact Hsup|]. split; [exact Hupd|].
    left. by repeat split.
  - rewrite (upsertDive_found now args db Hvalid ex Hwf Hf) in Hrun |- *.
    destruct (validate dives_schema _) eqn:Hschema; [done|].
    injection Hrun as <-. cbn [fst snd res_id].
    destruct (patched_store now args db Hvalid ex Hwf Hf)
      as (_ & Hfilter & Hget).
    destruct (patched_record now args ex.2 Hvalid) as (Hsup & Hupd & _).
    eexists. split; [exact Hget|]. split.
    { rewrite Hfilter, Hf. simpl. unfold patch_row. by rewrite decide_True. }
    split; [exact Hschema|]. split; [exact Hsup|]. split; [exact Hupd|].
    right. exists ex.2. destruct ex as [i old]. by repeat split.
  - exfalso. unfold upsertDive, mutation in Hrun. rewrite Hvalid in Hrun.
    unfold upsertDive_handler, find_by_dive_number in Hrun.
    rewrite Hf in Hrun. done.
Qed.

(** A rejected call writes nothing. *)
Lemma upsertDive_rejected now args db e :
  (upsertDive now args db).1 = Throw e -> (upsertDive now args db).2 = db.
Proof.
  unfold upsertDive, mutation.
  destruct (validate upsertDive_args args); [done|].
  by destruct (upsertDive_handler now args db) as [[r db']|e'].
Qed.

(** ** The field the schema does not declare *)

(** C1, where the code departs from it.  A submission that carries
    [osm_link] passes the argument validator; when its (owner, sequence
    number) key matches the one existing record, the handler patches
    that record, the store refuses the merged document because the
    table's schema declares no [osm_link], and the mutation throws: the
    record is not updated and [updated] is not returned. *)
Theorem upsertDive_osm_link_not_updated now args db u n link i doc :
  wf_table db ->
  validate upsertDive_args args = None ->
  args !! "user_id" = Some (VStr u) ->
  args !! "dive_number" = Some (VNum n) ->
  args !! "osm_link" = Some link ->
  (i, doc) ∈ rows db -> has_key u n doc -> document_ok doc ->
  (forall j d, (j, d) ∈ rows db -> has_key u n d -> j = i) ->
  upsertDive now args db = (Throw (SchemaValidationError "osm_link"), db) /\
  getDiveById i (upsertDive now args db).2 = Some doc.
Proof.
  intros Hwf Hvalid Hu Hn Hosm Hin Hkey Hdoc Honly.
  pose proof (key_single db u n i doc Hwf Hin Hkey Honly) as Hone.
  rewrite <- Hu, <- Hn in Hone.
  assert (Hrun : upsertDive now args db
                 = (Throw (SchemaValidationError "osm_link"), db)).
  { rewrite (upsertDive_found now args db Hvalid _ Hwf Hone). cbn [snd].
    by rewrite (patched_osm_link now args doc link Hvalid Hosm Hdoc). }
  split; [exact Hrun|]. rewrite Hrun. cbn [snd]. unfold getDiveById.
  exact (db_get_row db Hwf (i, doc) Hin).
Qed.

(** C2, where the code departs from it.  A submission that carries
    [osm_link] and whose key matches no record passes the argument
    validator, the handler inserts, the store refuses the document
    because the table's schema declares no [osm_link], and the mutation
    throws: no record is inserted. *)
Theorem upsertDive_osm_link_not_inserted now args db u n link :
  validate upsertDive_args args = None ->
  args !! "user_id" = Some (VStr u) ->
  args !! "dive_number" = Some (VNum n) ->
  args !! "osm_link" = Some link ->
  (forall i d, (i, d) ∈ rows db -> ~ has_key u n d) ->
  upsertDive now args db = (Throw (SchemaValidationError "osm_link"), db).
Proof.
  intros Hvalid Hu Hn Hosm Hnone.
  apply key_absent in Hnone. rewrite <- Hu, <- Hn in Hnone.
  rewrite (upsertDive_absent now args db Hvalid Hnone).
  by rewrite (inserted_osm_link now args link Hvalid Hosm).
Qed.

(** ** The upsert, any number of calls *)

(** C3. Starting from a store in which every (owner, sequence number)
    key has at most one record, the store after any finite sequence of
    [upsertDive] calls still has at most one record per key. *)
Theorem upserts_key_unique calls db :
  wf_table db -> key_unique db -> key_unique (upserts calls db).
Proof.
  revert db. induction calls as [|[now args] calls IH]; intros db Hwf Huniq.
  - exact Huniq.
  - simpl. destruct (upsertDive_preserves now args db Hwf Huniq).
    by apply IH.
Qed.

(** ** Validation and ranges *)

(** C4, as stated, fails: a submission with [duration = -1] is accepted
    and written. *)
Lemma upsertDive_negative_duration_written :
  negative_duration_args !! "duration" = Some (VNum (Qc_of_Z (-1))) /\
  (upsertDive 1000 negative_duration_args empty_table).1
    = Ok {| res_id := 0; res_action := inserted |} /\
  db_get 0 empty_table = None /\
  ((fun d => d !! "duration")
     <$> db_get 0 (upsertDive 1000 negative_duration_args empty_table).2)
    = Some (Some (VNum (Qc_of_Z (-1)))).
Proof. repeat split; by vm_compute. Qed.

(** C4, amended. A submission that lacks a required attribute is
    rejected with a validation error that names an offending field, and
    the store is left exactly as it was.  Validation looks at presence
    and type only: an accepted submission stays accepted when any of its
    numbers (duration, depth, sequence number) is replaced by any other
    number. *)
Theorem upsertDive_validation now args db f v :
  (f, v) ∈ upsertDive_args -> is_optional v = false -> args !! f = None ->
  (exists g, upsertDive now args db = (Throw (ArgumentValidationError g), db)
             /\ offending upsertDive_args args g) /\
  (forall args' g q,
     validate upsertDive_args args' = None ->
     (g, v_number) ∈ upsertDive_args ->
     validate upsertDive_args (<[g := VNum q]> args') = None).
Proof.
  intros Hin Hreq Hnone. split.
  - destruct (validate_missing_required _ _ _ _ Hin Hreq Hnone) as [g Hg].
    exists g. split; [|by apply validate_Some].
    unfold upsertDive, mutation. by rewrite Hg.
  - intros args' g q [H1 H2]%validate_None Hg. apply validate_None. split.
    + intros [h w] Hh. specialize (H1 _ Hh). unfold field_ok in *. simpl in *.
      destruct (decide (g = h)) as [->|Hne].
      * rewrite lookup_insert_eq.
        assert (w = v_number) as ->; [|done].
        clear -Hh Hg. revert Hh Hg. unfold upsertDive_args.
        rewrite !elem_of_cons, !elem_of_nil. intros Hh Hg.
        repeat destruct Hh as [Hh|Hh]; try done; injection Hh as -> ->;
          try done; exfalso; repeat destruct Hg as [Hg|Hg]; done.
      * by rewrite lookup_insert_ne.
    + intros k Hk. destruct (decide (g = k)) as [<-|Hne].
      * apply list_elem_of_fmap. by exists (g, v_number).
      * rewrite lookup_insert_ne in Hk by done. by apply H2.
Qed.

(** ** Partial update *)

(** C5. After an upsert that stored a value for a field, any later
    upsert on the same key that omits the field leaves the stored record
    with that value, and with every other field it omits as well; when
    the later upsert is accepted it is an update of that same record,
    which then carries the fields it did supply and the new update
    stamp. *)
Theorem upsertDive_omitted_field_kept now1 args1 now2 args2 db r1 f x :
  wf_table db -> key_unique db ->
  (upsertDive now1 args1 db).1 = Ok r1 ->
  args2 !! "user_id" = args1 !! "user_id" ->
  args2 !! "dive_number" = args1 !! "dive_number" ->
  args1 !! f = Some x -> args2 !! f = None ->
  exists d1 d2,
    getDiveById (res_id r1) (upsertDive now1 args1 db).2 = Some d1 /\
    d1 !! f = Some x /\
    getDiveById (res_id r1)
      (upsertDive now2 args2 (upsertDive now1 args1 db).2).2 = Some d2 /\
    d2 !! f = Some x /\
    (forall g, args2 !! g = None -> g ≠ "updated_at" -> d2 !! g = d1 !! g) /\
    (forall r2,
       (upsertDive now2 args2 (upsertDive now1 args1 db).2).1 = Ok r2 ->
       r2 = {| res_id := res_id r1; res_action := updated |} /\
       (forall g v, args2 !! g = Some v -> d2 !! g = Some v) /\
       d2 !! "updated_at" = Some (VNum (Qc_of_Z now2))).
Proof.
  intros Hwf Huniq Hrun1 Hu Hn Hx Homit. unfold getDiveById.
  destruct (upsertDive_accepted now1 args1 db r1 Hwf Hrun1)
    as (Hv1 & d1 & Hget1 & Hone & _ & Hsup1 & _).
  destruct (upsertDive_preserves now1 args1 db Hwf Huniq) as [Hwf1 _].
  set (db1 := (upsertDive now1 args1 db).2) in *.
  assert (Hfu : f ≠ "updated_at").
  { intros ->.
    rewrite (upsertDive_args_undeclared _ _ Hv1 updated_at_undeclared) in Hx.
    done. }
  exists d1. rewrite <- Hu, <- Hn in Hone.
  destruct (upsertDive now2 args2 db1).1 as [r2|e] eqn:Hrun2.
  - destruct (upsertDive_accepted now2 args2 db1 r2 Hwf1 Hrun2)
      as (Hv2 & d2 & Hget2 & _ & _ & Hsup2 & Hupd2 & Hcase).
    destruct (patched_record now2 args2 d1 Hv2) as (_ & _ & Hframe).
    destruct Hcase as [(_ & Hnil & _)|(old & Hr2 & Hold & Hd2 & _)].
    { rewrite Hone in Hnil. done. }
    rewrite Hone in Hold. injection Hold as Hid <-.
    exists d2. rewrite <- Hid in Hget2.
    split; [exact Hget1|]. split; [by apply Hsup1|].
    split; [exact Hget2|]. rewrite Hd2.
    split; [rewrite (Hframe f Homit Hfu); by apply Hsup1|].
    split; [exact Hframe|].
    intros r2' [= <-]. split; [by rewrite Hr2, <- Hid|].
    rewrite <- Hd2. by split.
  - rewrite (upsertDive_rejected now2 args2 db1 e Hrun2).
    exists d1. split; [exact Hget1|]. split; [by apply Hsup1|].
    split; [exact Hget1|]. split; [by apply Hsup1|].
    split; [done|]. intros r2 Hr2. done.
Qed.

(** ** Concrete runs of the upsert *)

Lemma wf_db_one : wf_table db_one.
Proof.
  exact (proj1 (upsertDive_preserves 5 first_args empty_table wf_empty_table
                  (fun _ _ => le_0_n 1))).
Defined.

Lemma key_unique_empty_table : key_unique empty_table.
Proof. intros u n. apply le_0_n. Defined.

Lemma db_one_rows : rows db_one = [(0%N, first_record)].
Proof. vm_compute. reflexivity. Defined.

Lemma db_one_only j d :
  (j, d) ∈ rows db_one -> has_key (js "u1") (Qc_of_Z 5) d -> j = 0%N.
Proof.
  rewrite db_one_rows. intros Hin%list_elem_of_singleton _. congruence.
Defined.

Lemma upsertDive_osm_link_not_updated_witness :
  wf_table db_one /\
  validate upsertDive_args osm_args = None /\
  (0%N, first_record) ∈ rows db_one /\
  has_key (js "u1") (Qc_of_Z 5) first_record /\
  document_ok first_record /\
  upsertDive 9 osm_args db_one
  = (Throw (SchemaValidationError "osm_link"), db_one).
Proof.
  assert (Hv : validate upsertDive_args osm_args = None)
    by (vm_compute; reflexivity).
  assert (Hin : (0%N, first_record) ∈ rows db_one)
    by (rewrite db_one_rows; left).
  assert (Hk : has_key (js "u1") (Qc_of_Z 5) first_record)
    by (split; reflexivity).
  assert (Hd : document_ok first_record) by (vm_compute; reflexivity).
  split; [exact wf_db_one|]. split; [exact Hv|]. split; [exact Hin|].
  split; [exact Hk|]. split; [exact Hd|].
  exact (proj1 (upsertDive_osm_link_not_updated 9 osm_args db_one (js "u1")
                  (Qc_of_Z 5) _ 0%N first_record wf_db_one Hv eq_refl eq_refl
                  eq_refl Hin Hk Hd db_one_only)).
Defined.

Lemma upsertDive_osm_link_not_inserted_witness :
  validate upsertDive_args osm_args = None /\
  (forall i d, (i, d) ∈ rows empty_table ->
               ~ has_key (js "u1") (Qc_of_Z 5) d) /\
  upsertDive 9 osm_args empty_table
  = (Throw (SchemaValidationError "osm_link"), empty_table).
Proof.
  assert (Hv : validate upsertDive_args osm_args = None)
    by (vm_compute; reflexivity).
  assert (Hnone : forall i d, (i, d) ∈ rows empty_table ->
                              ~ has_key (js "u1") (Qc_of_Z 5) d).
  { intros i d Hin. cbn [rows empty_table] in Hin. inversion Hin. }
  split; [exact Hv|]. split; [exact Hnone|].
  exact (upsertDive_osm_link_not_inserted 9 osm_args empty_table (js "u1")
           (Qc_of_Z 5) _ Hv eq_refl eq_refl eq_refl Hnone).
Defined.

Lemma upserts_key_unique_witness :
  wf_table empty_table /\ key_unique empty_table /\
  key_unique
    (upserts [(5, first_args); (9, second_args); (12, sample_args "u2" 5 30);
              (15, negative_duration_args)] empty_table).
Proof.
  split; [exact wf_empty_table|]. split; [exact key_unique_empty_table|].
  apply (upserts_key_unique _ empty_table wf_empty_table key_unique_empty_table).
Defined.

Lemma upsertDive_validation_witness :
  ("duration", v_number) ∈ upsertDive_args /\
  is_optional v_number = false /\
  no_duration_args !! "duration" = None /\
  upsertDive 9 no_duration_args db_one
    = (Throw (ArgumentValidationError "duration"), db_one).
Proof.
  assert (Hin : ("duration", v_number) ∈ upsertDive_args)
    by (apply (bool_decide_unpack _); vm_compute; reflexivity).
  assert (Hnone : no_duration_args !! "duration" = None) by reflexivity.
  split; [exact Hin|]. split; [reflexivity|]. split; [exact Hnone|].
  destruct (upsertDive_validation 9 no_duration_args db_one "duration"
              v_number Hin eq_refl Hnone) as [(g & Hrun & _) _].
  rewrite Hrun. f_equal. f_equal. f_equal.
  assert (Hg : (upsertDive 9 no_duration_args db_one).1
               = Throw (ArgumentValidationError "duration"))
    by (vm_compute; reflexivity).
  rewrite Hrun in Hg. simpl in Hg. congruence.
Defined.

Lemma upsertDive_omitted_field_kept_witness :
  wf_table empty_table /\ key_unique empty_table /\
  (upsertDive 5 first_args empty_table).1
    = Ok {| res_id := 0; res_action := inserted |} /\
  first_args !! "notes" = Some (VStr (js "first")) /\
  second_args !! "notes" = None /\
  (upsertDive 9 second_args (upsertDive 5 first_args empty_table).2).1
    = Ok {| res_id := 0; res_action := updated |} /\
  exists d2,
    getDiveById 0
      (upsertDive 9 second_args (upsertDive 5 first_args empty_table).2).2
      = Some d2 /\
    d2 !! "notes" = Some (VStr (js "first")) /\
    d2 !! "duration" = Some (VNum (Qc_of_Z 50)).
Proof.
  assert (H1 : (upsertDive 5 first_args empty_table).1
               = Ok {| res_id := 0; res_action := inserted |})
    by (vm_compute; reflexivity).
  assert (H2 : (upsertDive 9 second_args
                  (upsertDive 5 first_args empty_table).2).1
               = Ok {| res_id := 0; res_action := updated |})
    by (vm_compute; reflexivity).
  assert (Hx : first_args !! "notes" = Some (VStr (js "first"))) by reflexivity.
  assert (Ho : second_args !! "notes" = None) by reflexivity.
  split; [exact wf_empty_table|]. split; [exact key_unique_empty_table|].
  split; [exact H1|]. split; [exact Hx|]. split; [exact Ho|].
  split; [exact H2|].
  destruct (upsertDive_omitted_field_kept 5 first_args 9 second_args
              empty_table _ "notes" (VStr (js "first"))
              wf_empty_table key_unique_empty_table H1
              eq_refl eq_refl Hx Ho)
    as (d1 & d2 & _ & _ & H3 & H4 & _ & H6).
  exists d2. split; [exact H3|]. split; [exact H4|].
  destruct (H6 _ H2) as (_ & Hsup & _). by apply Hsup.
Defined.

(* ===================================================================== *)
(** ** Statistics *)
(* ===================================================================== *)

(** *** Rounding *)

Lemma Qc_of_Z_this z : this (Qc_of_Z z) = (z # 1)%Q.
Proof. unfold Qc_of_Z, Q2Qc, inject_Z. simpl. reflexivity. Qed.

Lemma floor_log2_int n : floor_log2 n 1 = Z.log2 (Z.pos n).
Proof.
  unfold floor_log2. change (Z.log2 1) with 0. rewrite Z.sub_0_r.
  pose proof (Z.log2_nonneg (Z.pos n)) as Hk.
  destruct (Z.log2_spec (Z.pos n)) as [Hlo _]; [lia|].
  rewrite (Z.max_r 0 (Z.log2 (Z.pos n))) by lia.
  rewrite (Z.max_l 0 (- Z.log2 (Z.pos n))) by lia.
  rewrite Z.pow_0_r, Z.mul_1_r, Z.mul_1_l.
  by rewrite (proj2 (Z.leb_le _ _) Hlo).
Qed.

Lemma round_half_even_1 a : round_half_even a 1 = a.
Proof. unfold round_half_even. by rewrite Z.mod_1_r, Z.div_1_r. Qed.

(** A whole number of at most 53 bits is a double. *)
Lemma round_pos_int n :
  Z.pos n <= 2 ^ 53 -> round_pos n 1 = Some (Qc_of_Z (Z.pos n)).
Proof.
  intros Hn. unfold round_pos. rewrite floor_log2_int.
  pose proof (Z.log2_nonneg (Z.pos n)) as Hk.
  destruct (Z.log2_spec (Z.pos n)) as [Hlo Hhi]; [lia|].
  set (k := Z.log2 (Z.pos n)) in *.
  assert (Hk53 : k <= 53).
  { destruct (decide (k <= 53)) as [|Hgt]; [done|]. exfalso.
    assert (2 ^ 54 <= 2 ^ k) by (apply Z.pow_le_mono_r; lia). lia. }
  rewrite (Z.max_l (k - 52) (-1074)) by lia.
  destruct (decide (k = 53)) as [Heq|Hne].
  - assert (Z.pos n = 2 ^ 53) as Hn53 by (rewrite Heq in Hlo; lia).
    rewrite Heq. change (53 - 52) with 1.
    change (Z.max 0 (- (1))) with 0. change (Z.max 0 1) with 1.
    rewrite Hn53. vm_compute. f_equal. apply Qc_is_canon. reflexivity.
  - rewrite (Z.max_l 0 (k - 52)) by lia.
    rewrite (Z.max_r 0 (- (k - 52))) by lia.
    rewrite Z.pow_0_r, !Z.mul_1_r, round_half_even_1.
    set (s := - (k - 52)).
    assert (Hs : 0 <= s) by (unfold s; lia).
    assert (Hpow : 0 < 2 ^ s) by (apply Z.pow_pos_nonneg; lia).
    assert (Hlt : Z.pos n * 2 ^ s < 2 ^ 53).
    { replace 53 with (k + 1 + s) by (unfold s; lia).
      rewrite Z.pow_add_r by lia. apply Z.mul_lt_mono_pos_r; [done|].
      rewrite <- Z.add_1_r in Hhi. exact Hhi. }
    assert (Hno : (2 ^ 1024 <=? Z.pos n * 2 ^ s) = false).
    { apply Z.leb_gt. eapply Z.lt_trans; [exact Hlt|]. by vm_compute. }
    rewrite Hno. f_equal. apply Qc_is_canon. simpl.
    rewrite Qred_correct. unfold Qeq. simpl.
    rewrite Z2Pos.id by done. lia.
Qed.

Lemma round64_int z :
  Z.abs z <= 2 ^ 53 -> round64 (Qc_of_Z z) = Fin (Qc_of_Z z).
Proof.
  intros Hz. unfold round64. rewrite Qc_of_Z_this. simpl.
  destruct z as [|n|n].
  - f_equal. by apply Qc_is_canon.
  - rewrite round_pos_int by (simpl in Hz; lia). done.
  - rewrite round_pos_int by (simpl in Hz; lia). f_equal.
    apply Qc_is_canon. simpl. rewrite !Qred_correct. reflexivity.
Qed.

(** On the sample numbers the addition of the model is the addition of
    the reference implementation. *)
Lemma js_add_reference :
  forallb
    (fun xy =>
       bool_decide (of_spec_float (SFadd 53 1024 xy.1 xy.2)
                    = js_add (of_spec_float xy.1) (of_spec_float xy.2)))
    (list_prod reference_floats reference_floats) = true.
Proof. vm_compute. reflexivity. Qed.

(** Sums of whole numbers are exact as long as they stay within 53
    bits. *)
Lemma js_add_int a b :
  Z.abs (a + b) <= 2 ^ 53 ->
  js_add (Fin (Qc_of_Z a)) (Fin (Qc_of_Z b)) = Fin (Qc_of_Z (a + b)).
Proof.
  intros H. cbn [js_add]. rewrite <- Z2Qc_inj_add. by apply round64_int.
Qed.

Lemma fold_add_int zs a :
  Z.abs a + foldr Z.add 0 (Z.abs <$> zs) <= 2 ^ 53 ->
  fold_left js_add ((fun z => Fin (Qc_of_Z z)) <$> zs) (Fin (Qc_of_Z a))
  = Fin (Qc_of_Z (a + foldr Z.add 0 zs)).
Proof.
  revert a. induction zs as [|z zs IH]; intros a Hb.
  - simpl. by rewrite Z.add_0_r.
  - rewrite fmap_cons. cbn [fold_left]. rewrite fmap_cons in Hb.
    cbn [foldr] in Hb |- *.
    assert (Hnn : 0 <= foldr Z.add 0 (Z.abs <$> zs)).
    { clear. induction zs as [|y ys IHy]; [done|].
      rewrite fmap_cons. cbn [foldr]. lia. }
    rewrite js_add_int by lia.
    rewrite IH by lia. f_equal. f_equal. lia.
Qed.

Lemma fold_durations (ds : list Dive.t) a :
  fold_left (fun sum d => js_add sum (Dive.duration d)) ds a
  = fold_left js_add (Dive.duration <$> ds) a.
Proof.
  revert a. induction ds as [|d ds IH]; intros a; [done|].
  rewrite fmap_cons. simpl. apply IH.
Qed.

(** *** Order and maximum *)

Lemma js_lt_Fin a b : js_lt (Fin a) (Fin b) = true <-> (a < b)%Qc.
Proof. simpl. apply bool_decide_eq_true. Qed.

Lemma js_le_refl x : js_le x x.
Proof. by left. Qed.

Lemma js_lt_trans x y z :
  js_lt x y = true -> js_lt y z = true -> js_lt x z = true.
Proof.
  destruct x as [a|[]|], y as [b|[]|], z as [c|[]|]; try done.
  rewrite !js_lt_Fin. apply Qclt_trans.
Qed.

Lemma js_lt_irrefl x : js_lt x x = false.
Proof.
  destruct x as [a|[]|]; try done.
  apply not_true_iff_false. rewrite js_lt_Fin.
  intros H. by apply (Qclt_not_eq _ _ H).
Qed.

Lemma js_le_trans x y z : js_le x y -> js_le y z -> js_le x z.
Proof.
  intros [->|Hxy] [->|Hyz]; [by left|by right|by right|].
  right. by eapply js_lt_trans.
Qed.

Lemma js_le_antisym x y : js_le x y -> js_le y x -> x = y.
Proof.
  intros [->|Hxy] [Heq|Hyx]; [done|done|done|].
  pose proof (js_lt_trans _ _ _ Hxy Hyx) as H.
  by rewrite js_lt_irrefl in H.
Qed.

Lemma js_le_total x y :
  x ≠ NaN -> y ≠ NaN -> js_lt x y = false -> js_le y x.
Proof.
  destruct x as [a|[]|], y as [b|[]|]; intros Hx Hy Hlt;
    try done; try (by left); try (by right).
  apply not_true_iff_false in Hlt. rewrite js_lt_Fin in Hlt.
  apply Qcnot_lt_le in Hlt.
  destruct (Qcle_lt_or_eq _ _ Hlt) as [H| ->]; [|by left].
  right. by apply js_lt_Fin.
Qed.

Lemma max2_NaN_r h : max2 h NaN = NaN.
Proof. by destruct h. Qed.

Lemma max2_cases h x :
  h ≠ NaN -> x ≠ NaN ->
  max2 h x ≠ NaN /\ (max2 h x = h \/ max2 h x = x) /\
  js_le h (max2 h x) /\ js_le x (max2 h x).
Proof.
  intros Hh Hx.
  assert (Hm : max2 h x = if js_lt h x then x else h).
  { by destruct h, x. }
  rewrite Hm. destruct (js_lt h x) eqn:E.
  - split; [done|]. split; [by right|]. split; [by right|by left].
  - split; [done|]. split; [by left|]. split; [by left|].
    by apply js_le_total.
Qed.

Lemma fold_max2_NaN xs : fold_left max2 xs NaN = NaN.
Proof. induction xs as [|x xs IH]; [done|]. exact IH. Qed.

(** One NaN among the arguments makes the maximum NaN. *)
Lemma fold_max2_has_NaN xs h : NaN ∈ xs -> fold_left max2 xs h = NaN.
Proof.
  revert h. induction xs as [|x xs IH]; intros h Hin.
  - by apply elem_of_nil in Hin.
  - apply elem_of_cons in Hin as [<-|Hin]; simpl.
    + rewrite max2_NaN_r. apply fold_max2_NaN.
    + by apply IH.
Qed.

Lemma fold_max2_spec xs h :
  h ≠ NaN -> Forall (fun x => x ≠ NaN) xs ->
  fold_left max2 xs h ≠ NaN /\
  fold_left max2 xs h ∈ h :: xs /\
  js_le h (fold_left max2 xs h) /\
  (forall x, x ∈ xs -> js_le x (fold_left max2 xs h)).
Proof.
  intros Hh Hall. revert h Hh.
  induction Hall as [|x xs Hx Hall IH]; intros h Hh; simpl.
  - split; [done|]. split; [left|]. split; [by left|].
    intros x Hin. by apply elem_of_nil in Hin.
  - destruct (max2_cases h x Hh Hx) as (Hm & Hc & Hl & Hr).
    destruct (IH (max2 h x) Hm) as (H1 & H2 & H3 & H4).
    split; [done|]. split.
    + apply elem_of_cons in H2 as [->|H2].
      * destruct Hc as [-> | ->]; [left|right; left].
      * do 2 right. exact H2.
    + split; [by eapply js_le_trans|].
      intros y [->|Hy]%elem_of_cons; [by eapply js_le_trans|by apply H4].
Qed.

(** Without NaN, [Math.max] returns one of its arguments, and none is
    greater. *)
Lemma Math_max_spec xs :
  xs ≠ [] -> Forall (fun x => x ≠ NaN) xs ->
  Math_max xs ≠ NaN /\ Math_max xs ∈ xs /\
  (forall x, x ∈ xs -> js_le x (Math_max xs)).
Proof.
  intros Hne Hall. unfold Math_max.
  destruct (fold_max2_spec xs (Inf true) ltac:(done) Hall)
    as (H1 & H2 & _ & H4).
  split; [done|]. split; [|done].
  apply elem_of_cons in H2 as [Heq|H2]; [|done].
  destruct xs as [|x xs]; [done|].
  pose proof (H4 x (list_elem_of_here _ _)) as Hx. rewrite Heq in Hx.
  destruct Hx as [->|Hx]; [rewrite Heq; left|].
  by destruct x as [a|[]|].
Qed.

Lemma dives_of_by_userId u table : by_userId u table = dives_of u table.
Proof. done. Qed.

(** The three numbers of [getDiveStats], read off its definition. *)
Lemma getDiveStats_values u table :
  totalDives (getDiveStats u table) = length (by_userId u table) /\
  (by_userId u table = [] ->
   getDiveStats u table
   = {| totalDives := 0; maxDepth := Fin 0; totalTime := Fin 0 |}) /\
  (by_userId u table ≠ [] ->
   maxDepth (getDiveStats u table)
   = Math_max (Dive.maxDepth <$> by_userId u table)) /\
  totalTime (getDiveStats u table)
  = fold_left js_add (Dive.duration <$> by_userId u table) (Fin 0).
Proof.
  unfold getDiveStats. destruct (by_userId u table) as [|d ds].
  - by repeat split.
  - cbn [totalDives maxDepth totalTime]. split; [done|]. split; [done|].
    split; [done|]. apply fold_durations.
Qed.

(** The greatest depth of a list of dives none of which has a NaN
    depth, and NaN as soon as one has. *)
Lemma Math_max_depths ds :
  ds ≠ [] ->
  (Forall (fun d => Dive.maxDepth d ≠ NaN) ds ->
   is_max_depth (Math_max (Dive.maxDepth <$> ds)) ds) /\
  (Exists (fun d => Dive.maxDepth d = NaN) ds ->
   Math_max (Dive.maxDepth <$> ds) = NaN).
Proof.
  intros Hne. split.
  - intros Hall.
    destruct (Math_max_spec (Dive.maxDepth <$> ds)) as (_ & Hin & Hup).
    { by destruct ds. }
    { by apply Forall_fmap. }
    split.
    + apply list_elem_of_fmap in Hin as (d & Hd & Hin). by exists d.
    + intros d Hd. apply Hup, list_elem_of_fmap. by exists d.
  - intros (d & Hd & Hnan)%Exists_exists.
    apply fold_max2_has_NaN, list_elem_of_fmap. by exists d.
Qed.

(** C10, as stated, fails.  The total is not the sum of the durations:
    durations of [2^53], 1 and 1 add up, in the order of the table, to
    [2^53], and to [2^53 + 2] when the table holds them in the reverse
    order.  And a maximum depth of NaN, which the validator admits as a
    number, makes the reported maximum NaN. *)
Lemma getDiveStats_total_rounded :
  Dive.duration <$> dives_of (js "u1") long_dives
    = (fun z => Fin (Qc_of_Z z)) <$> [9007199254740992; 1; 1] /\
  totalTime (getDiveStats (js "u1") long_dives)
    = Fin (Qc_of_Z 9007199254740992) /\
  totalTime (getDiveStats (js "u1") long_dives)
    ≠ Fin (Qc_of_Z (9007199254740992 + 1 + 1)) /\
  totalTime (getDiveStats (js "u1") (rev long_dives))
    = Fin (Qc_of_Z 9007199254740994) /\
  Dive.maxDepth <$> dives_of (js "u1") nan_dives = [Fin (Qc_of_Z 18); NaN] /\
  maxDepth (getDiveStats (js "u1") nan_dives) = NaN.
Proof.
  assert (H1 : totalTime (getDiveStats (js "u1") long_dives)
               = Fin (Qc_of_Z 9007199254740992))
    by (apply (bool_decide_unpack _); vm_compute; reflexivity).
  split; [reflexivity|]. split; [exact H1|]. split.
  { rewrite H1. by intros [= H]. }
  split; [apply (bool_decide_unpack _); vm_compute; reflexivity|].
  split; reflexivity.
Qed.

(** C10, amended.  For every owner, [getDiveStats] returns the number of
    that owner's stored dives; all three numbers are zero when there is
    none.  Otherwise the maximum depth is the greatest of their
    maximum depths when none of these is NaN, and NaN when one is; and
    the total time is what adding their durations one by one, in the
    order of the table, gives in double-precision arithmetic from 0 -
    their exact sum whenever the durations are whole numbers whose
    absolute values add up to at most [2^53]. *)
Theorem getDiveStats_correct userId table :
  totalDives (getDiveStats userId table) = length (dives_of userId table) /\
  (dives_of userId table = [] ->
   getDiveStats userId table
   = {| totalDives := 0; maxDepth := Fin 0; totalTime := Fin 0 |}) /\
  (dives_of userId table ≠ [] ->
   (Forall (fun d => Dive.maxDepth d ≠ NaN) (dives_of userId table) ->
    is_max_depth (maxDepth (getDiveStats userId table))
      (dives_of userId table)) /\
   (Exists (fun d => Dive.maxDepth d = NaN) (dives_of userId table) ->
    maxDepth (getDiveStats userId table) = NaN)) /\
  totalTime (getDiveStats userId table)
    = fold_left js_add (Dive.duration <$> dives_of userId table) (Fin 0) /\
  (forall zs,
     whole_minutes (dives_of userId table) zs ->
     foldr Z.add 0 (Z.abs <$> zs) <= 2 ^ 53 ->
     totalTime (getDiveStats userId table)
     = Fin (Qc_of_Z (foldr Z.add 0 zs))).
Proof.
  destruct (getDiveStats_values userId table) as (Hn & Hz & Hm & Ht).
  rewrite dives_of_by_userId in Hn, Hz, Hm, Ht.
  split; [exact Hn|]. split; [exact Hz|]. split.
  { intros Hne. rewrite (Hm Hne). by apply Math_max_depths. }
  split; [exact Ht|].
  intros zs Hzs Hb. rewrite Ht, Hzs.
  rewrite <- Z2Qc_inj_0.
  rewrite fold_add_int by (simpl; lia). by rewrite Z.add_0_l.
Qed.

Lemma getDiveStats_correct_witness :
  dives_of (js "u1") sample_dives ≠ [] /\
  Forall (fun d => Dive.maxDepth d ≠ NaN) (dives_of (js "u1") sample_dives) /\
  whole_minutes (dives_of (js "u1") sample_dives) [45; 50] /\
  is_max_depth (maxDepth (getDiveStats (js "u1") sample_dives))
    (dives_of (js "u1") sample_dives) /\
  totalTime (getDiveStats (js "u1") sample_dives) = Fin (Qc_of_Z 95) /\
  totalDives (getDiveStats (js "u1") sample_dives) = 2%nat /\
  getDiveStats (js "u3") sample_dives
  = {| totalDives := 0; maxDepth := Fin 0; totalTime := Fin 0 |}.
Proof.
  assert (H : dives_of (js "u1") sample_dives ≠ [])
    by (vm_compute; discriminate).
  assert (Hall : Forall (fun d => Dive.maxDepth d ≠ NaN)
                   (dives_of (js "u1") sample_dives))
    by (repeat constructor; discriminate).
  assert (Hw : whole_minutes (dives_of (js "u1") sample_dives) [45; 50])
    by reflexivity.
  assert (Hb : foldr Z.add 0 (Z.abs <$> [45; 50]) <= 2 ^ 53)
    by (vm_compute; discriminate).
  destruct (getDiveStats_correct (js "u1") sample_dives)
    as (Hn & _ & Hm & _ & Ht).
  split; [exact H|]. split; [exact Hall|]. split; [exact Hw|].
  split; [exact (proj1 (Hm H) Hall)|]. split; [exact (Ht _ Hw Hb)|].
  split; [exact Hn|].
  exact (proj1 (proj2 (getDiveStats_correct (js "u3") sample_dives)) eq_refl).
Defined.

(* ===================================================================== *)
(** ** Strings and programs *)
(* ===================================================================== *)

Lemma trimStart_blank s :
  Forall (fun c => is_whitespace c = true) s -> trimStart s = [].
Proof.
  induction 1 as [|c s Hc _ IH]; [done|]. simpl. by rewrite Hc.
Qed.

Lemma trim_blank s :
  Forall (fun c => is_whitespace c = true) s -> trim s = [].
Proof.
  intros H. unfold trim, trimEnd. by rewrite (trimStart_blank s H).
Qed.

Lemma startsWith_app p s : startsWith p (p ++ s) = true.
Proof.
  induction p as [|a p IH]; [done|]. simpl. by rewrite N.eqb_refl.
Qed.

Lemma startsWith_inv p s :
  startsWith p s = true -> s = p ++ drop (length p) s.
Proof.
  revert s. induction p as [|a p IH]; intros [|b s]; simpl; try done.
  intros [->%N.eqb_eq H]%andb_prop. f_equal. by apply IH.
Qed.

(** A handler that always settles normally makes the whole [try] settle
    normally, whatever the environment answers. *)
Lemma try_catch_settles {A} (w : request -> result response)
    (p : prog A) (h : js_error -> prog A) :
  (forall e, exists a, h e = Done (Ok a)) ->
  exists a, (run w (try_catch p h)).1 = Ok a.
Proof.
  intros Hh. induction p as [[a|e]|req k IH]; simpl.
  - by exists a.
  - destruct (Hh e) as [a ->]. by exists a.
  - specialize (IH (w req)). destruct IH as [a Ha]. exists a.
    by destruct (run w (try_catch (k (w req)) h)).
Qed.

(* ===================================================================== *)
(** ** Club website resolver: the query guard *)
(* ===================================================================== *)

(** C6, as stated, fails: for an empty or blank name the resolver settles
    with [null], no error is raised, and that is the very result of a
    search without a match. *)
Lemma searchClubWebsite_blank_is_null :
  searchClubWebsite (sample_platform None) [] = Done (Ok None) /\
  searchClubWebsite (sample_platform None) (js "   ") = Done (Ok None) /\
  (run no_result_response
     (searchClubWebsite (sample_platform None) (js "Obscure Divers"))).1
  = Ok None.
Proof. repeat split; by vm_compute. Qed.

(** C6, amended. For an empty or all-whitespace club name the resolver
    returns [null] without asking anything of the network, the result it
    also gives when nothing is found; and on no input at all does it
    raise an error. *)
Theorem searchClubWebsite_blank P clubName :
  clubName = [] \/ Forall (fun c => is_whitespace c = true) clubName ->
  searchClubWebsite P clubName = Done (Ok None) /\
  forall w name, exists r, (run w (searchClubWebsite P name)).1 = Ok r.
Proof.
  intros Hblank. split.
  - unfold searchClubWebsite. destruct Hblank as [->|Hws]; [done|].
    rewrite (trim_blank _ Hws). simpl. by rewrite orb_true_r.
  - intros w name. unfold searchClubWebsite.
    destruct (str_falsy name || _); [by exists None|].
    apply try_catch_settles. intros e. by exists None.
Qed.

Lemma searchClubWebsite_blank_witness :
  Forall (fun c => is_whitespace c = true) (js "   ") /\
  searchClubWebsite (sample_platform None) (js "   ") = Done (Ok None).
Proof.
  assert (H : Forall (fun c => is_whitespace c = true) (js "   "))
    by (repeat constructor).
  split; [exact H|].
  exact (proj1 (searchClubWebsite_blank (sample_platform None) (js "   ")
                  (or_intror H))).
Defined.

(* ===================================================================== *)
(** ** Forward geocoding: the query guard *)
(* ===================================================================== *)




(* ===================================================================== *)
(** ** Reverse geocoding *)
(* ===================================================================== *)

Lemma reverseGeocode_trace P lat lon w :
  (run w (reverseGeocode P lat lon)).2
  = if key_missing P then [] else [reverse_request P lat lon].
Proof.
  unfold reverseGeocode. destruct (key_missing P); [done|].
  cbn. fold (reverse_request P lat lon).
  destruct (w (reverse_request P lat lon)) as [resp|e]; cbn; [|done].
  destruct (ok resp); cbn; [|done].
  destruct (json resp) as [data|e]; cbn; [|done].
  destruct (get_prop data "features") as [features|e]; cbn; [|done].
  destruct (truthy features); cbn; [|done].
  destruct (get_prop features "length") as [len|e]; cbn; [|done].
  destruct (is_zero len); cbn; [done|].
  destruct (get_first features) as [feature|e]; cbn; [|done].
  destruct (of_feature feature) as [r|e]; cbn; done.
Qed.

Lemma is_zero_length n : is_zero (js_length n) = bool_decide (n = 0%nat).
Proof.
  unfold is_zero, js_length. apply bool_decide_ext.
  rewrite <- Z2Qc_inj_0, Z2Qc_inj_iff. lia.
Qed.

(** What a call settles with, read off the environment's answer. *)
Lemma reverseGeocode_result P lat lon w :
  key_missing P = false ->
  (run w (reverseGeocode P lat lon)).1
  = match w (reverse_request P lat lon) with
    | Throw e => Throw e
    | Ok resp =>
        if ok resp then
          data ← json resp;
          features ← get_prop data "features";
          if truthy features then
            len ← get_prop features "length";
            if is_zero len then Ok None
            else feature ← get_first features;
                 r ← of_feature feature;
                 Ok (Some r)
          else Ok None
        else Throw (JsError Error (js "Reverse geocoding API error: "
                                   ++ statusText resp))
    end.
Proof.
  intros Hkey. unfold reverseGeocode. rewrite Hkey.
  cbn. fold (reverse_request P lat lon).
  destruct (w (reverse_request P lat lon)) as [resp|e]; cbn; [|done].
  destruct (ok resp); cbn; [|done].
  destruct (json resp) as [data|e]; cbn; [|done].
  destruct (get_prop data "features") as [features|e]; cbn; [|done].
  destruct (truthy features); cbn; [|done].
  destruct (get_prop features "length") as [len|e]; cbn; [|done].
  destruct (is_zero len); cbn; [done|].
  destruct (get_first features) as [feature|e]; cbn; [|done].
  destruct (of_feature feature) as [r|e]; cbn; done.
Qed.

Lemma no_matches_null data :
  no_matches data ->
  (data ← Ok data;
   features ← get_prop data "features";
   if truthy features then
     len ← get_prop features "length";
     if is_zero len then Ok None
     else feature ← get_first features;
          r ← of_feature feature;
          Ok (Some r)
   else Ok None) = Ok None.
Proof.
  intros (m & -> & [H|[H|H]]); cbn; rewrite H; cbn; try done.
Qed.

Lemma feature_collection_settles data :
  feature_collection data ->
  exists r,
    (data ← Ok data;
     features ← get_prop data "features";
     if truthy features then
       len ← get_prop features "length";
       if is_zero len then Ok None
       else feature ← get_first features;
            r ← of_feature feature;
            Ok (Some r)
     else Ok None) = Ok r.
Proof.
  intros [Hno|(m & f & p & rest & -> & Hf & Hp)].
  - exists None. by apply no_matches_null.
  - cbn. rewrite Hf. cbn. rewrite Hp. cbn. eauto.
Qed.

(** C8, as stated, fails in its second half: without a configured key
    the call raises an error although the provider was never asked, and
    would have answered successfully with no match. *)
Lemma reverseGeocode_unconfigured_throws :
  run (json_body no_features)
    (reverseGeocode (sample_platform None) 0%Qc 0%Qc)
  = (Throw key_not_configured, []).
Proof. reflexivity. Qed.

(** C8, amended. When the provider was asked and answered successfully
    with no match, [reverseGeocode] returns [null] and raises nothing.
    An error is raised only when the key is not configured (then nothing
    is requested) or on transport or provider failure: a rejected
    request, a non-success status, a body that is not JSON or not a
    feature collection. *)
Theorem reverseGeocode_outcomes P lat lon w :
  (forall req resp data,
     (run w (reverseGeocode P lat lon)).2 = [req] ->
     w req = Ok resp -> ok resp = true -> json resp = Ok data ->
     no_matches data ->
     (run w (reverseGeocode P lat lon)).1 = Ok None) /\
  (forall e,
     (run w (reverseGeocode P lat lon)).1 = Throw e ->
     (key_missing P = true /\ e = key_not_configured /\
      (run w (reverseGeocode P lat lon)).2 = []) \/
     (exists req, (run w (reverseGeocode P lat lon)).2 = [req] /\
                  provider_failure (w req))).
Proof.
  pose proof (reverseGeocode_trace P lat lon w) as Htrace.
  destruct (key_missing P) eqn:Hkey.
  - split.
    + intros req resp data Hreq. rewrite Htrace in Hreq. discriminate.
    + intros e He. left. unfold reverseGeocode in He. rewrite Hkey in He.
      cbn in He. injection He as <-. done.
  - pose proof (reverseGeocode_result P lat lon w Hkey) as Hres. split.
    + intros req resp data Hreq Hw Hok Hjson Hno.
      rewrite Htrace in Hreq. injection Hreq as <-.
      rewrite Hres, Hw, Hok, Hjson. by apply no_matches_null.
    + intros e He. right. exists (reverse_request P lat lon).
      split; [done|]. rewrite Hres in He. unfold provider_failure.
      destruct (w (reverse_request P lat lon)) as [resp|e']; [|done].
      destruct (ok resp); [|by left]. right.
      destruct (json resp) as [data|e']; [|done].
      intros Hfc. destruct (feature_collection_settles data Hfc) as [r Hr].
      rewrite Hr in He. discriminate.
Qed.

Lemma reverseGeocode_outcomes_witness :
  (run (json_body no_features)
     (reverseGeocode keyed_platform 0%Qc 0%Qc)).2
    = [reverse_request keyed_platform 0%Qc 0%Qc] /\
  no_matches no_features /\
  (run (json_body no_features)
     (reverseGeocode keyed_platform 0%Qc 0%Qc)).1 = Ok None.
Proof.
  pose (P := keyed_platform). pose (data := no_features).
  assert (Ht : (run (json_body data) (reverseGeocode P 0%Qc 0%Qc)).2
               = [reverse_request P 0%Qc 0%Qc]) by reflexivity.
  assert (Hn : no_matches data).
  { eexists. split; [reflexivity|]. right. right. reflexivity. }
  split; [exact Ht|]. split; [exact Hn|].
  exact (proj1 (reverseGeocode_outcomes P 0%Qc 0%Qc (json_body data))
           _ _ data Ht eq_refl eq_refl eq_refl Hn).
Defined.

(* ===================================================================== *)
(** ** Club website resolver: the extracted link *)
(* ===================================================================== *)

Lemma greedy_not_longest {R} c (k : list N -> list N -> option R)
    taken run rest r :
  Forall (fun x => x ≠ c) run ->
  k (taken ++ run) (c :: rest) = Some r ->
  greedy_not c k taken (run ++ c :: rest) = Some r.
Proof.
  intros Hrun. revert taken. induction Hrun as [|x run Hx _ IH]; intros taken Hk.
  - rewrite app_nil_r in Hk. simpl. by rewrite N.eqb_refl.
  - simpl. apply N.eqb_neq in Hx. rewrite Hx.
    rewrite (IH (taken ++ [x])); [done|]. by rewrite <- app_assoc.
Qed.

Lemma regex_match_here re s m :
  match_here re None s = Some m -> regex_match re s = Some m.
Proof. intros H. destruct s; unfold regex_match; by rewrite H. Qed.

Lemma regex_match_step re a s :
  match_here re None (a :: s) = None ->
  regex_match re (a :: s) = regex_match re s.
Proof. intros H. unfold regex_match at 1. by rewrite H. Qed.

Lemma uddg_of_wrapped target rest :
  target ≠ [] -> Forall (fun x => x ≠ 38%N) target ->
  group1 (regex_match uddg_re (wrapped target rest)) = Some target.
Proof.
  intros Hne Hamp.
  assert (regex_match uddg_re (wrapped target rest) = Some (Some target))
    as ->; [|by destruct target].
  assert (Hhere : match_here uddg_re None (js "uddg=" ++ target ++ 38%N :: rest)
                  = Some (Some target)).
  { unfold uddg_re, match_here. rewrite startsWith_app, drop_app_length.
    apply greedy_not_longest; [done|]. by destruct target. }
  unfold wrapped. revert Hhere. generalize (target ++ 38%N :: rest) as tail.
  intros tail Hhere.
  vm_compute (js "//duckduckgo.com/l/?uddg="). simpl app.
  repeat (rewrite regex_match_step by reflexivity).
  by apply regex_match_here.
Qed.

Lemma startsWith_http s :
  startsWith (js "http://") s || startsWith (js "https://") s = true ->
  startsWith (js "http") s = true.
Proof.
  intros [H|H]%orb_prop; apply startsWith_inv in H; rewrite H.
  - change (js "http://") with (js "http" ++ js "://").
    rewrite <- app_assoc. apply startsWith_app.
  - change (js "https://") with (js "http" ++ js "s://").
    rewrite <- app_assoc. apply startsWith_app.
Qed.

Lemma clean_up_relative u : clean_up (js "//" ++ u) = js "https://" ++ u.
Proof. unfold clean_up. rewrite startsWith_app. reflexivity. Qed.

Lemma clean_up_other u : startsWith (js "//") u = false -> clean_up u = u.
Proof. unfold clean_up. by intros ->. Qed.

Lemma formatUrl_qualified u :
  u ≠ [] ->
  startsWith (js "http://") (formatUrl u)
  || startsWith (js "https://") (formatUrl u) = true.
Proof.
  intros Hu. unfold formatUrl. destruct u as [|c u]; [done|]. cbn [str_falsy].
  destruct (startsWith (js "http://") (trim (c :: u))
            || startsWith (js "https://") (trim (c :: u))) eqn:E; [done|].
  by rewrite startsWith_app, orb_true_r.
Qed.

Section route.
Context (P : platform) (query q' : list N) (w : request -> result response).
Context (resp : response) (html : list N).
Context (Hquery : query ≠ []).
Context (Henc : encodeURIComponent P query = Ok q').
Context (Hw : w (search_request q') = Ok resp).
Context (Hok : ok resp = true) (Htext : text resp = Ok html).

(** What the route answers once the provider's page is in hand. *)
Lemma GET_page :
  (run w (GET P (Some query))).1
  = match group1 (regex_match result_a_re html) with
    | Some href =>
        match group1 (regex_match uddg_re href) with
        | Some target =>
            match decodeURIComponent P target with
            | Ok t => Ok (found (clean_up t) query)
            | Throw e =>
                Ok {| http_status := 500;
                      http_body :=
                        {[ "error" := JStr (js "Failed to search DuckDuckGo");
                           "details" := JStr (error_message e) ]} |}
            end
        | None => Ok (found (clean_up href) query)
        end
    | None =>
        match group1 (regex_match result_url_re html) with
        | Some shown =>
            Ok (found (if startsWith (js "http") (trim shown) then trim shown
                       else js "https://" ++ trim shown) query)
        | None =>
            Ok {| http_status := 404;
                  http_body := {[ "error" := JStr (js "No results found");
                                  "query" := JStr query ]} |}
        end
    end.
Proof using Hquery Henc Hw Hok Htext.
  unfold GET. destruct query as [|c qs]; [done|].
  cbn. rewrite Henc. cbn. fold (search_request q'). rewrite Hw. cbn.
  rewrite Hok. cbn. rewrite Htext. cbn.
  destruct (group1 (regex_match result_a_re html)) as [href|]; cbn.
  - destruct (group1 (regex_match uddg_re href)) as [target|]; cbn; [|done].
    destruct (decodeURIComponent P target); cbn; done.
  - destruct (group1 (regex_match result_url_re html)); cbn; done.
Qed.
End route.

(** C9, as stated, fails: a first result link that is a bare domain is
    returned as it is, by the route and then by the client. *)
Lemma GET_bare_domain_returned :
  group1 (regex_match result_a_re (anchor "example.com"))
    = Some (js "example.com") /\
  (run (page (anchor "example.com"))
     (GET (sample_platform None) (Some (js "club")))).1
    = Ok (found (js "example.com") (js "club")) /\
  (run (served (found (js "example.com") (js "club")))
     (searchClubWebsite (sample_platform None) (js "club"))).1
    = Ok (Some {| url := JStr (js "example.com"); title := js "club" |}) /\
  startsWith (js "http") (js "example.com") = false.
Proof. repeat split; by vm_compute. Qed.

(** C9, amended. When the route extracts a first result link from the
    provider's page: a link with a [uddg] redirect parameter is replaced
    by the decoded parameter (the provider's wrapper around a target is
    recognised as such), and a leading [//] of the outcome is replaced by
    [https://]; any other link, a bare domain included, is returned as it
    is.  On the fallback path the displayed address is trimmed and, when
    it does not begin with [http], prefixed with [https://]; an address
    with an [http://] or [https://] scheme is returned trimmed.  The
    helper [formatUrl] yields a URL with a scheme for every non-empty
    input. *)
Theorem GET_extracted_link P query q' w resp html :
  query ≠ [] ->
  encodeURIComponent P query = Ok q' ->
  w (search_request q') = Ok resp -> ok resp = true -> text resp = Ok html ->
  (forall href,
     group1 (regex_match result_a_re html) = Some href ->
     (forall target t,
        group1 (regex_match uddg_re href) = Some target ->
        decodeURIComponent P target = Ok t ->
        (run w (GET P (Some query))).1 = Ok (found (clean_up t) query)) /\
     (group1 (regex_match uddg_re href) = None ->
      (run w (GET P (Some query))).1 = Ok (found (clean_up href) query))) /\
  (forall shown,
     group1 (regex_match result_a_re html) = None ->
     group1 (regex_match result_url_re html) = Some shown ->
     (startsWith (js "http") (trim shown) = false ->
      (run w (GET P (Some query))).1
      = Ok (found (js "https://" ++ trim shown) query)) /\
     (startsWith (js "http://") (trim shown)
      || startsWith (js "https://") (trim shown) = true ->
      (run w (GET P (Some query))).1 = Ok (found (trim shown) query))) /\
  (forall target rest,
     target ≠ [] -> Forall (fun x => x ≠ 38%N) target ->
     group1 (regex_match uddg_re (wrapped target rest)) = Some target) /\
  (forall u, clean_up (js "//" ++ u) = js "https://" ++ u) /\
  (forall u, startsWith (js "//") u = false -> clean_up u = u) /\
  (forall u, u ≠ [] ->
     startsWith (js "http://") (formatUrl u)
     || startsWith (js "https://") (formatUrl u) = true).
Proof.
  intros Hquery Henc Hw Hok Htext.
  pose proof (GET_page P query q' w resp html Hquery Henc Hw Hok Htext) as Hpage.
  split; [|split; [|split; [|split; [|split]]]].
  - intros href Hhref. rewrite Hhref in Hpage. split.
    + intros target t Ht Hdec. by rewrite Ht, Hdec in Hpage.
    + intros Hnone. by rewrite Hnone in Hpage.
  - intros shown Hnone Hshown. rewrite Hnone, Hshown in Hpage. split.
    + intros Hs. by rewrite Hs in Hpage.
    + intros Hs%startsWith_http. by rewrite Hs in Hpage.
  - apply uddg_of_wrapped.
  - apply clean_up_relative.
  - apply clean_up_other.
  - apply formatUrl_qualified.
Qed.

Lemma GET_extracted_link_witness :
  js "club" ≠ [] /\
  encodeURIComponent (sample_platform None) (js "club") = Ok (js "club") /\
  group1 (regex_match result_a_re wrapped_page)
    = Some (wrapped (js "https://x.org") (js "rut=1")) /\
  group1 (regex_match uddg_re (wrapped (js "https://x.org") (js "rut=1")))
    = Some (js "https://x.org") /\
  (run (page wrapped_page) (GET (sample_platform None) (Some (js "club")))).1
    = Ok (found (js "https://x.org") (js "club")).
Proof.
  assert (Hq : js "club" ≠ []) by discriminate.
  assert (Hhref : group1 (regex_match result_a_re wrapped_page)
                  = Some (wrapped (js "https://x.org") (js "rut=1")))
    by (vm_compute; reflexivity).
  assert (Hu : group1 (regex_match uddg_re
                         (wrapped (js "https://x.org") (js "rut=1")))
               = Some (js "https://x.org")) by (vm_compute; reflexivity).
  split; [exact Hq|]. split; [reflexivity|]. split; [exact Hhref|].
  split; [exact Hu|].
  exact (proj1 (proj1 (GET_extracted_link (sample_platform None) (js "club")
                         (js "club") (page wrapped_page) _ wrapped_page
                         Hq eq_refl eq_refl eq_refl eq_refl)
                  _ Hhref) _ _ Hu eq_refl).
Defined.

(* ===================================================================== *)
(** * Further properties of the upsert *)
(* ===================================================================== *)



(** What the lookup of an accepted submission returns on a store with
    at most one record per key, in terms of the key. *)
Lemma upsertDive_lookup_key (args : gmap string value) db u n :
  key_unique db ->
  args !! "user_id" = Some (VStr u) ->
  args !! "dive_number" = Some (VNum n) ->
  (filter (by_dive_number (args !! "user_id") (args !! "dive_number"))
     (rows db) = [] /\
   forall i d, (i, d) ∈ rows db -> ~ has_key u n d) \/
  (exists i d,
     filter (by_dive_number (args !! "user_id") (args !! "dive_number"))
       (rows db) = [(i, d)] /\ (i, d) ∈ rows db /\ has_key u n d).
Proof.
  intros Huniq Hu Hn. specialize (Huniq u n). unfold count_key in Huniq.
  rewrite Hu, Hn.
  destruct (filter _ (rows db)) as [|[i d] [|b l]] eqn:E;
    simpl in Huniq; [| |lia].
  - left. split; [done|]. by apply key_absent.
  - right. exists i, d. split; [done|].
    destruct (key_single_inv db u n i d E) as (Hin & Hkey & _). by split.
Qed.

(** X2. On a store with distinct identifiers, at most one record per
    key and documents that conform to the schema, an accepted
    submission that carries no [osm_link] never fails: it is inserted
    exactly when no record had its key and updated otherwise, and the
    identifier it returns reads back a document with every supplied
    field and the current time as [updated_at]. *)
Theorem upsertDive_succeeds now args db u n :
  wf_table db -> key_unique db ->
  Forall document_ok (rows db).*2 ->
  validate upsertDive_args args = None ->
  args !! "osm_link" = None ->
  args !! "user_id" = Some (VStr u) ->
  args !! "dive_number" = Some (VNum n) ->
  exists r doc,
    (upsertDive now args db).1 = Ok r /\
    getDiveById (res_id r) (upsertDive now args db).2 = Some doc /\
    (forall f x, args !! f = Some x -> doc !! f = Some x) /\
    doc !! "updated_at" = Some (VNum (Qc_of_Z now)) /\
    (res_action r = inserted <->
     forall i d, (i, d) ∈ rows db -> ~ has_key u n d).
Proof.
  intros Hwf Huniq Hall Hvalid Hosm Hu Hn. unfold getDiveById.
  destruct (upsertDive_lookup_key args db u n Huniq Hu Hn)
    as [[Hnone Hfree]|(i & d & Hone & Hin & Hkey)].
  - rewrite (upsertDive_absent now args db Hvalid Hnone).
    rewrite (inserted_document_ok now args Hvalid Hosm). cbn [fst snd res_id].
    destruct (appended_store now args db Hvalid Hwf Hnone) as (_ & _ & Hget).
    destruct (inserted_record now args Hvalid) as (Hsup & Hupd & _).
    eexists _, _. split; [done|]. split; [exact Hget|].
    split; [exact Hsup|]. split; [exact Hupd|]. by split.
  - assert (Hd : document_ok d).
    { rewrite Forall_forall in Hall. apply Hall.
      apply list_elem_of_fmap. by exists (i, d). }
    rewrite (upsertDive_found now args db Hvalid _ Hwf Hone). cbn [snd].
    rewrite (patched_document_ok now args d Hvalid Hosm Hd).
    cbn [fst snd res_id].
    destruct (patched_store now args db Hvalid _ Hwf Hone) as (_ & _ & Hget).
    destruct (patched_record now args d Hvalid) as (Hsup & Hupd & _).
    eexists _, _. split; [done|]. split; [exact Hget|].
    split; [exact Hsup|]. split; [exact Hupd|].
    cbn [res_action]. split; [done|]. intros Hfree. by destruct (Hfree i d).
Qed.

Lemma document_ok_db_one : Forall document_ok (rows db_one).*2.
Proof.
  rewrite db_one_rows. apply Forall_singleton. vm_compute. reflexivity.
Defined.

Lemma key_unique_db_one : key_unique db_one.
Proof.
  exact (proj2 (upsertDive_preserves 5 first_args empty_table
                  wf_empty_table (fun _ _ => le_0_n 1))).
Defined.

Lemma upsertDive_succeeds_witness :
  wf_table db_one /\ key_unique db_one /\
  Forall document_ok (rows db_one).*2 /\
  validate upsertDive_args second_args = None /\
  second_args !! "osm_link" = None /\
  exists r doc,
    (upsertDive 9 second_args db_one).1 = Ok r /\
    getDiveById (res_id r) (upsertDive 9 second_args db_one).2 = Some doc /\
    doc !! "updated_at" = Some (VNum (Qc_of_Z 9)).
Proof.
  assert (Hv : validate upsertDive_args second_args = None)
    by (vm_compute; reflexivity).
  split; [exact wf_db_one|]. split; [exact key_unique_db_one|].
  split; [exact document_ok_db_one|]. split; [exact Hv|].
  split; [reflexivity|].
  destruct (upsertDive_succeeds 9 second_args db_one (js "u1") (Qc_of_Z 5)
              wf_db_one key_unique_db_one document_ok_db_one Hv
              eq_refl eq_refl eq_refl)
    as (r & doc & H1 & H2 & _ & H4 & _).
  exists r, doc. repeat split; assumption.
Defined.

(** X3. When the store already holds two or more records under the key
    of an accepted submission, [upsertDive] fails with the error of
    [.unique()] and writes nothing. *)
Theorem upsertDive_duplicate_key now args db u n :
  validate upsertDive_args args = None ->
  args !! "user_id" = Some (VStr u) ->
  args !! "dive_number" = Some (VNum n) ->
  (2 <= count_key u n db)%nat ->
  upsertDive now args db = (Throw NotUnique, db).
Proof.
  intros Hvalid Hu Hn Hcount.
  unfold upsertDive, mutation. rewrite Hvalid.
  unfold upsertDive_handler, find_by_dive_number. rewrite Hu, Hn.
  unfold count_key in Hcount.
  destruct (filter _ (rows db)) as [|a [|b l]]; simpl in Hcount; [lia|lia|].
  done.
Qed.

Lemma upsertDive_duplicate_key_witness :
  validate upsertDive_args second_args = None /\
  (2 <= count_key (js "u1") (Qc_of_Z 5) db_twice)%nat /\
  upsertDive 9 second_args db_twice = (Throw NotUnique, db_twice).
Proof.
  assert (Hv : validate upsertDive_args second_args = None)
    by (vm_compute; reflexivity).
  assert (Hc : (2 <= count_key (js "u1") (Qc_of_Z 5) db_twice)%nat)
    by (vm_compute; lia).
  split; [exact Hv|]. split; [exact Hc|].
  exact (upsertDive_duplicate_key 9 second_args db_twice (js "u1")
           (Qc_of_Z 5) Hv eq_refl eq_refl Hc).
Defined.





Lemma stamps_ordered_later t t' d :
  t <= t' -> stamps_ordered t d -> stamps_ordered t' d.
Proof.
  intros Ht (l & u & Hl & Hu & Hlu & Hut). exists l, u. repeat split; try done.
  lia.
Qed.

Lemma upsertDive_stamps_ordered t now args db :
  t <= now ->
  Forall (stamps_ordered t) (rows db).*2 ->
  Forall (stamps_ordered now) (rows (upsertDive now args db).2).*2.
Proof.
  intros Ht Hall.
  assert (Hlater : Forall (stamps_ordered now) (rows db).*2).
  { eapply Forall_impl; [exact Hall|]. intros d. by apply stamps_ordered_later. }
  unfold upsertDive, mutation.
  destruct (validate upsertDive_args args) eqn:Hvalid; [done|].
  pose proof (upsertDive_args_undeclared _ _ Hvalid logged_at_undeclared) as Hla.
  unfold upsertDive_handler.
  destruct (find_by_dive_number _ _ db) as [[ex|]|e0]; simpl; [| |done].
  - unfold db_patch. destruct (db_get ex.1 db); simpl; [|done].
    destruct (validate dives_schema _); simpl; [done|].
    rewrite Forall_fmap in Hall |- *. rewrite Forall_fmap.
    eapply Forall_impl; [exact Hall|]. intros r Hr. simpl in *.
    unfold patch_row. case_decide; [|by eapply stamps_ordered_later]. simpl.
    destruct Hr as (l & u & Hl & Hu & Hlu & Hut).
    destruct (patched_record now args r.2 Hvalid) as (_ & Hupd & Hframe).
    exists l, now. split; [by rewrite Hframe|]. split; [exact Hupd|]. lia.
  - unfold db_insert. destruct (validate dives_schema _); simpl; [done|].
    rewrite fmap_app. apply Forall_app. split; [done|].
    apply Forall_singleton. exists now, now. cbn [snd].
    split; [by rewrite lookup_insert_ne, lookup_insert_eq|].
    split; [by rewrite lookup_insert_eq|]. lia.
Qed.

(** X5. When the clock readings of successive calls never go back, every
    stored document keeps [logged_at] at or before [updated_at], and no
    stamp is later than the last reading. *)
Theorem upserts_stamps_ordered t calls db :
  clock_from t calls ->
  Forall (stamps_ordered t) (rows db).*2 ->
  Forall (stamps_ordered (last_clock t calls)) (rows (upserts calls db)).*2.
Proof.
  revert t db. induction calls as [|[now args] calls IH]; intros t db Hclock Hall.
  - exact Hall.
  - destruct Hclock as [Ht Hrest]. simpl. apply IH; [done|].
    by apply upsertDive_stamps_ordered with t.
Qed.

Lemma upserts_stamps_ordered_witness :
  clock_from 0 [(5, first_args); (9, second_args)] /\
  Forall (stamps_ordered 0) (rows empty_table).*2 /\
  Forall (stamps_ordered 9)
    (rows (upserts [(5, first_args); (9, second_args)] empty_table)).*2.
Proof.
  assert (Hc : clock_from 0 [(5, first_args); (9, second_args)])
    by (simpl; lia).
  assert (H : Forall (stamps_ordered 0) (rows empty_table).*2)
    by apply Forall_nil_2.
  split; [exact Hc|]. split; [exact H|].
  exact (upserts_stamps_ordered 0 [(5, first_args); (9, second_args)]
           empty_table Hc H).
Defined.

(** ** The upsert on submissions the schema admits *)

(** X25. An accepted submission that carries no [osm_link] and whose
    (owner, sequence number) key belongs to exactly one stored,
    conforming record updates that record: the call returns [updated]
    with the record's identity; the record then carries every supplied
    field, the current time as [updated_at], its old [logged_at] and
    every other field the submission left out; no row is added or
    removed, it is still the only record with the key, and no other
    document changes. *)
Theorem upsertDive_existing_is_updated now args db u n i doc :
  wf_table db ->
  validate upsertDive_args args = None ->
  args !! "osm_link" = None ->
  args !! "user_id" = Some (VStr u) ->
  args !! "dive_number" = Some (VNum n) ->
  (i, doc) ∈ rows db -> has_key u n doc -> document_ok doc ->
  (forall j d, (j, d) ∈ rows db -> has_key u n d -> j = i) ->
  exists new,
    (upsertDive now args db).1 = Ok {| res_id := i; res_action := updated |} /\
    getDiveById i (upsertDive now args db).2 = Some new /\
    (forall f v, args !! f = Some v -> new !! f = Some v) /\
    new !! "updated_at" = Some (VNum (Qc_of_Z now)) /\
    new !! "logged_at" = doc !! "logged_at" /\
    (forall f, args !! f = None -> f ≠ "updated_at" -> new !! f = doc !! f) /\
    (rows (upsertDive now args db).2).*1 = (rows db).*1 /\
    (forall j d, (j, d) ∈ rows (upsertDive now args db).2 ->
                 has_key u n d -> (j, d) = (i, new)) /\
    (forall j, j ≠ i ->
       getDiveById j (upsertDive now args db).2 = getDiveById j db).
Proof.
  intros Hwf Hvalid Hosm Hu Hn Hin Hkey Hdoc Honly. unfold getDiveById.
  pose proof (key_single db u n i doc Hwf Hin Hkey Honly) as Hone.
  rewrite <- Hu, <- Hn in Hone.
  rewrite (upsertDive_found now args db Hvalid _ Hwf Hone). cbn [snd fst].
  rewrite (patched_document_ok now args doc Hvalid Hosm Hdoc).
  cbn [fst snd].
  destruct (patched_store now args db Hvalid _ Hwf Hone)
    as (_ & Hfilter & Hget).
  destruct (patched_record now args doc Hvalid) as (Hsup & Hupd & Hframe).
  pose proof (upsertDive_args_undeclared _ _ Hvalid logged_at_undeclared)
    as Hla.
  cbn [fst snd] in Hget, Hfilter.
  eexists. split; [done|]. split; [exact Hget|]. split; [exact Hsup|].
  split; [exact Hupd|]. split; [by apply Hframe|]. split; [exact Hframe|].
  split; [apply patch_row_fst|]. split.
  - intros j d Hj Hk.
    assert (Hf : (j, d) ∈ filter (by_dive_number (Some (VStr u))
                                    (Some (VNum n)))
                   (patch_row i (<["updated_at" := VNum (Qc_of_Z now)]> args)
                      <$> rows db))
      by (apply list_elem_of_filter; split; [exact Hk | exact Hj]).
    rewrite <- Hu, <- Hn in Hf. rewrite Hfilter, Hone in Hf.
    simpl in Hf. unfold patch_row in Hf. rewrite decide_True in Hf by done.
    by apply list_elem_of_singleton in Hf.
  - intros j Hj. by apply db_get_patch_ne.
Qed.

Lemma upsertDive_existing_is_updated_witness :
  wf_table db_one /\
  validate upsertDive_args second_args = None /\
  (0%N, first_record) ∈ rows db_one /\
  has_key (js "u1") (Qc_of_Z 5) first_record /\
  document_ok first_record /\
  exists new,
    (upsertDive 9 second_args db_one).1
      = Ok {| res_id := 0; res_action := updated |} /\
    getDiveById 0 (upsertDive 9 second_args db_one).2 = Some new /\
    new !! "updated_at" = Some (VNum (Qc_of_Z 9)) /\
    new !! "logged_at" = Some (VNum (Qc_of_Z 5)) /\
    new !! "notes" = Some (VStr (js "first")).
Proof.
  assert (Hv : validate upsertDive_args second_args = None)
    by (vm_compute; reflexivity).
  assert (Hin : (0%N, first_record) ∈ rows db_one)
    by (rewrite db_one_rows; left).
  assert (Hk : has_key (js "u1") (Qc_of_Z 5) first_record)
    by (split; reflexivity).
  assert (Hd : document_ok first_record) by (vm_compute; reflexivity).
  split; [exact wf_db_one|]. split; [exact Hv|]. split; [exact Hin|].
  split; [exact Hk|]. split; [exact Hd|].
  destruct (upsertDive_existing_is_updated 9 second_args db_one (js "u1")
              (Qc_of_Z 5) 0%N first_record wf_db_one Hv eq_refl eq_refl
              eq_refl Hin Hk Hd db_one_only)
    as (new & H1 & H2 & _ & H4 & H5 & H6 & _).
  exists new. split; [exact H1|]. split; [exact H2|]. split; [exact H4|].
  split; [by rewrite H5|]. rewrite H6; [reflexivity|reflexivity|discriminate].
Defined.

(** X26. An accepted submission that carries no [osm_link] and whose
    key no stored record has is inserted: one row is appended under an
    identifier no document had, the call returns [inserted] with it, and
    the new record has the key, every supplied field, and [logged_at]
    and [updated_at] both equal to the current time. *)
Theorem upsertDive_absent_is_inserted now args db u n :
  wf_table db ->
  validate upsertDive_args args = None ->
  args !! "osm_link" = None ->
  args !! "user_id" = Some (VStr u) ->
  args !! "dive_number" = Some (VNum n) ->
  (forall i d, (i, d) ∈ rows db -> ~ has_key u n d) ->
  exists i new,
    (upsertDive now args db).1 = Ok {| res_id := i; res_action := inserted |} /\
    getDiveById i db = None /\
    rows (upsertDive now args db).2 = rows db ++ [(i, new)] /\
    getDiveById i (upsertDive now args db).2 = Some new /\
    has_key u n new /\
    new !! "logged_at" = Some (VNum (Qc_of_Z now)) /\
    new !! "updated_at" = Some (VNum (Qc_of_Z now)) /\
    (forall f v, args !! f = Some v -> new !! f = Some v).
Proof.
  intros Hwf Hvalid Hosm Hu Hn Hfree. unfold getDiveById.
  apply key_absent in Hfree. rewrite <- Hu, <- Hn in Hfree.
  rewrite (upsertDive_absent now args db Hvalid Hfree).
  rewrite (inserted_document_ok now args Hvalid Hosm). cbn [fst snd].
  destruct (appended_store now args db Hvalid Hwf Hfree) as (_ & _ & Hget).
  destruct (inserted_record now args Hvalid) as (Hsup & Hupd & Hlog).
  eexists _, _. split; [done|]. split; [by apply db_get_fresh|].
  split; [done|]. split; [exact Hget|].
  split; [split; by apply Hsup|]. split; [exact Hlog|]. split; [exact Hupd|].
  exact Hsup.
Qed.

Lemma upsertDive_absent_is_inserted_witness :
  wf_table empty_table /\
  validate upsertDive_args first_args = None /\
  first_args !! "osm_link" = None /\
  (forall i d, (i, d) ∈ rows empty_table ->
               ~ has_key (js "u1") (Qc_of_Z 5) d) /\
  exists i new,
    (upsertDive 5 first_args empty_table).1
      = Ok {| res_id := i; res_action := inserted |} /\
    getDiveById i (upsertDive 5 first_args empty_table).2 = Some new /\
    new !! "logged_at" = Some (VNum (Qc_of_Z 5)) /\
    new !! "updated_at" = Some (VNum (Qc_of_Z 5)).
Proof.
  assert (Hv : validate upsertDive_args first_args = None)
    by (vm_compute; reflexivity).
  assert (Hnone : forall i d, (i, d) ∈ rows empty_table ->
                              ~ has_key (js "u1") (Qc_of_Z 5) d).
  { intros i d Hin. cbn [rows empty_table] in Hin. inversion Hin. }
  split; [exact wf_empty_table|]. split; [exact Hv|]. split; [reflexivity|].
  split; [exact Hnone|].
  destruct (upsertDive_absent_is_inserted 5 first_args empty_table (js "u1")
              (Qc_of_Z 5) wf_empty_table Hv eq_refl eq_refl eq_refl Hnone)
    as (i & new & H1 & _ & _ & H4 & _ & H6 & H7 & _).
  exists i, new. repeat split; assumption.
Defined.

(** X27. Submitting one key twice, without [osm_link], to a store of
    conforming documents with at most one record per key: both calls are
    accepted, the second is an update of the record the first one left,
    that record is then the only one with the key, its [logged_at] is
    what it was between the two calls and its [updated_at] is the time
    of the second call. *)
Theorem upsertDive_same_key_twice now1 args1 now2 args2 db u n :
  wf_table db -> key_unique db ->
  Forall document_ok (rows db).*2 ->
  validate upsertDive_args args1 = None ->
  validate upsertDive_args args2 = None ->
  args1 !! "osm_link" = None -> args2 !! "osm_link" = None ->
  args1 !! "user_id" = Some (VStr u) ->
  args1 !! "dive_number" = Some (VNum n) ->
  args2 !! "user_id" = Some (VStr u) ->
  args2 !! "dive_number" = Some (VNum n) ->
  exists r1 d1 d2,
    (upsertDive now1 args1 db).1 = Ok r1 /\
    getDiveById (res_id r1) (upsertDive now1 args1 db).2 = Some d1 /\
    (upsertDive now2 args2 (upsertDive now1 args1 db).2).1
      = Ok {| res_id := res_id r1; res_action := updated |} /\
    getDiveById (res_id r1)
      (upsertDive now2 args2 (upsertDive now1 args1 db).2).2 = Some d2 /\
    (forall j d,
       (j, d) ∈ rows (upsertDive now2 args2 (upsertDive now1 args1 db).2).2 ->
       has_key u n d -> (j, d) = (res_id r1, d2)) /\
    d2 !! "logged_at" = d1 !! "logged_at" /\
    d2 !! "updated_at" = Some (VNum (Qc_of_Z now2)).
Proof.
  intros Hwf Huniq Hall Hv1 Hv2 Ho1 Ho2 Hu1 Hn1 Hu2 Hn2.
  unfold getDiveById.
  assert (Hrun1 : exists r1, (upsertDive now1 args1 db).1 = Ok r1).
  { destruct (upsertDive_lookup_key args1 db u n Huniq Hu1 Hn1)
      as [[Hnone _]|(i & d & Hone & Hin & Hkey)].
    - rewrite (upsertDive_absent now1 args1 db Hv1 Hnone).
      rewrite (inserted_document_ok now1 args1 Hv1 Ho1). by eexists.
    - assert (Hd : document_ok d).
      { rewrite Forall_forall in Hall. apply Hall.
        apply list_elem_of_fmap. by exists (i, d). }
      rewrite (upsertDive_found now1 args1 db Hv1 _ Hwf Hone). cbn [snd].
      rewrite (patched_document_ok now1 args1 d Hv1 Ho1 Hd). by eexists. }
  destruct Hrun1 as [r1 Hrun1].
  destruct (upsertDive_accepted now1 args1 db r1 Hwf Hrun1)
    as (_ & d1 & Hget1 & Hone & Hdoc1 & _).
  destruct (upsertDive_preserves now1 args1 db Hwf Huniq) as [Hwf1 _].
  set (db1 := (upsertDive now1 args1 db).2) in *.
  rewrite Hu1, Hn1, <- Hu2, <- Hn2 in Hone.
  rewrite (upsertDive_found now2 args2 db1 Hv2 _ Hwf1 Hone). cbn [snd fst].
  rewrite (patched_document_ok now2 args2 d1 Hv2 Ho2 Hdoc1).
  cbn [fst snd].
  destruct (patched_store now2 args2 db1 Hv2 _ Hwf1 Hone)
    as (_ & Hfilter & Hget).
  destruct (patched_record now2 args2 d1 Hv2) as (_ & Hupd & Hframe).
  pose proof (upsertDive_args_undeclared _ _ Hv2 logged_at_undeclared)
    as Hla.
  cbn [fst snd] in Hget, Hfilter.
  exists r1, d1. eexists. split; [done|]. split; [exact Hget1|].
  split; [done|]. split; [exact Hget|]. split.
  - intros j d Hj Hk.
    assert (Hf : (j, d) ∈ filter (by_dive_number (Some (VStr u))
                                    (Some (VNum n)))
                   (patch_row (res_id r1)
                      (<["updated_at" := VNum (Qc_of_Z now2)]> args2)
                      <$> rows db1))
      by (apply list_elem_of_filter; split; [exact Hk | exact Hj]).
    rewrite <- Hu2, <- Hn2 in Hf. rewrite Hfilter, Hone in Hf.
    simpl in Hf. unfold patch_row in Hf. rewrite decide_True in Hf by done.
    by apply list_elem_of_singleton in Hf.
  - split; [by apply Hframe | exact Hupd].
Qed.

Lemma upsertDive_same_key_twice_witness :
  wf_table empty_table /\ key_unique empty_table /\
  Forall document_ok (rows empty_table).*2 /\
  validate upsertDive_args first_args = None /\
  validate upsertDive_args second_args = None /\
  exists r1 d2,
    (upsertDive 9 second_args (upsertDive 5 first_args empty_table).2).1
      = Ok {| res_id := res_id r1; res_action := updated |} /\
    getDiveById (res_id r1)
      (upsertDive 9 second_args (upsertDive 5 first_args empty_table).2).2
      = Some d2 /\
    d2 !! "updated_at" = Some (VNum (Qc_of_Z 9)).
Proof.
  assert (Hv1 : validate upsertDive_args first_args = None)
    by (vm_compute; reflexivity).
  assert (Hv2 : validate upsertDive_args second_args = None)
    by (vm_compute; reflexivity).
  assert (H : Forall document_ok (rows empty_table).*2) by apply Forall_nil_2.
  split; [exact wf_empty_table|]. split; [exact key_unique_empty_table|].
  split; [exact H|]. split; [exact Hv1|]. split; [exact Hv2|].
  destruct (upsertDive_same_key_twice 5 first_args 9 second_args empty_table
              (js "u1") (Qc_of_Z 5) wf_empty_table key_unique_empty_table H
              Hv1 Hv2 eq_refl eq_refl eq_refl eq_refl eq_refl eq_refl)
    as (r1 & d1 & d2 & _ & _ & H3 & H4 & _ & _ & H7).
  exists r1, d2. repeat split; assumption.
Defined.

(* ===================================================================== *)
(** * Further properties of the geocoding functions *)
(* ===================================================================== *)

(** What a forward search with a configured key and a long enough query
    settles with, and what it requests. *)
Lemma searchLocation_run P query w :
  key_missing P = false ->
  str_falsy query || (length (trim query) <? 2)%nat = false ->
  run w (searchLocation P query)
  = match encodeURIComponent P query with
    | Throw e => (Throw e, [])
    | Ok text =>
        (match w (autocomplete_request P text) with
         | Throw e => Throw e
         | Ok resp =>
             if ok resp then data ← json resp; features_of data
             else Throw (JsError Error (js "Geocoding API error: "
                                        ++ statusText resp))
         end, [autocomplete_request P text])
    end.
Proof.
  intros Hkey Hlong. unfold searchLocation. rewrite Hkey, Hlong.
  destruct (encodeURIComponent P query) as [text|e]; cbn; [|done].
  fold (autocomplete_request P text).
  destruct (w (autocomplete_request P text)) as [resp|e]; cbn; [|done].
  destruct (ok resp); cbn; [|done].
  destruct (json resp) as [data|e]; cbn; [|done].
  by destruct (features_of data).
Qed.

Lemma long_query query :
  query ≠ [] -> (2 <= length (trim query))%nat ->
  str_falsy query || (length (trim query) <? 2)%nat = false.
Proof.
  intros Hq Hlen. destruct query; [done|]. simpl.
  by apply Nat.ltb_ge.
Qed.

Lemma get_prop_obj m p : get_prop (JObj m) p = Ok (default JUndefined (m !! p)).
Proof. done. Qed.

Lemma of_feature_obj fm p :
  fm !! "properties" = Some (JObj p) ->
  of_feature (JObj fm)
  = Ok {| lat := default JUndefined (p !! "lat");
          lon := default JUndefined (p !! "lon");
          name := if truthy (default JUndefined (p !! "name"))
                  then default JUndefined (p !! "name")
                  else default JUndefined (p !! "formatted");
          display_name := default JUndefined (p !! "formatted");
          address := {| city := default JUndefined (p !! "city");
                        country := default JUndefined (p !! "country");
                        state := default JUndefined (p !! "state") |} |}.
Proof. intros Hp. unfold of_feature. cbn. rewrite Hp. done. Qed.

Lemma map_features_ok l :
  Forall (fun f => exists fm p, f = JObj fm /\
                     fm !! "properties" = Some (JObj p)) l ->
  exists rs, map_features l = Ok rs /\ length rs = length l /\
    forall i f, l !! i = Some f ->
      exists r, rs !! i = Some r /\ of_feature f = Ok r.
Proof.
  induction 1 as [|f l (fm & p & -> & Hp) _ (rs & Hrs & Hlen & Hnth)].
  - exists []. split; [done|]. split; [done|]. intros i f Hi. by destruct i.
  - pose proof (of_feature_obj fm p Hp) as Hf.
    eexists (_ :: rs). split; [|split].
    + cbn [map_features]. rewrite Hf. cbn. rewrite Hrs. reflexivity.
    + simpl. by rewrite Hlen.
    + intros [|i] f Hi; simpl in *.
      * injection Hi as <-. eauto.
      * by apply Hnth.
Qed.

(** X6. A forward search that gets a successful answer whose [features]
    are objects with a [properties] object returns one candidate per
    feature, in the provider's order; each candidate copies the
    coordinates and the formatted address, and its name is the feature's
    name or, when that is missing or empty, the formatted address.
    Exactly one request is made. *)
Theorem searchLocation_results P query text w resp m l :
  key_missing P = false ->
  query ≠ [] -> (2 <= length (trim query))%nat ->
  encodeURIComponent P query = Ok text ->
  w (autocomplete_request P text) = Ok resp ->
  ok resp = true -> json resp = Ok (JObj m) ->
  m !! "features" = Some (JArr l) ->
  Forall (fun f => exists fm p, f = JObj fm /\
                     fm !! "properties" = Some (JObj p)) l ->
  exists rs,
    run w (searchLocation P query) = (Ok rs, [autocomplete_request P text]) /\
    length rs = length l /\
    forall i fm p,
      l !! i = Some (JObj fm) -> fm !! "properties" = Some (JObj p) ->
      exists r,
        rs !! i = Some r /\
        lat r = default JUndefined (p !! "lat") /\
        lon r = default JUndefined (p !! "lon") /\
        display_name r = default JUndefined (p !! "formatted") /\
        name r = if truthy (default JUndefined (p !! "name"))
                 then default JUndefined (p !! "name")
                 else default JUndefined (p !! "formatted").
Proof.
  intros Hkey Hq Hlen Henc Hw Hok Hjson Hfeat Hall.
  destruct (map_features_ok l Hall) as (rs & Hrs & Hlen' & Hnth).
  exists rs. split; [|split; [done|]].
  - rewrite (searchLocation_run P query w Hkey (long_query query Hq Hlen)).
    rewrite Henc, Hw, Hok, Hjson. f_equal.
    change (features_of (JObj m) = Ok rs). unfold features_of.
    rewrite get_prop_obj. cbn. rewrite Hfeat. cbn. exact Hrs.
  - intros i fm p Hi Hp. destruct (Hnth i _ Hi) as (r & Hr & Hof).
    rewrite (of_feature_obj fm p Hp) in Hof. injection Hof as <-.
    eexists. split; [exact Hr|]. done.
Qed.

(** X7. A forward search hands failures on unchanged: an argument the
    encoder rejects raises its error before anything is requested; a
    rejected request and an unreadable body raise the error they came
    with; a non-success status raises [Geocoding API error:] followed by
    the status text.  A successful body without [features] gives the
    empty list. *)
Theorem searchLocation_failures P query w :
  key_missing P = false ->
  query ≠ [] -> (2 <= length (trim query))%nat ->
  (forall e, encodeURIComponent P query = Throw e ->
             run w (searchLocation P query) = (Throw e, [])) /\
  (forall text, encodeURIComponent P query = Ok text ->
     (forall e, w (autocomplete_request P text) = Throw e ->
        run w (searchLocation P query)
        = (Throw e, [autocomplete_request P text])) /\
     (forall resp, w (autocomplete_request P text) = Ok resp ->
        (ok resp = false ->
         run w (searchLocation P query)
         = (Throw (JsError Error (js "Geocoding API error: "
                                  ++ statusText resp)),
            [autocomplete_request P text])) /\
        (forall e, ok resp = true -> json resp = Throw e ->
           run w (searchLocation P query)
           = (Throw e, [autocomplete_request P text])) /\
        (forall m, ok resp = true -> json resp = Ok (JObj m) ->
           m !! "features" = None ->
           run w (searchLocation P query)
           = (Ok [], [autocomplete_request P text])))).
Proof.
  intros Hkey Hq Hlen.
  pose proof (searchLocation_run P query w Hkey (long_query query Hq Hlen))
    as Hrun.
  split.
  - intros e He. by rewrite Hrun, He.
  - intros text Henc. rewrite Henc in Hrun. split.
    + intros e He. by rewrite Hrun, He.
    + intros resp Hw. rewrite Hw in Hrun. split; [|split].
      * intros Hok. by rewrite Hrun, Hok.
      * intros e Hok Hjson. by rewrite Hrun, Hok, Hjson.
      * intros m Hok Hjson Hnone. rewrite Hrun, Hok, Hjson. f_equal.
        change (features_of (JObj m) = Ok []). unfold features_of.
        rewrite get_prop_obj. cbn. rewrite Hnone. done.
Qed.

Lemma searchLocation_results_witness :
  key_missing keyed_platform = false /\
  (2 <= length (trim (js "Blue Corner")))%nat /\
  exists rs,
    run (json_body (JObj one_feature))
      (searchLocation keyed_platform (js "Blue Corner"))
    = (Ok rs, [autocomplete_request keyed_platform (js "Blue Corner")]) /\
    length rs = 1%nat /\
    exists r, rs !! 0%nat = Some r /\
              name r = JStr (js "Blue Corner, Palau").
Proof.
  assert (Hlen : (2 <= length (trim (js "Blue Corner")))%nat)
    by (vm_compute; lia).
  assert (Hq : js "Blue Corner" ≠ []) by discriminate.
  assert (Hall : Forall (fun f => exists fm p, f = JObj fm /\
                           fm !! "properties" = Some (JObj p)) [blue_corner]).
  { apply Forall_singleton. eexists _, _. split; reflexivity. }
  split; [reflexivity|]. split; [exact Hlen|].
  destruct (searchLocation_results keyed_platform (js "Blue Corner")
              (js "Blue Corner") (json_body (JObj one_feature)) _
              one_feature [blue_corner]
              eq_refl Hq Hlen eq_refl eq_refl eq_refl eq_refl eq_refl Hall)
    as (rs & Hrun & Hl & Hnth).
  exists rs. split; [exact Hrun|]. split; [exact Hl|].
  destruct (Hnth 0%nat _ _ eq_refl eq_refl) as (r & Hr & _ & _ & _ & Hname).
  exists r. split; [exact Hr|]. exact Hname.
Defined.

Lemma searchLocation_failures_witness :
  key_missing keyed_platform = false /\
  (2 <= length (trim (js "Blue Corner")))%nat /\
  run offline (searchLocation keyed_platform (js "Blue Corner"))
  = (Throw (JsError TypeError (js "Failed to fetch")),
     [autocomplete_request keyed_platform (js "Blue Corner")]).
Proof.
  assert (Hlen : (2 <= length (trim (js "Blue Corner")))%nat)
    by (vm_compute; lia).
  assert (Hq : js "Blue Corner" ≠ []) by discriminate.
  split; [reflexivity|]. split; [exact Hlen|].
  exact (proj1 (proj2 (searchLocation_failures keyed_platform
                         (js "Blue Corner") offline eq_refl Hq Hlen)
                  (js "Blue Corner") eq_refl) _ eq_refl).
Defined.

Lemma features_of_cases data rs :
  features_of data = Ok rs ->
  exists features,
    get_prop data "features" = Ok features /\
    ((truthy features = false /\ rs = []) \/
     (exists l, features = JArr l /\ map_features l = Ok rs)).
Proof.
  unfold features_of. destruct (get_prop data "features") as [features|e];
    cbn; [|done].
  intros H. exists features. split; [done|].
  destruct (truthy features) eqn:Ht.
  - right. destruct features; try done. eauto.
  - left. cbn in H. by injection H as <-.
Qed.

(** X8. Reverse and forward geocoding read a provider body alike:
    whenever the forward mapping of a successful body yields a list of
    candidates, the reverse lookup on that body returns the first of
    them, and [null] when the list is empty. *)
Theorem reverseGeocode_first_candidate P lat lon w resp data rs :
  key_missing P = false ->
  w (reverse_request P lat lon) = Ok resp ->
  ok resp = true -> json resp = Ok data ->
  features_of data = Ok rs ->
  run w (reverseGeocode P lat lon)
  = (Ok (head rs), [reverse_request P lat lon]).
Proof.
  intros Hkey Hw Hok Hjson Hfeat.
  pose proof (reverseGeocode_trace P lat lon w) as Htr.
  pose proof (reverseGeocode_result P lat lon w Hkey) as Hres.
  rewrite Hkey in Htr. rewrite Hw, Hok, Hjson in Hres.
  destruct (run w (reverseGeocode P lat lon)) as [res tr]. simpl in *.
  subst tr. f_equal. rewrite Hres. clear Hres.
  destruct (features_of_cases data rs Hfeat)
    as (features & Hget & [[Hfalsy ->]|(l & -> & Hmap)]).
  - unfold mbind, result_bind. cbv beta iota. rewrite Hget. cbv beta iota.
    by rewrite Hfalsy.
  - unfold mbind, result_bind. cbv beta iota. rewrite Hget. cbv beta iota.
    change (get_prop (JArr l) "length") with (Ok (js_length (length l))).
    cbv beta iota. rewrite is_zero_length.
    destruct l as [|f l]; cbn in Hmap.
    + by injection Hmap as <-.
    + cbn. destruct (of_feature f) as [r|e]; cbn in Hmap; [|done].
      destruct (map_features l); cbn in Hmap; [|done].
      by injection Hmap as <-.
Qed.

Lemma reverseGeocode_first_candidate_witness :
  key_missing keyed_platform = false /\
  (exists rs r, features_of (JObj one_feature) = Ok rs /\
     head rs = Some r /\
     run (json_body (JObj one_feature))
       (reverseGeocode keyed_platform 0%Qc 0%Qc)
     = (Ok (Some r), [reverse_request keyed_platform 0%Qc 0%Qc])).
Proof.
  split; [reflexivity|].
  destruct (features_of (JObj one_feature)) as [rs|e] eqn:E;
    [|vm_compute in E; discriminate].
  pose proof (reverseGeocode_first_candidate keyed_platform 0%Qc 0%Qc
                (json_body (JObj one_feature)) _ (JObj one_feature) rs
                eq_refl eq_refl eq_refl eq_refl E) as H.
  destruct rs as [|r rs]; [vm_compute in E; discriminate|].
  exists (r :: rs), r. split; [reflexivity|]. split; [reflexivity|]. exact H.
Defined.

(** X9. A reverse lookup hands failures on unchanged: a rejected request
    and an unreadable body raise the error they came with, and a
    non-success status raises [Reverse geocoding API error:] followed
    by the status text. *)
Theorem reverseGeocode_failures P lat lon w :
  key_missing P = false ->
  (forall e, w (reverse_request P lat lon) = Throw e ->
     (run w (reverseGeocode P lat lon)).1 = Throw e) /\
  (forall resp, w (reverse_request P lat lon) = Ok resp ->
     (ok resp = false ->
      (run w (reverseGeocode P lat lon)).1
      = Throw (JsError Error (js "Reverse geocoding API error: "
                              ++ statusText resp))) /\
     (forall e, ok resp = true -> json resp = Throw e ->
        (run w (reverseGeocode P lat lon)).1 = Throw e)).
Proof.
  intros Hkey. pose proof (reverseGeocode_result P lat lon w Hkey) as Hres.
  split.
  - intros e He. by rewrite Hres, He.
  - intros resp Hw. rewrite Hw in Hres. split.
    + intros Hok. by rewrite Hres, Hok.
    + intros e Hok Hjson. by rewrite Hres, Hok, Hjson.
Qed.

Lemma reverseGeocode_failures_witness :
  key_missing keyed_platform = false /\
  (run offline (reverseGeocode keyed_platform 0%Qc 0%Qc)).1
  = Throw (JsError TypeError (js "Failed to fetch")).
Proof.
  split; [reflexivity|].
  exact (proj1 (reverseGeocode_failures keyed_platform 0%Qc 0%Qc offline
                  eq_refl) _ eq_refl).
Defined.

(** A [try] around a program whose continuation and handler both just
    return: the result is read off the program's own outcome, and the
    requests are the program's. *)
Lemma run_try_return {A B} (w : request -> result response) (p : prog A)
    (f : A -> B) (h : js_error -> B) :
  run w (try_catch (x ← p; mret (f x)) (fun e => mret (h e)))
  = (Ok (match (run w p).1 with Ok a => f a | Throw e => h e end),
     (run w p).2).
Proof.
  induction p as [[a|e]|req k IH]; cbn; try done.
  change (prog_bind' (fun x => mret (f x)) (k (w req)))
    with (x ← k (w req); mret (f x)).
  rewrite (IH (w req)). by destruct (run w (k (w req))).
Qed.

(** X10. Whatever the coordinates and whatever the network does, the
    click handler hands on a location with exactly the clicked
    coordinates and a non-empty name: the resolved name, [Unknown
    Location] when the lookup finds nothing or an empty name, and the
    coordinates printed with four decimals when the lookup fails. *)
Theorem MapClickHandler_click_settles P toFixed lat lng w :
  exists loc,
    (run w (MapClickHandler_click P toFixed lat lng)).1 = Ok loc /\
    Location.latitude loc = lat /\ Location.longitude loc = lng /\
    truthy (Location.name loc) = true /\
    ((run w (reverseGeocode P lat lng)).1 = Ok None ->
     Location.name loc = JStr (js "Unknown Location") /\
     Location.displayName loc = JUndefined) /\
    (forall r, (run w (reverseGeocode P lat lng)).1 = Ok (Some r) ->
     Location.displayName loc = display_name r /\
     Location.name loc = if truthy (name r) then name r
                         else JStr (js "Unknown Location")) /\
    (forall e, (run w (reverseGeocode P lat lng)).1 = Throw e ->
     Location.name loc
     = JStr (toFixed lat 4%nat ++ js ", " ++ toFixed lng 4%nat)).
Proof.
  unfold MapClickHandler_click. rewrite run_try_return. cbn [fst].
  eexists. split; [reflexivity|].
  destruct (run w (reverseGeocode P lat lng)).1 as [[r|]|e]; cbn.
  - split; [done|]. split; [done|]. split.
    { by destruct (truthy (name r)) eqn:E. }
    split; [done|]. split; [|done]. by intros r' [= <-].
  - repeat split; done.
  - split; [done|]. split; [done|]. split.
    { by destruct (toFixed lat 4%nat). }
    split; [done|]. split; [done|]. by intros e' [= <-].
Qed.

Lemma MapClickHandler_click_settles_witness :
  (run (json_body no_features)
     (reverseGeocode (sample_platform None) 0%Qc 0%Qc)).1
    = Throw key_not_configured /\
  exists loc,
    (run (json_body no_features)
       (MapClickHandler_click (sample_platform None)
          (fun q _ => number_toString (sample_platform None) q)
          0%Qc 0%Qc)).1 = Ok loc /\
    Location.name loc = JStr (js "0, 0").
Proof.
  split; [reflexivity|].
  destruct (MapClickHandler_click_settles (sample_platform None)
              (fun q _ => number_toString (sample_platform None) q)
              0%Qc 0%Qc (json_body no_features))
    as (loc & Hrun & _ & _ & _ & _ & _ & Herr).
  exists loc. split; [exact Hrun|]. exact (Herr _ eq_refl).
Defined.

Lemma searchClubWebsite_trace P clubName w :
  (length (run w (searchClubWebsite P clubName)).2 <= 1)%nat.
Proof.
  unfold searchClubWebsite.
  destruct (str_falsy clubName || _); [cbn; lia|].
  destruct (encodeURIComponent P clubName) as [query|e]; cbn; [|lia].
  destruct (w _) as [resp|e]; cbn; [|lia].
  destruct (ok resp); cbn; [|lia].
  destruct (json resp) as [data|e]; cbn; [|lia].
  destruct (get_prop data "success") as [s|e]; cbn; [|lia].
  destruct (truthy s); cbn; [|lia].
  destruct (get_prop data "url") as [u|e]; cbn; [|lia].
  destruct (truthy u); cbn; lia.
Qed.

Lemma GET_trace P q w : (length (run w (GET P q)).2 <= 1)%nat.
Proof.
  unfold GET. destruct q as [[|c query]|]; [cbn; lia| |cbn; lia].
  destruct (encodeURIComponent P (c :: query)) as [q'|e]; cbn; [|lia].
  destruct (w _) as [resp|e]; cbn; [|lia].
  destruct (ok resp); cbn; [|lia].
  destruct (text resp) as [html|e]; cbn; [|lia].
  destruct (group1 (regex_match result_a_re html)) as [href|]; cbn.
  - destruct (group1 (regex_match uddg_re href)) as [target|]; cbn; [|lia].
    destruct (decodeURIComponent P target); cbn; lia.
  - destruct (group1 (regex_match result_url_re html)); cbn; lia.
Qed.

Lemma searchLocation_trace P query w :
  (length (run w (searchLocation P query)).2 <= 1)%nat.
Proof.
  destruct (key_missing P) eqn:Hkey.
  { unfold searchLocation. rewrite Hkey. cbn. lia. }
  destruct (str_falsy query || (length (trim query) <? 2)%nat) eqn:Hg.
  { unfold searchLocation. rewrite Hkey, Hg. cbn. lia. }
  rewrite (searchLocation_run P query w Hkey Hg).
  destruct (encodeURIComponent P query); cbn; lia.
Qed.

(** X11. None of the network functions repeats a request: whatever the
    input and whatever the environment answers, each of them issues at
    most one [fetch]. *)
Theorem at_most_one_request P w :
  (forall query, (length (run w (searchLocation P query)).2 <= 1)%nat) /\
  (forall lat lon, (length (run w (reverseGeocode P lat lon)).2 <= 1)%nat) /\
  (forall clubName,
     (length (run w (searchClubWebsite P clubName)).2 <= 1)%nat) /\
  (forall q, (length (run w (GET P q)).2 <= 1)%nat).
Proof.
  split; [|split; [|split]].
  - intros query. apply searchLocation_trace.
  - intros lat lon. rewrite reverseGeocode_trace.
    destruct (key_missing P); simpl; lia.
  - intros clubName. apply searchClubWebsite_trace.
  - intros q. apply GET_trace.
Qed.

(* ===================================================================== *)
(** * Further properties of the club website resolver *)
(* ===================================================================== *)

(** Every way the route can answer. *)
Lemma GET_shapes P q w :
  match q with
  | None | Some [] => run w (GET P q) = (Ok bad_request, [])
  | Some query =>
      exists h, (run w (GET P q)).1 = Ok h /\
        ((exists u, h = found u query) \/ h = not_found query \/
         (exists details, h = server_error details))
  end.
Proof.
  unfold GET. destruct q as [[|c query]|]; [done| |done].
  destruct (encodeURIComponent P (c :: query)) as [q'|e]; cbn;
    [|by eauto 6].
  destruct (w _) as [resp|e]; cbn; [|by eauto 6].
  destruct (ok resp); cbn; [|by eauto 6].
  destruct (text resp) as [html|e]; cbn; [|by eauto 6].
  destruct (group1 (regex_match result_a_re html)) as [href|]; cbn.
  - destruct (group1 (regex_match uddg_re href)) as [target|]; cbn;
      [|by eauto 6].
    destruct (decodeURIComponent P target); cbn; by eauto 6.
  - destruct (group1 (regex_match result_url_re html)); cbn; by eauto 6.
Qed.

(** X12. The route never rejects: it always answers, with status 200,
    400, 404 or 500.  It answers 400, without asking the provider,
    exactly when the query parameter is missing or empty, and its body
    carries [success: true] exactly when the status is 200. *)
Theorem GET_answers P q w :
  exists h,
    (run w (GET P q)).1 = Ok h /\
    (http_status h = 200%N \/ http_status h = 400%N \/
     http_status h = 404%N \/ http_status h = 500%N) /\
    (http_status h = 400%N <-> q = None \/ q = Some []) /\
    (http_status h = 200%N <->
     http_body h !! "success" = Some (JBool true)) /\
    (http_status h = 400%N -> (run w (GET P q)).2 = []).
Proof.
  assert (Hbad : forall h, h = bad_request ->
            (http_status h = 200%N \/ http_status h = 400%N \/
             http_status h = 404%N \/ http_status h = 500%N) /\
            http_status h = 400%N /\
            (http_status h = 200%N <->
             http_body h !! "success" = Some (JBool true))).
  { intros h ->. split; [tauto|]. split; [done|]. split; [done|].
    by vm_compute. }
  assert (Hother : forall h query,
            (exists u, h = found u query) \/ h = not_found query \/
            (exists details, h = server_error details) ->
            (http_status h = 200%N \/ http_status h = 400%N \/
             http_status h = 404%N \/ http_status h = 500%N) /\
            http_status h ≠ 400%N /\
            (http_status h = 200%N <->
             http_body h !! "success" = Some (JBool true))).
  { intros h query [[u ->]|[->|[details ->]]].
    - split; [by left|]. split; [done|]. split; [by intros _|done].
    - split; [tauto|]. split; [done|]. split; [done|by vm_compute].
    - split; [tauto|]. split; [done|]. split; [done|by vm_compute]. }
  pose proof (GET_shapes P q w) as H.
  destruct q as [[|c query]|].
  - rewrite H. exists bad_request. destruct (Hbad _ eq_refl) as (H1 & H2 & H3).
    split; [done|]. split; [exact H1|]. split; [tauto|]. by split.
  - destruct H as (h & Hrun & Hshape). exists h. split; [exact Hrun|].
    destruct (Hother h _ Hshape) as (H1 & H2 & H3).
    split; [exact H1|]. split; [|by split].
    split; [done|]. by intros [|].
  - rewrite H. exists bad_request. destruct (Hbad _ eq_refl) as (H1 & H2 & H3).
    split; [done|]. split; [exact H1|]. split; [tauto|]. by split.
Qed.

(** X13. How the route reports a provider it cannot use: a rejected
    request gives status 500 with the error's message as details, a
    non-success status gives 500 with [DuckDuckGo returned status]
    followed by the status code, a wrapped link whose target cannot be
    decoded gives 500 with the decoder's message, and a page on which
    neither pattern matches gives 404 with the query echoed. *)
Theorem GET_failures P query q' w :
  query ≠ [] ->
  encodeURIComponent P query = Ok q' ->
  (forall e, w (search_request q') = Throw e ->
     (run w (GET P (Some query))).1 = Ok (server_error (error_message e))) /\
  (forall resp, w (search_request q') = Ok resp ->
     (ok resp = false ->
      (run w (GET P (Some query))).1
      = Ok (server_error (js "DuckDuckGo returned status "
                          ++ js (pretty (status resp))))) /\
     (forall html, ok resp = true -> text resp = Ok html ->
        (group1 (regex_match result_a_re html) = None ->
         group1 (regex_match result_url_re html) = None ->
         (run w (GET P (Some query))).1 = Ok (not_found query)) /\
        (forall href target e,
           group1 (regex_match result_a_re html) = Some href ->
           group1 (regex_match uddg_re href) = Some target ->
           decodeURIComponent P target = Throw e ->
           (run w (GET P (Some query))).1
           = Ok (server_error (error_message e))))).
Proof.
  intros Hq Henc. split.
  - intros e He. unfold GET. destruct query as [|c qs]; [done|].
    cbn. rewrite Henc. cbn. fold (search_request q'). rewrite He. done.
  - intros resp Hw. split.
    + intros Hok. unfold GET. destruct query as [|c qs]; [done|].
      cbn. rewrite Henc. cbn. fold (search_request q'). rewrite Hw. cbn.
      rewrite Hok. done.
    + intros html Hok Htext.
      pose proof (GET_page P query q' w resp html Hq Henc Hw Hok Htext)
        as Hpage.
      split.
      * intros Ha Hu. by rewrite Ha, Hu in Hpage.
      * intros href target e Ha Hu Hd. by rewrite Ha, Hu, Hd in Hpage.
Qed.

Lemma GET_failures_witness :
  js "club" ≠ [] /\
  encodeURIComponent (sample_platform None) (js "club") = Ok (js "club") /\
  (run (refusing 429) (GET (sample_platform None) (Some (js "club")))).1
  = Ok (server_error (js "DuckDuckGo returned status 429")).
Proof.
  assert (Hq : js "club" ≠ []) by discriminate.
  split; [exact Hq|]. split; [reflexivity|].
  exact (proj1 (proj2 (GET_failures (sample_platform None) (js "club")
                         (js "club") (refusing 429) Hq eq_refl)
                  _ eq_refl) eq_refl).
Defined.

Lemma not_blank clubName :
  clubName ≠ [] -> trim clubName ≠ [] ->
  str_falsy clubName || (length (trim clubName) =? 0)%nat = false.
Proof.
  intros H1 H2. destruct clubName; [done|]. simpl.
  by destruct (trim _).
Qed.

(** What the client settles with for a name that passes its guard and
    that the encoder accepts. *)
Lemma searchClubWebsite_result P clubName query w :
  clubName ≠ [] -> trim clubName ≠ [] ->
  encodeURIComponent P clubName = Ok query ->
  (run w (searchClubWebsite P clubName)).1
  = Ok (match w (club_request query) with
        | Throw _ => None
        | Ok resp =>
            if ok resp then
              match json resp with
              | Throw _ => None
              | Ok data =>
                  match get_prop data "success" with
                  | Throw _ => None
                  | Ok s =>
                      if truthy s then
                        match get_prop data "url" with
                        | Throw _ => None
                        | Ok u =>
                            if truthy u
                            then Some {| url := u; title := clubName |}
                            else None
                        end
                      else None
                  end
              end
            else None
        end).
Proof.
  intros H1 H2 Henc. unfold searchClubWebsite.
  rewrite (not_blank _ H1 H2), Henc. cbn. fold (club_request query).
  destruct (w (club_request query)) as [resp|e]; cbn; [|done].
  destruct (ok resp); cbn; [|done].
  destruct (json resp) as [data|e]; cbn; [|done].
  destruct (get_prop data "success") as [s|e]; cbn; [|done].
  destruct (truthy s); cbn; [|done].
  destruct (get_prop data "url") as [u|e]; cbn; [|done].
  by destruct (truthy u).
Qed.

(** X14. The client never raises an error: for every club name and
    every behaviour of the network it settles with a result or with
    [null].  It settles with a result exactly when the name is not
    blank, the encoder accepts it, and the request is answered with a
    success status and a JSON body whose [success] and [url] are both
    truthy; the result then carries that [url] and, as title, the club
    name as it was typed.  In every other case (a blank name, a name the
    encoder rejects, a rejected request, an error status, an unreadable
    body, a body without a URL) it settles with [null]. *)
Theorem searchClubWebsite_some_iff P clubName w :
  exists o,
    (run w (searchClubWebsite P clubName)).1 = Ok o /\
    forall s,
      o = Some s <->
      clubName ≠ [] /\ trim clubName ≠ [] /\
      exists query resp data sv u,
        encodeURIComponent P clubName = Ok query /\
        w (club_request query) = Ok resp /\ ok resp = true /\
        json resp = Ok data /\
        get_prop data "success" = Ok sv /\ truthy sv = true /\
        get_prop data "url" = Ok u /\ truthy u = true /\
        s = {| url := u; title := clubName |}.
Proof.
  destruct (str_falsy clubName || (length (trim clubName) =? 0)%nat)
    eqn:Eguard.
  { exists None. split.
    - unfold searchClubWebsite. by rewrite Eguard.
    - intros s. split; [done|]. intros (H1 & H2 & _).
      by rewrite (not_blank _ H1 H2) in Eguard. }
  apply orb_false_iff in Eguard as [Hne Hlen].
  assert (H1 : clubName ≠ []) by (by destruct clubName).
  assert (H2 : trim clubName ≠ []).
  { intros Hnil. by rewrite Hnil in Hlen. }
  destruct (encodeURIComponent P clubName) as [query|e] eqn:Henc.
  - eexists. split; [by apply searchClubWebsite_result|].
    intros s. split.
    + intros Hs. split; [done|]. split; [done|]. exists query. revert Hs.
      destruct (w (club_request query)) as [resp|e] eqn:Hw; [|done].
      destruct (ok resp) eqn:Hok; [|done].
      destruct (json resp) as [data|e] eqn:Hjson; [|done].
      destruct (get_prop data "success") as [sv|e] eqn:Hs; [|done].
      destruct (truthy sv) eqn:Hsv; [|done].
      destruct (get_prop data "url") as [u|e] eqn:Hgu; [|done].
      destruct (truthy u) eqn:Hu; [|done].
      intros [= <-]. by exists resp, data, sv, u.
    + intros (_ & _ & query' & resp & data & sv & u & [= <-] & -> & -> & ->
              & -> & -> & -> & -> & ->).
      done.
  - exists None. split.
    + unfold searchClubWebsite. rewrite (not_blank _ H1 H2), Henc. done.
    + intros s. split; [done|].
      by intros (_ & _ & query & resp & data & sv & u & [=] & _).
Qed.

(** X15. Route and client together: whatever the route answers, the
    client turns an answer with status 200 and a non-empty URL into a
    result with that URL, and every other answer (400, 404, 500, or an
    empty URL) into [null]. *)
Theorem club_website_end_to_end P q w P' clubName query h :
  clubName ≠ [] -> trim clubName ≠ [] ->
  encodeURIComponent P' clubName = Ok query ->
  (run w (GET P q)).1 = Ok h ->
  (run (served h) (searchClubWebsite P' clubName)).1
  = Ok (if decide (http_status h = 200%N) then
          match http_body h !! "url" with
          | Some (JStr (c :: u)) =>
              Some {| url := JStr (c :: u); title := clubName |}
          | _ => None
          end
        else None).
Proof.
  intros H1 H2 Henc Hrun.
  rewrite (searchClubWebsite_result P' clubName query _ H1 H2 Henc).
  f_equal. pose proof (GET_shapes P q w) as Hshape.
  assert (Hcases : (exists u query0, h = found u query0) \/ h = bad_request \/
                   (exists query0, h = not_found query0) \/
                   (exists details, h = server_error details)).
  { destruct q as [[|c query0]|].
    - rewrite Hshape in Hrun. injection Hrun as <-. tauto.
    - destruct Hshape as (h' & Hrun' & Hs). rewrite Hrun in Hrun'.
      injection Hrun' as <-. destruct Hs as [[u ->]|[->|[d ->]]]; eauto 7.
    - rewrite Hshape in Hrun. injection Hrun as <-. tauto. }
  destruct Hcases as [(u & query0 & ->)|[->|[(query0 & ->)|(d & ->)]]];
    try done.
  destruct u as [|c u]; by vm_compute.
Qed.

Lemma club_website_end_to_end_witness :
  js "club" ≠ [] /\ trim (js "club") ≠ [] /\
  (run (page wrapped_page) (GET (sample_platform None) (Some (js "club")))).1
    = Ok (found (js "https://x.org") (js "club")) /\
  (run (served (found (js "https://x.org") (js "club")))
     (searchClubWebsite (sample_platform None) (js "club"))).1
  = Ok (Some {| url := JStr (js "https://x.org"); title := js "club" |}).
Proof.
  assert (H1 : js "club" ≠ []) by discriminate.
  assert (H2 : trim (js "club") ≠ []) by (vm_compute; discriminate).
  assert (H3 : (run (page wrapped_page)
                  (GET (sample_platform None) (Some (js "club")))).1
               = Ok (found (js "https://x.org") (js "club")))
    by (vm_compute; reflexivity).
  split; [exact H1|]. split; [exact H2|]. split; [exact H3|].
  exact (club_website_end_to_end (sample_platform None) (Some (js "club"))
           (page wrapped_page) (sample_platform None) (js "club") (js "club")
           _ H1 H2 eq_refl H3).
Defined.

(** ** [formatUrl] *)

Lemma trimStart_head s :
  trimStart s = [] \/
  exists c r, trimStart s = c :: r /\ is_whitespace c = false.
Proof.
  induction s as [|c s IH]; [by left|]. simpl.
  destruct (is_whitespace c) eqn:E; [exact IH|]. right. eauto.
Qed.

Lemma trimStart_keeps c r :
  is_whitespace c = false -> trimStart (c :: r) = c :: r.
Proof. intros H. simpl. by rewrite H. Qed.

Lemma trimStart_suffix s : exists pre, s = pre ++ trimStart s.
Proof.
  induction s as [|c s [pre IH]]; [by exists []|]. simpl.
  destruct (is_whitespace c).
  - exists (c :: pre). simpl. by rewrite <- IH.
  - by exists [].
Qed.

(** A string with no white space at either end. *)
Lemma trim_keeps s :
  (forall c r, s = c :: r -> is_whitespace c = false) ->
  (forall c r, rev s = c :: r -> is_whitespace c = false) ->
  trim s = s.
Proof.
  intros Hfirst Hlast. unfold trim, trimEnd.
  assert (trimStart s = s) as ->.
  { destruct s as [|c r]; [done|]. apply trimStart_keeps. by eapply Hfirst. }
  assert (trimStart (rev s) = rev s) as ->.
  { destruct (rev s) as [|c r] eqn:E; [done|].
    apply trimStart_keeps. by eapply Hlast. }
  apply rev_involutive.
Qed.

Lemma trim_ends s :
  (forall c r, trim s = c :: r -> is_whitespace c = false) /\
  (forall c r, rev (trim s) = c :: r -> is_whitespace c = false).
Proof.
  unfold trim, trimEnd. set (t := trimStart s).
  destruct (trimStart_suffix (rev t)) as [pre Hpre].
  set (t' := trimStart (rev t)) in *. split.
  - intros c r Hc.
    assert (Ht : t = rev t' ++ rev pre).
    { rewrite <- rev_app_distr, <- Hpre. by rewrite rev_involutive. }
    destruct (trimStart_head s) as [Hnil|(c0 & r0 & Hs & Hws)]; fold t in Hnil || fold t in Hs.
    + rewrite Hnil in Ht. symmetry in Ht. apply app_eq_nil in Ht as [Ht _].
      rewrite Ht in Hc. discriminate.
    + rewrite Hs, Hc in Ht. simpl in Ht. injection Ht as -> _. exact Hws.
  - intros c r Hc. rewrite rev_involutive in Hc.
    destruct (trimStart_head (rev t)) as [Hnil|(c0 & r0 & Hs & Hws)].
    + fold t' in Hnil. rewrite Hnil in Hc. discriminate.
    + fold t' in Hs. rewrite Hs in Hc. injection Hc as <- _. exact Hws.
Qed.

Lemma trim_idempotent s : trim (trim s) = trim s.
Proof. destruct (trim_ends s). by apply trim_keeps. Qed.

Lemma trim_prefixed pre s :
  (forall c r, pre = c :: r -> is_whitespace c = false) ->
  (forall c r, rev pre = c :: r -> is_whitespace c = false) ->
  pre ≠ [] ->
  trim (pre ++ trim s) = pre ++ trim s.
Proof.
  intros Hfirst Hlast Hne. destruct (trim_ends s) as [_ Hend].
  apply trim_keeps.
  - intros c r Hc. destruct pre as [|c0 pre]; [done|].
    simpl in Hc. injection Hc as <- _. by eapply Hfirst.
  - intros c r Hc. rewrite rev_app_distr in Hc.
    destruct (rev (trim s)) as [|c1 r1] eqn:E.
    + simpl in Hc. by eapply Hlast.
    + simpl in Hc. injection Hc as <- _. by eapply Hend.
Qed.

(** X16. [formatUrl] settles in one step: formatting a formatted URL
    changes nothing.  The empty string stays empty, and it is the only
    input with an empty result: a string of white space alone becomes
    the bare scheme [https://]. *)
Theorem formatUrl_idempotent u :
  formatUrl (formatUrl u) = formatUrl u /\
  (formatUrl u = [] <-> u = []) /\
  (u ≠ [] -> Forall (fun c => is_whitespace c = true) u ->
   formatUrl u = js "https://").
Proof.
  split; [|split].
  - unfold formatUrl at 2. destruct u as [|c u]; [done|]. cbn [str_falsy].
    set (t := trim (c :: u)).
    destruct (startsWith (js "http://") t || startsWith (js "https://") t)
      eqn:E.
    + unfold formatUrl.
      assert (str_falsy t = false) as ->.
      { destruct t; [by vm_compute in E | done]. }
      cbv zeta. unfold t at 1 2 3. rewrite trim_idempotent. fold t.
      by rewrite E.
    + unfold formatUrl.
      assert (Htrim : trim (js "https://" ++ t) = js "https://" ++ t).
      { apply trim_prefixed; [| |done].
        - intros c0 r [= <- _]. by vm_compute.
        - intros c0 r [= <- _]. by vm_compute. }
      change (str_falsy (js "https://" ++ t)) with false. cbv iota zeta.
      rewrite Htrim, startsWith_app, orb_true_r.
      cbn [str_falsy]. fold t. by rewrite E.
  - split; [|by intros ->]. unfold formatUrl.
    destruct u as [|c u]; [done|]. cbn [str_falsy].
    destruct (startsWith (js "http://") (trim (c :: u))
              || startsWith (js "https://") (trim (c :: u))) eqn:E.
    + intros Hnil. rewrite Hnil in E. by vm_compute in E.
    + intros Hnil. by vm_compute in Hnil.
  - intros Hne Hblank. unfold formatUrl. destruct u as [|c u]; [done|].
    cbn [str_falsy]. rewrite (trim_blank _ Hblank). by vm_compute.
Qed.

Lemma formatUrl_idempotent_witness :
  js "  " ≠ [] /\ Forall (fun c => is_whitespace c = true) (js "  ") /\
  formatUrl (js "  ") = js "https://" /\
  formatUrl (formatUrl (js " example.com ")) = formatUrl (js " example.com ").
Proof.
  assert (H1 : js "  " ≠ []) by discriminate.
  assert (H2 : Forall (fun c => is_whitespace c = true) (js "  "))
    by (repeat constructor).
  split; [exact H1|]. split; [exact H2|]. split.
  - exact (proj2 (proj2 (formatUrl_idempotent (js "  "))) H1 H2).
  - exact (proj1 (formatUrl_idempotent (js " example.com "))).
Defined.

(* ===================================================================== *)
(** * The camelCase [dives] table *)
(* ===================================================================== *)

Section rows_by_id.
Context {A : Type}.
Implicit Types (l : list (N * A)) (i j : N).

Lemma find_row l r :
  NoDup l.*1 -> r ∈ l ->
  (fun x : nat * (N * A) => x.2.2) <$> list_find (fun r' => r'.1 = r.1) l
  = Some r.2.
Proof.
  induction l as [|a l IH]; intros Hnd Hin; [by apply elem_of_nil in Hin|].
  rewrite fmap_cons in Hnd. apply NoDup_cons in Hnd as [Hna Hnd].
  simpl. destruct (decide (a.1 = r.1)) as [Heq|Hne].
  - simpl. apply elem_of_cons in Hin as [->|Hin]; [done|].
    contradiction Hna. rewrite Heq. apply list_elem_of_fmap. by exists r.
  - apply elem_of_cons in Hin as [->|Hin]; [done|].
    specialize (IH Hnd Hin).
    destruct (list_find _ l) as [[? ?]|]; simpl in *; congruence.
Qed.

Lemma find_none l i :
  i ∉ l.*1 ->
  (fun x : nat * (N * A) => x.2.2) <$> list_find (fun r' => r'.1 = i) l
  = None.
Proof.
  intros Hi. destruct (list_find _ l) as [[k r]|] eqn:E; [|done].
  apply list_find_Some in E as (Hl & Heq & _). contradiction Hi.
  rewrite <- Heq. apply list_elem_of_fmap. exists r. split; [done|].
  by eapply list_elem_of_lookup_2.
Qed.

Lemma find_some_elem l i a :
  (fun x : nat * (N * A) => x.2.2) <$> list_find (fun r' => r'.1 = i) l
  = Some a -> (i, a) ∈ l.
Proof.
  destruct (list_find _ l) as [[k r]|] eqn:E; [|done].
  apply list_find_Some in E as (Hl & Heq & _). simpl. intros [= <-].
  destruct r as [i' a']. simpl in Heq. subst i'.
  by eapply list_elem_of_lookup_2.
Qed.

Lemma find_app_other l i r :
  r.1 ≠ i ->
  (fun x : nat * (N * A) => x.2.2)
    <$> list_find (fun r' => r'.1 = i) (l ++ [r])
  = (fun x : nat * (N * A) => x.2.2) <$> list_find (fun r' => r'.1 = i) l.
Proof.
  intros Hne. induction l as [|a l IH]; simpl.
  - by rewrite decide_False.
  - destruct (decide (a.1 = i)); [done|].
    destruct (list_find _ (l ++ _)) as [[? ?]|],
      (list_find _ l) as [[? ?]|]; simpl in *; congruence.
Qed.

Lemma find_fmap_other l i j (f : A -> A) :
  i ≠ j ->
  (fun x : nat * (N * A) => x.2.2)
    <$> list_find (fun r' => r'.1 = i)
          ((fun r => if decide (r.1 = j) then (r.1, f r.2) else r) <$> l)
  = (fun x : nat * (N * A) => x.2.2) <$> list_find (fun r' => r'.1 = i) l.
Proof.
  intros Hne. induction l as [|a l IH]; [done|].
  rewrite fmap_cons. simpl.
  destruct (decide (a.1 = j)) as [Hj|Hj]; simpl.
  - rewrite decide_False by congruence.
    rewrite (decide_False (P := a.1 = i)) by congruence.
    destruct (list_find _ (_ <$> l)) as [[? ?]|],
      (list_find _ l) as [[? ?]|]; simpl in *; congruence.
  - destruct (decide (a.1 = i)); [done|].
    destruct (list_find _ (_ <$> l)) as [[? ?]|],
      (list_find _ l) as [[? ?]|]; simpl in *; congruence.
Qed.

Lemma find_filter_other l i j :
  i ≠ j ->
  (fun x : nat * (N * A) => x.2.2)
    <$> list_find (fun r' => r'.1 = i) (filter (fun r => r.1 ≠ j) l)
  = (fun x : nat * (N * A) => x.2.2) <$> list_find (fun r' => r'.1 = i) l.
Proof.
  intros Hne. induction l as [|a l IH]; [done|].
  rewrite filter_cons. simpl.
  destruct (decide (a.1 ≠ j)) as [Hj|Hj]; simpl.
  - destruct (decide (a.1 = i)); [done|].
    destruct (list_find _ (filter _ l)) as [[? ?]|],
      (list_find _ l) as [[? ?]|]; simpl in *; congruence.
  - rewrite decide_False by (intros <-; by apply Hj).
    destruct (list_find _ (filter _ l)) as [[? ?]|],
      (list_find _ l) as [[? ?]|]; simpl in *; congruence.
Qed.

End rows_by_id.

Lemma by_userId_snoc u l d :
  by_userId u (l ++ [d])
  = by_userId u l ++ (if decide (Dive.userId d = u) then [d] else []).
Proof.
  unfold by_userId. by rewrite filter_app.
Qed.

Lemma getDiveStats_snoc u l d :
  Dive.userId d = u ->
  totalDives (getDiveStats u (l ++ [d])) = S (totalDives (getDiveStats u l)) /\
  totalTime (getDiveStats u (l ++ [d]))
    = js_add (totalTime (getDiveStats u l)) (Dive.duration d) /\
  maxDepth (getDiveStats u (l ++ [d]))
    = if decide (totalDives (getDiveStats u l) = 0%nat) then Dive.maxDepth d
      else max2 (maxDepth (getDiveStats u l)) (Dive.maxDepth d).
Proof.
  intros Hu. unfold getDiveStats. rewrite by_userId_snoc, decide_True by done.
  destruct (by_userId u l) as [|x xs].
  - cbn. split; [done|]. split; [done|]. by destruct (Dive.maxDepth d) as [|[]|].
  - change ((x :: xs) ++ [d]) with (x :: (xs ++ [d])).
    cbn [totalDives totalTime maxDepth]. rewrite decide_False by done.
    split; [cbn; by rewrite length_app, Nat.add_1_r|]. split.
    + change (x :: xs ++ [d]) with ((x :: xs) ++ [d]).
      by rewrite fold_left_app.
    + change (x :: xs ++ [d]) with ((x :: xs) ++ [d]).
      unfold Math_max. by rewrite fmap_app, fold_left_app.
Qed.

Lemma createDive_wf now1 now2 args t :
  wf_dive_table t -> wf_dive_table (createDive now1 now2 args t).2.
Proof.
  intros [Hnd Hlt]. unfold wf_dive_table, createDive. simpl.
  rewrite fmap_app. simpl. rewrite Forall_forall in Hlt. split.
  - apply NoDup_app. split; [done|]. split; [|apply NoDup_singleton].
    intros i Hi ->%list_elem_of_singleton. specialize (Hlt _ Hi). lia.
  - apply Forall_app. split.
    + apply Forall_forall. intros i Hi. specialize (Hlt _ Hi). lia.
    + apply Forall_singleton. lia.
Qed.

(** X17. [createDive] always adds exactly one document, under an
    identifier no document had, stamped with the two clock readings.  It
    is appended to its owner's list and leaves every other owner's list
    and statistics as they were; the owner's statistics then count one
    more dive, their total time is the old total plus the new duration
    in double-precision arithmetic, and their maximum depth is what
    [Math.max] makes of the old maximum and the new depth (the new depth
    alone for a first dive). *)
Theorem createDive_effect now1 now2 args t :
  wf_dive_table t ->
  exists d,
    dive_get (createDive now1 now2 args t).1 t = None /\
    dive_get (createDive now1 now2 args t).1 (createDive now1 now2 args t).2
      = Some d /\
    Dive.loggedAt d = Qc_of_Z now1 /\ Dive.updatedAt d = Qc_of_Z now2 /\
    wf_dive_table (createDive now1 now2 args t).2 /\
    getDives (NewDive.userId args) (createDive now1 now2 args t).2
      = getDives (NewDive.userId args) t
        ++ [((createDive now1 now2 args t).1, d)] /\
    (forall u, u ≠ NewDive.userId args ->
       getDives u (createDive now1 now2 args t).2 = getDives u t /\
       getDiveStats u (dive_rows (createDive now1 now2 args t).2).*2
       = getDiveStats u (dive_rows t).*2) /\
    totalDives (getDiveStats (NewDive.userId args)
                  (dive_rows (createDive now1 now2 args t).2).*2)
      = S (totalDives (getDiveStats (NewDive.userId args) (dive_rows t).*2)) /\
    totalTime (getDiveStats (NewDive.userId args)
                 (dive_rows (createDive now1 now2 args t).2).*2)
      = js_add (totalTime (getDiveStats (NewDive.userId args)
                             (dive_rows t).*2))
          (NewDive.duration args) /\
    maxDepth (getDiveStats (NewDive.userId args)
                (dive_rows (createDive now1 now2 args t).2).*2)
      = if decide (totalDives (getDiveStats (NewDive.userId args)
                                 (dive_rows t).*2) = 0%nat)
        then NewDive.maxDepth args
        else max2 (maxDepth (getDiveStats (NewDive.userId args)
                               (dive_rows t).*2))
               (NewDive.maxDepth args).
Proof.
  intros [Hnd Hlt]. unfold createDive. cbn [fst snd dive_rows].
  eexists. split.
  { unfold dive_get. apply find_none. intros Hin.
    rewrite Forall_forall in Hlt. specialize (Hlt _ Hin). lia. }
  assert (Hwf' : forall d, wf_dive_table
            {| dive_rows := dive_rows t ++ [(dive_next t, d)];
               dive_next := N.succ (dive_next t) |}).
  { intros d. unfold wf_dive_table. simpl. rewrite fmap_app. simpl.
    rewrite Forall_forall in Hlt. split.
    - apply NoDup_app. split; [done|]. split; [|apply NoDup_singleton].
      intros i Hi ->%list_elem_of_singleton. specialize (Hlt _ Hi). lia.
    - apply Forall_app. split.
      + apply Forall_forall. intros i Hi. specialize (Hlt _ Hi). lia.
      + apply Forall_singleton. lia. }
  split.
  { unfold dive_get.
    match goal with |- _ = Some ?d =>
      apply (find_row (dive_rows t ++ [(dive_next t, d)]) (dive_next t, d))
    end.
    - apply (Hwf' _).
    - apply elem_of_app. right. left. }
  split; [done|]. split; [done|]. split; [apply Hwf'|]. split.
  { unfold getDives. cbn [dive_rows]. rewrite filter_app. f_equal.
    rewrite filter_cons, decide_True by done. done. }
  split.
  { intros u Hu. split.
    - unfold getDives. cbn [dive_rows]. rewrite filter_app.
      rewrite filter_cons, decide_False by (simpl; congruence).
      by rewrite app_nil_r.
    - rewrite fmap_app, fmap_cons, fmap_nil. cbn [snd]. unfold getDiveStats.
      rewrite by_userId_snoc, decide_False by (simpl; congruence).
      by rewrite app_nil_r. }
  rewrite fmap_app, fmap_cons, fmap_nil. cbn [snd].
  match goal with |- context [(dive_rows t).*2 ++ [?d]] =>
    destruct (getDiveStats_snoc (NewDive.userId args) (dive_rows t).*2 d
                eq_refl) as (H1 & H2 & H3)
  end.
  split; [exact H1|]. split; [exact H2|exact H3].
Qed.

Lemma wf_no_dives : wf_dive_table no_dives.
Proof. split; [apply NoDup_nil_2 | apply Forall_nil_2]. Defined.

Lemma createDive_effect_witness :
  wf_dive_table no_dives /\
  exists d,
    dive_get 0 (createDive 5 6 (new_dive "u1" 45 18) no_dives).2 = Some d /\
    Dive.loggedAt d = Qc_of_Z 5 /\ Dive.updatedAt d = Qc_of_Z 6 /\
    totalDives (getDiveStats (js "u1")
                  (dive_rows (createDive 5 6 (new_dive "u1" 45 18)
                                no_dives).2).*2) = 1%nat /\
    maxDepth (getDiveStats (js "u1")
                (dive_rows (createDive 5 6 (new_dive "u1" 45 18)
                              no_dives).2).*2) = Fin (Qc_of_Z 18).
Proof.
  split; [exact wf_no_dives|].
  destruct (createDive_effect 5 6 (new_dive "u1" 45 18) no_dives wf_no_dives)
    as (d & _ & Hget & Hl & Hu & _ & _ & _ & Hcount & _ & Hmax).
  exists d. split; [exact Hget|]. split; [exact Hl|]. split; [exact Hu|].
  split; [exact Hcount|]. exact Hmax.
Defined.

Lemma by_userId_rows u (l : list (N * Dive.t)) :
  by_userId u l.*2 = (filter (fun r => Dive.userId r.2 = u) l).*2.
Proof.
  unfold by_userId. induction l as [|a l IH]; [done|].
  rewrite fmap_cons, !filter_cons. simpl.
  case_decide; simpl; by rewrite IH.
Qed.

Lemma totalDives_length u l :
  totalDives (getDiveStats u l) = length (by_userId u l).
Proof. unfold getDiveStats. by destruct (by_userId u l). Qed.

(** X18. [updateDive] rejects an unknown identifier and changes nothing
    then.  Otherwise it rewrites that one document: [updatedAt] becomes
    the current time while the owner and [loggedAt] stay, so every
    owner's list keeps the same identifiers in the same order and every
    dive count stays; no other document is touched. *)
Theorem updateDive_effect now diveId updates t :
  wf_dive_table t ->
  (dive_get diveId t = None ->
   updateDive now diveId updates t = (Throw (DocumentNotFound diveId), t)) /\
  (forall d, dive_get diveId t = Some d ->
     (updateDive now diveId updates t).1 = Ok tt /\
     dive_get diveId (updateDive now diveId updates t).2
       = Some (patch_dive now updates d) /\
     Dive.userId (patch_dive now updates d) = Dive.userId d /\
     Dive.loggedAt (patch_dive now updates d) = Dive.loggedAt d /\
     Dive.updatedAt (patch_dive now updates d) = Qc_of_Z now /\
     (forall i, i ≠ diveId ->
        dive_get i (updateDive now diveId updates t).2 = dive_get i t) /\
     (forall u,
        (getDives u (updateDive now diveId updates t).2).*1
        = (getDives u t).*1 /\
        totalDives (getDiveStats u
                      (dive_rows (updateDive now diveId updates t).2).*2)
        = totalDives (getDiveStats u (dive_rows t).*2))).
Proof.
  intros [Hnd Hlt]. split.
  { intros Hnone. unfold updateDive. by rewrite Hnone. }
  intros d Hget. unfold updateDive. rewrite Hget. cbn [fst snd dive_rows].
  set (f := fun r : N * Dive.t =>
              if decide (r.1 = diveId)
              then (r.1, patch_dive now updates r.2) else r).
  assert (Hfst : (f <$> dive_rows t).*1 = (dive_rows t).*1).
  { rewrite <- list_fmap_compose. apply list_fmap_ext. intros _ r _.
    unfold f. simpl. by case_decide. }
  assert (Hfilter : forall u,
    filter (fun r => Dive.userId r.2 = u) (f <$> dive_rows t)
    = f <$> filter (fun r => Dive.userId r.2 = u) (dive_rows t)).
  { intros u. apply filter_fmap_stable. intros r _. unfold f.
    by case_decide. }
  assert (Hfst' : forall l : list (N * Dive.t), (f <$> l).*1 = l.*1).
  { intros l. rewrite <- list_fmap_compose. apply list_fmap_ext.
    intros _ r _. unfold f. simpl. by case_decide. }
  split; [done|]. split.
  { unfold dive_get. cbn [dive_rows].
    apply find_some_elem in Hget.
    apply (find_row (f <$> dive_rows t) (diveId, patch_dive now updates d)).
    - by rewrite Hfst.
    - apply list_elem_of_fmap. exists (diveId, d). split; [|done].
      unfold f. simpl. by rewrite decide_True. }
  split; [done|]. split; [done|]. split; [done|]. split.
  { intros i Hi. unfold dive_get. cbn [dive_rows].
    by apply find_fmap_other. }
  intros u. split.
  - unfold getDives. cbn [dive_rows]. by rewrite Hfilter, Hfst'.
  - rewrite !totalDives_length, !by_userId_rows, !length_fmap.
    by rewrite Hfilter, length_fmap.
Qed.

Lemma updateDive_effect_witness :
  wf_dive_table two_dives /\
  (exists d, dive_get 1 two_dives = Some d /\
     (updateDive 9 1 (notes_only "drift dive") two_dives).1 = Ok tt /\
     Dive.notes <$> dive_get 1 (updateDive 9 1 (notes_only "drift dive")
                                  two_dives).2
       = Some (Some (js "drift dive")) /\
     dive_get 0 (updateDive 9 1 (notes_only "drift dive") two_dives).2
       = dive_get 0 two_dives) /\
  updateDive 9 4 (notes_only "drift dive") two_dives
    = (Throw (DocumentNotFound 4), two_dives).
Proof.
  assert (Hwf : wf_dive_table two_dives).
  { apply createDive_wf, createDive_wf, wf_no_dives. }
  destruct (updateDive_effect 9 1 (notes_only "drift dive") two_dives Hwf)
    as [_ Hsome].
  destruct (updateDive_effect 9 4 (notes_only "drift dive") two_dives Hwf)
    as [Hnone _].
  split; [exact Hwf|]. split.
  - destruct (dive_get 1 two_dives) as [d|] eqn:E;
      [|vm_compute in E; discriminate].
    destruct (Hsome d eq_refl) as (H1 & H2 & _ & _ & _ & H6 & _).
    exists d. split; [reflexivity|]. split; [exact H1|]. split.
    + rewrite H2. simpl. vm_compute in E. injection E as <-. reflexivity.
    + apply H6. discriminate.
  - apply Hnone. reflexivity.
Defined.

Lemma filter_ext_in {A} (P Q : A -> Prop) `{!forall x, Decision (P x)}
    `{!forall x, Decision (Q x)} (l : list A) :
  (forall x, x ∈ l -> P x <-> Q x) -> filter P l = filter Q l.
Proof.
  induction l as [|a l IH]; intros Hext; [done|].
  rewrite !filter_cons, IH by (intros x Hx; apply Hext; by right).
  pose proof (Hext a (list_elem_of_here _ _)).
  destruct (decide (P a)), (decide (Q a)); try done; tauto.
Qed.

Lemma filter_all {A} (P : A -> Prop) `{!forall x, Decision (P x)}
    (l : list A) :
  (forall x, x ∈ l -> P x) -> filter P l = l.
Proof.
  induction l as [|a l IH]; intros Hall; [done|].
  rewrite filter_cons, decide_True by (apply Hall; left).
  f_equal. apply IH. intros x Hx. apply Hall. by right.
Qed.

Lemma filter_drop_one {A} (P : N * A -> Prop) `{!forall x, Decision (P x)}
    (l : list (N * A)) r :
  NoDup l.*1 -> r ∈ l -> P r ->
  S (length (filter P (filter (fun r' => r'.1 ≠ r.1) l)))
  = length (filter P l).
Proof.
  induction l as [|a l IH]; intros Hnd Hin HP; [by apply elem_of_nil in Hin|].
  rewrite fmap_cons in Hnd. apply NoDup_cons in Hnd as [Hna Hnd].
  apply elem_of_cons in Hin as [->|Hin].
  - rewrite filter_cons, decide_False by (intros Hx; by apply Hx).
    rewrite (filter_cons P), decide_True by done. simpl. f_equal. f_equal.
    f_equal. clear IH. induction l as [|b l IHl]; [done|].
    rewrite fmap_cons in Hna, Hnd. apply NoDup_cons in Hnd as [_ Hnd].
    rewrite filter_cons, decide_True.
    + f_equal. apply IHl; [|done]. intros Hx. apply Hna. by right.
    + intros Heq. apply Hna. rewrite <- Heq. left.
  - assert (Hne : a.1 ≠ r.1).
    { intros Heq. apply Hna. rewrite Heq. apply list_elem_of_fmap. by exists r. }
    rewrite filter_cons, decide_True by done.
    rewrite !(filter_cons P). case_decide; simpl; by rewrite IH.
Qed.

(** X19. [deleteDive] rejects an unknown identifier and changes nothing
    then.  Otherwise the document is gone afterwards, every other
    identifier reads as before, its owner has exactly one dive fewer,
    and the lists of the other owners are as they were. *)
Theorem deleteDive_effect diveId t :
  wf_dive_table t ->
  (dive_get diveId t = None ->
   deleteDive diveId t = (Throw (DocumentNotFound diveId), t)) /\
  (forall d, dive_get diveId t = Some d ->
     (deleteDive diveId t).1 = Ok tt /\
     dive_get diveId (deleteDive diveId t).2 = None /\
     (forall i, i ≠ diveId ->
        dive_get i (deleteDive diveId t).2 = dive_get i t) /\
     S (totalDives (getDiveStats (Dive.userId d)
                      (dive_rows (deleteDive diveId t).2).*2))
     = totalDives (getDiveStats (Dive.userId d) (dive_rows t).*2) /\
     (forall u, u ≠ Dive.userId d ->
        getDives u (deleteDive diveId t).2 = getDives u t)).
Proof.
  intros [Hnd Hlt]. split.
  { intros Hnone. unfold deleteDive. by rewrite Hnone. }
  intros d Hget. unfold deleteDive. rewrite Hget. cbn [fst snd dive_rows].
  pose proof (find_some_elem _ _ _ Hget) as Hin.
  split; [done|]. split.
  { unfold dive_get. cbn [dive_rows]. apply find_none.
    intros ([i d'] & Hi & [Hne _]%list_elem_of_filter)%list_elem_of_fmap.
    simpl in *. congruence. }
  split.
  { intros i Hi. unfold dive_get. cbn [dive_rows].
    by apply find_filter_other. }
  split.
  { rewrite !totalDives_length, !by_userId_rows, !length_fmap.
    by apply (filter_drop_one _ (dive_rows t) (diveId, d)). }
  intros u Hu. unfold getDives. cbn [dive_rows].
  rewrite list_filter_filter. apply filter_ext_in.
  intros r Hr. split; [tauto|]. intros Hru.
  split; [done|]. intros Heq.
  assert (r = (diveId, d)) as ->.
  { pose proof (find_row (dive_rows t) r Hnd Hr) as H1.
    rewrite Heq in H1. unfold dive_get in Hget. rewrite Hget in H1.
    destruct r as [i d']. simpl in *. congruence. }
  simpl in Hru. congruence.
Qed.

Lemma deleteDive_effect_witness :
  wf_dive_table two_dives /\
  (exists d, dive_get 0 two_dives = Some d /\
     dive_get 0 (deleteDive 0 two_dives).2 = None /\
     dive_get 1 (deleteDive 0 two_dives).2 = dive_get 1 two_dives) /\
  deleteDive 4 two_dives = (Throw (DocumentNotFound 4), two_dives).
Proof.
  assert (Hwf : wf_dive_table two_dives).
  { apply createDive_wf, createDive_wf, wf_no_dives. }
  destruct (deleteDive_effect 0 two_dives Hwf) as [_ Hsome].
  destruct (deleteDive_effect 4 two_dives Hwf) as [Hnone _].
  split; [exact Hwf|]. split.
  - destruct (dive_get 0 two_dives) as [d|] eqn:E;
      [|vm_compute in E; discriminate].
    destruct (Hsome d eq_refl) as (_ & H2 & H3 & _).
    exists d. split; [reflexivity|]. split; [exact H2|].
    apply H3. discriminate.
  - apply Hnone. reflexivity.
Defined.

(** X20. Creating a dive and deleting it again restores the documents of
    the table: the deletion is accepted, the rows are the rows from
    before the creation, and every identifier, every owner's list and
    every owner's statistics read as before. *)
Theorem createDive_deleteDive now1 now2 args t :
  wf_dive_table t ->
  (deleteDive (createDive now1 now2 args t).1
     (createDive now1 now2 args t).2).1 = Ok tt /\
  dive_rows (deleteDive (createDive now1 now2 args t).1
               (createDive now1 now2 args t).2).2 = dive_rows t /\
  (forall i,
     dive_get i (deleteDive (createDive now1 now2 args t).1
                   (createDive now1 now2 args t).2).2 = dive_get i t) /\
  (forall u,
     getDives u (deleteDive (createDive now1 now2 args t).1
                   (createDive now1 now2 args t).2).2 = getDives u t /\
     getDiveStats u
       (dive_rows (deleteDive (createDive now1 now2 args t).1
                     (createDive now1 now2 args t).2).2).*2
     = getDiveStats u (dive_rows t).*2).
Proof.
  intros Hwf. pose proof (createDive_wf now1 now2 args t Hwf) as Hwf'.
  destruct Hwf as [Hnd Hlt].
  assert (Hdel : deleteDive (createDive now1 now2 args t).1
                   (createDive now1 now2 args t).2
                 = (Ok tt, {| dive_rows := dive_rows t;
                              dive_next := N.succ (dive_next t) |})).
  { unfold deleteDive.
    assert (exists d, dive_get (createDive now1 now2 args t).1
                        (createDive now1 now2 args t).2 = Some d)
      as [d ->].
    { eexists. unfold dive_get, createDive. cbn [fst snd dive_rows].
      match goal with |- context [dive_rows t ++ [(dive_next t, ?d)]] =>
        apply (find_row (dive_rows t ++ [(dive_next t, d)]) (dive_next t, d))
      end.
      - apply Hwf'.
      - apply elem_of_app. right. left. }
    f_equal. unfold createDive. cbn [fst snd dive_rows dive_next]. f_equal.
    rewrite filter_app, filter_cons, decide_False by (intros Hx; by apply Hx).
    rewrite filter_nil, app_nil_r. apply filter_all.
    intros r Hr Heq. rewrite Forall_forall in Hlt.
    assert (r.1 < dive_next t)%N; [|lia].
    apply Hlt, list_elem_of_fmap. by exists r. }
  rewrite Hdel. cbn [fst snd dive_rows]. by repeat split.
Qed.

Lemma createDive_deleteDive_witness :
  wf_dive_table two_dives /\
  dive_rows (deleteDive (createDive 9 9 (new_dive "u1" 50 12) two_dives).1
               (createDive 9 9 (new_dive "u1" 50 12) two_dives).2).2
  = dive_rows two_dives.
Proof.
  assert (Hwf : wf_dive_table two_dives).
  { apply createDive_wf, createDive_wf, wf_no_dives. }
  split; [exact Hwf|].
  exact (proj1 (proj2 (createDive_deleteDive 9 9 (new_dive "u1" 50 12)
                         two_dives Hwf))).
Defined.

(* ===================================================================== *)
(** * Autocomplete data *)
(* ===================================================================== *)



Lemma autocomplete_snoc ds d :
  fold_left autocomplete_step (ds ++ [d])
    {| clubNames := []; instructorNames := []; clubWebsites := ∅ |}
  = autocomplete_step
      (fold_left autocomplete_step ds
         {| clubNames := []; instructorNames := []; clubWebsites := ∅ |}) d.
Proof. by rewrite fold_left_app. Qed.



Lemma step_clubWebsites acc d :
  clubWebsites (autocomplete_step acc d)
  = match present (Dive.clubName d), present (Dive.clubWebsite d) with
    | Some c, Some w => <[c := w]> (clubWebsites acc)
    | _, _ => clubWebsites acc
    end.
Proof.
  unfold autocomplete_step.
  by destruct (present (Dive.clubName d)), (present (Dive.clubWebsite d)),
    (present (Dive.instructorName d)).
Qed.


Lemma present_Some (o : option (list N)) c :
  present o = Some c <-> c ≠ [] /\ o = Some c.
Proof.
  destruct o as [[|x r]|]; simpl; split.
  - done.
  - intros [Hne [= <-]]. done.
  - intros [= <-]. done.
  - by intros [_ ?].
  - done.
  - by intros [_ ?].
Qed.

Lemma autocomplete_sites_snoc ds d c :
  clubWebsites (fold_left autocomplete_step (ds ++ [d])
    {| clubNames := []; instructorNames := []; clubWebsites := ∅ |}) !! c
  = match present (Dive.clubName d), present (Dive.clubWebsite d) with
    | Some c', Some w =>
        if decide (c' = c) then Some w
        else clubWebsites (fold_left autocomplete_step ds
               {| clubNames := []; instructorNames := [];
                  clubWebsites := ∅ |}) !! c
    | _, _ =>
        clubWebsites (fold_left autocomplete_step ds
          {| clubNames := []; instructorNames := []; clubWebsites := ∅ |}) !! c
    end.
Proof.
  rewrite autocomplete_snoc, step_clubWebsites.
  destruct (present (Dive.clubName d)) as [c'|]; [|done].
  destruct (present (Dive.clubWebsite d)) as [w|]; [|done].
  by rewrite lookup_insert.
Qed.

Lemma autocomplete_sites_source ds c w :
  clubWebsites (fold_left autocomplete_step ds
    {| clubNames := []; instructorNames := []; clubWebsites := ∅ |}) !! c
  = Some w ->
  exists d, d ∈ ds /\ present (Dive.clubName d) = Some c /\
            present (Dive.clubWebsite d) = Some w.
Proof.
  induction ds as [|d ds IH] using rev_ind; [done|].
  rewrite autocomplete_sites_snoc.
  assert (Hold : clubWebsites (fold_left autocomplete_step ds
            {| clubNames := []; instructorNames := []; clubWebsites := ∅ |})
            !! c = Some w ->
          exists d0, d0 ∈ ds ++ [d] /\ present (Dive.clubName d0) = Some c /\
                     present (Dive.clubWebsite d0) = Some w).
  { intros (d0 & Hd0 & H)%IH. exists d0. split; [|done].
    apply elem_of_app. by left. }
  destruct (present (Dive.clubName d)) as [c'|] eqn:Ec; [|done].
  destruct (present (Dive.clubWebsite d)) as [w'|] eqn:Ew; [|done].
  case_decide as Hc; [|done]. intros [= <-]. subst c'.
  exists d. split; [|done]. apply elem_of_app. right. left.
Qed.

Lemma autocomplete_sites_last l1 d l2 c w :
  present (Dive.clubName d) = Some c ->
  present (Dive.clubWebsite d) = Some w ->
  (forall d', d' ∈ l2 -> present (Dive.clubName d') = Some c ->
              present (Dive.clubWebsite d') = None) ->
  clubWebsites (fold_left autocomplete_step (l1 ++ d :: l2)
    {| clubNames := []; instructorNames := []; clubWebsites := ∅ |}) !! c
  = Some w.
Proof.
  intros Hc Hw. induction l2 as [|d' l2 IH] using rev_ind; intros Hlater.
  - rewrite autocomplete_sites_snoc, Hc, Hw. by rewrite decide_True.
  - change (l1 ++ d :: l2 ++ [d']) with (l1 ++ (d :: l2) ++ [d']).
    rewrite app_assoc, autocomplete_sites_snoc.
    assert (IH' := IH (fun d0 Hd0 => Hlater d0
                         (proj2 (elem_of_app _ _ _) (or_introl Hd0)))).
    destruct (present (Dive.clubName d')) as [c'|] eqn:Ec; [|done].
    destruct (present (Dive.clubWebsite d')) as [w'|] eqn:Ew; [|done].
    case_decide as Heq; [|done]. subst c'.
    rewrite (Hlater d') in Ew; [done| |done].
    apply elem_of_app. right. left.
Qed.

(** The websites the handler collects. *)
Lemma autocomplete_of_websites userId table :
  (forall c w,
     clubWebsites (autocomplete_of userId table) !! c = Some w ->
     c ≠ [] /\ w ≠ [] /\
     exists d, d ∈ table /\ Dive.userId d = userId /\
               Dive.clubName d = Some c /\ Dive.clubWebsite d = Some w) /\
  (forall l1 d l2 c w,
     by_userId userId table = l1 ++ d :: l2 ->
     c ≠ [] -> w ≠ [] ->
     Dive.clubName d = Some c -> Dive.clubWebsite d = Some w ->
     (forall d', d' ∈ l2 -> Dive.clubName d' = Some c ->
                 present (Dive.clubWebsite d') = None) ->
     clubWebsites (autocomplete_of userId table) !! c = Some w) /\
  (forall c,
     (forall d, d ∈ table -> Dive.userId d = userId ->
                Dive.clubName d = Some c ->
                present (Dive.clubWebsite d) = None) ->
     clubWebsites (autocomplete_of userId table) !! c = None).
Proof.
  unfold autocomplete_of. split; [|split].
  - intros c w (d & Hd & [Hc Hcn]%present_Some & [Hw Hwn]%present_Some)
      %autocomplete_sites_source.
    split; [done|]. split; [done|]. exists d.
    unfold by_userId in Hd. apply list_elem_of_filter in Hd as [Hu Hd]. done.
  - intros l1 d l2 c w -> Hc Hw Hcn Hwn Hlater.
    apply autocomplete_sites_last.
    + by apply present_Some.
    + by apply present_Some.
    + intros d' Hd' [_ Hcn']%present_Some. by apply Hlater.
  - intros c Hnone.
    destruct (clubWebsites _ !! c) as [w|] eqn:E; [|done].
    apply autocomplete_sites_source
      in E as (d & Hd & [Hc Hcn]%present_Some & Hw).
    unfold by_userId in Hd. apply list_elem_of_filter in Hd as [Hu Hd].
    rewrite (Hnone d Hd Hu Hcn) in Hw. done.
Qed.

Lemma getAutocompleteData_inv returnable userId table a :
  getAutocompleteData returnable userId table = Some a ->
  a = autocomplete_of userId table /\
  returnable (autocomplete_of userId table) = true.
Proof.
  unfold getAutocompleteData.
  destruct (returnable (autocomplete_of userId table)); [|done].
  by intros [= <-].
Qed.


(** X22. When [getAutocompleteData] answers, the website it reports for
    a club is always a non-empty website logged with a dive of that
    owner at that club; among several it is the one of the latest such
    dive, a dive without a website never erasing an earlier one; and a
    club none of whose dives has a website gets no entry. *)
Theorem getAutocompleteData_websites returnable userId table a :
  getAutocompleteData returnable userId table = Some a ->
  (forall c w,
     clubWebsites a !! c = Some w ->
     c ≠ [] /\ w ≠ [] /\
     exists d, d ∈ table /\ Dive.userId d = userId /\
               Dive.clubName d = Some c /\ Dive.clubWebsite d = Some w) /\
  (forall l1 d l2 c w,
     by_userId userId table = l1 ++ d :: l2 ->
     c ≠ [] -> w ≠ [] ->
     Dive.clubName d = Some c -> Dive.clubWebsite d = Some w ->
     (forall d', d' ∈ l2 -> Dive.clubName d' = Some c ->
                 present (Dive.clubWebsite d') = None) ->
     clubWebsites a !! c = Some w) /\
  (forall c,
     (forall d, d ∈ table -> Dive.userId d = userId ->
                Dive.clubName d = Some c ->
                present (Dive.clubWebsite d) = None) ->
     clubWebsites a !! c = None).
Proof.
  intros [-> _]%getAutocompleteData_inv. apply autocomplete_of_websites.
Qed.

Lemma club_dives_returned :
  getAutocompleteData ascii_fields (js "u1") club_dives
  = Some (autocomplete_of (js "u1") club_dives).
Proof.
  unfold getAutocompleteData.
  assert (ascii_fields (autocomplete_of (js "u1") club_dives) = true) as ->
    by (vm_compute; reflexivity).
  reflexivity.
Defined.


Lemma getAutocompleteData_websites_witness :
  by_userId (js "u1") club_dives
    = [club_dive "u1" "Fish n Fins" "https://old.example"]
      ++ club_dive "u1" "Fish n Fins" "https://fishnfins.example"
      :: [club_dive "u1" "Fish n Fins" ""] /\
  exists a,
    getAutocompleteData ascii_fields (js "u1") club_dives = Some a /\
    clubWebsites a !! js "Fish n Fins" = Some (js "https://fishnfins.example").
Proof.
  assert (Hsplit : by_userId (js "u1") club_dives
    = [club_dive "u1" "Fish n Fins" "https://old.example"]
      ++ club_dive "u1" "Fish n Fins" "https://fishnfins.example"
      :: [club_dive "u1" "Fish n Fins" ""]) by (vm_compute; reflexivity).
  split; [exact Hsplit|]. eexists. split; [exact club_dives_returned|].
  apply (proj1 (proj2 (getAutocompleteData_websites ascii_fields (js "u1")
                         club_dives _ club_dives_returned))
           _ _ _ _ _ Hsplit); try discriminate; try reflexivity.
  intros d' ->%list_elem_of_singleton _. reflexivity.
Defined.

(* ===================================================================== *)
(** * The link pattern of the route *)
(* ===================================================================== *)

Lemma greedy_not_inv {R} c (k : list N -> list N -> option R) taken s r :
  greedy_not c k taken s = Some r ->
  exists run rest, s = run ++ rest /\ Forall (fun x => x ≠ c) run /\
                   k (taken ++ run) rest = Some r.
Proof.
  assert (Hstop : forall taken s, k taken s = Some r ->
            exists run rest, s = run ++ rest /\ Forall (fun x => x ≠ c) run /\
                             k (taken ++ run) rest = Some r).
  { intros t s' Hk. exists [], s'. rewrite app_nil_r.
    split; [done|]. split; [constructor|done]. }
  revert taken. induction s as [|x s IH]; intros taken; simpl.
  - apply Hstop.
  - destruct (x =? c)%N eqn:E; [apply Hstop|].
    destruct (greedy_not c k (taken ++ [x]) s) as [r'|] eqn:Hrec;
      [|apply Hstop].
    intros [= <-]. apply IH in Hrec as (run & rest & -> & Hrun & Hk).
    exists (x :: run), rest. split; [done|]. split.
    + constructor; [by apply N.eqb_neq|done].
    + by rewrite <- app_assoc in Hk.
Qed.

Lemma match_lit_inv l re cap s m :
  match_here (Lit l :: re) cap s = Some m ->
  exists rest, s = l ++ rest /\ match_here re cap rest = Some m.
Proof.
  simpl. destruct (startsWith l s) eqn:E; [|done].
  intros H. exists (drop (length l) s). split; [by apply startsWith_inv|done].
Qed.

Lemma match_star_inv c re cap s m :
  match_here (StarNot c :: re) cap s = Some m ->
  exists run rest, s = run ++ rest /\ Forall (fun x => x ≠ c) run /\
                   match_here re cap rest = Some m.
Proof.
  simpl. intros (run & rest & -> & Hrun & Hk)%greedy_not_inv. eauto.
Qed.

Lemma match_cap_inv c re cap s m :
  match_here (CapPlusNot c :: re) cap s = Some m ->
  exists run rest, s = run ++ rest /\ run ≠ [] /\
                   Forall (fun x => x ≠ c) run /\
                   match_here re (Some run) rest = Some m.
Proof.
  simpl. intros (run & rest & -> & Hrun & Hk)%greedy_not_inv.
  simpl in Hk. destruct run as [|x run]; [done|]. eauto 6.
Qed.

Lemma regex_match_inv re s m :
  regex_match re s = Some m ->
  exists before s', s = before ++ s' /\ match_here re None s' = Some m.
Proof.
  induction s as [|x s IH]; unfold regex_match; fold regex_match.
  - destruct (match_here re None []) eqn:E; [|done].
    intros [= <-]. by exists [], [].
  - destruct (match_here re None (x :: s)) eqn:E.
    + intros [= <-]. by exists [], (x :: s).
    + intros (before & s' & -> & H)%IH. by exists (x :: before), s'.
Qed.

(** X23. The link the route takes from the page is an attribute value of
    an anchor tag: the page reads [<a], then the class [result__a] and
    then [href=] inside that same tag (no [>] in between), and the link
    is the non-empty text between the quotes after [href=], free of
    double quotes. *)
Theorem result_link_shape html href :
  group1 (regex_match result_a_re html) = Some href ->
  href ≠ [] /\ Forall (fun x => x ≠ dq) href /\
  exists before r1 r2 after,
    html = before ++ js "<a" ++ r1
           ++ (js "class=" ++ [dq] ++ js "result__a" ++ [dq]) ++ r2
           ++ (js "href=" ++ [dq]) ++ href ++ [dq] ++ after /\
    Forall (fun x => x ≠ 62%N) r1 /\ Forall (fun x => x ≠ 62%N) r2.
Proof.
  intros Hg.
  assert (Hm : regex_match result_a_re html = Some (Some href) /\ href ≠ []).
  { destruct (regex_match result_a_re html) as [[[|c g]|]|]; try done.
    simpl in Hg. by injection Hg as <-. }
  destruct Hm as [Hm Hne]. split; [done|].
  apply regex_match_inv in Hm as (before & s & -> & Hm).
  unfold result_a_re in Hm.
  apply match_lit_inv in Hm as (s1 & -> & Hm).
  apply match_star_inv in Hm as (r1 & s2 & -> & Hr1 & Hm).
  apply match_lit_inv in Hm as (s3 & -> & Hm).
  apply match_star_inv in Hm as (r2 & s4 & -> & Hr2 & Hm).
  apply match_lit_inv in Hm as (s5 & -> & Hm).
  apply match_cap_inv in Hm as (cap & s6 & -> & Hcne & Hcap & Hm).
  apply match_lit_inv in Hm as (after & -> & Hm).
  simpl in Hm. injection Hm as <-.
  split; [done|]. exists before, r1, r2, after. split; [|done].
  by rewrite <- !app_assoc.
Qed.

Lemma result_link_shape_witness :
  group1 (regex_match result_a_re wrapped_page)
    = Some (wrapped (js "https://x.org") (js "rut=1")) /\
  Forall (fun x => x ≠ dq) (wrapped (js "https://x.org") (js "rut=1")).
Proof.
  assert (H : group1 (regex_match result_a_re wrapped_page)
              = Some (wrapped (js "https://x.org") (js "rut=1")))
    by (vm_compute; reflexivity).
  split; [exact H|].
  exact (proj1 (proj2 (result_link_shape _ _ H))).
Defined.

(* ===================================================================== *)
(** * Statistics and storage order *)
(* ===================================================================== *)

Lemma foldr_add_perm zs zs' :
  zs ≡ₚ zs' -> foldr Z.add 0 zs = foldr Z.add 0 zs'.
Proof.
  induction 1 as [|x l l' _ IH|x y l|l l' l'' _ IH1 _ IH2]; simpl; lia.
Qed.

Lemma whole_minutes_perm ds ds' zs :
  ds ≡ₚ ds' -> whole_minutes ds zs ->
  exists zs', whole_minutes ds' zs' /\ zs ≡ₚ zs'.
Proof.
  unfold whole_minutes. intros Hperm Hzs.
  assert (Hd : Dive.duration <$> ds' ≡ₚ (fun z => Fin (Qc_of_Z z)) <$> zs).
  { rewrite <- Hzs. by rewrite Hperm. }
  apply (Permutation_map_inv (fun z => Fin (Qc_of_Z z))) in Hd
    as (zs' & Hzs' & Hp).
  exists zs'. split; [exact Hzs'|exact Hp].
Qed.

(** The greatest depth does not depend on the order of the dives. *)
Lemma Math_max_depths_perm ds ds' :
  ds ≡ₚ ds' ->
  Math_max (Dive.maxDepth <$> ds) = Math_max (Dive.maxDepth <$> ds').
Proof.
  intros Hperm.
  destruct ds as [|d0 ds0] eqn:Eds.
  { apply Permutation_nil_l in Hperm. by rewrite Hperm. }
  rewrite <- Eds in *.
  assert (Hne : ds ≠ []) by (by rewrite Eds).
  assert (Hne' : ds' ≠ []).
  { intros ->. apply Permutation_nil_r in Hperm. done. }
  clear Eds d0 ds0.
  destruct (Math_max_depths ds Hne) as [Hmax Hnan].
  destruct (Math_max_depths ds' Hne') as [Hmax' Hnan'].
  destruct (decide (Exists (fun d => Dive.maxDepth d = NaN) ds)) as [Hex|Hno].
  - rewrite (Hnan Hex). symmetry. apply Hnan'. by rewrite <- Hperm.
  - assert (Hall : Forall (fun d => Dive.maxDepth d ≠ NaN) ds).
    { apply Forall_forall. intros d Hd Heq. apply Hno, Exists_exists.
      by exists d. }
    assert (Hall' : Forall (fun d => Dive.maxDepth d ≠ NaN) ds')
      by (by rewrite <- Hperm).
    destruct (Hmax Hall) as [(d1 & Hd1 & Ha1) Hu1].
    destruct (Hmax' Hall') as [(d2 & Hd2 & Ha2) Hu2].
    apply js_le_antisym.
    + rewrite <- Ha1. apply Hu2. by rewrite <- Hperm.
    + rewrite <- Ha2. apply Hu1. by rewrite Hperm.
Qed.

(** X24. The dive count and the maximum depth of an owner do not depend
    on the order in which the table holds the dives, whatever the
    depths are.  The total time does not depend on it either when the
    owner's durations are whole numbers whose absolute values add up to
    at most [2^53]; for other durations the rounding of the partial
    sums can make it depend on the order. *)
Theorem getDiveStats_order u table table' :
  table ≡ₚ table' ->
  totalDives (getDiveStats u table) = totalDives (getDiveStats u table') /\
  maxDepth (getDiveStats u table) = maxDepth (getDiveStats u table') /\
  (forall zs,
     whole_minutes (dives_of u table) zs ->
     foldr Z.add 0 (Z.abs <$> zs) <= 2 ^ 53 ->
     totalTime (getDiveStats u table) = totalTime (getDiveStats u table')).
Proof.
  intros Hperm.
  assert (Hf : by_userId u table ≡ₚ by_userId u table').
  { unfold by_userId. by apply filter_Permutation. }
  destruct (getDiveStats_values u table) as (Hn & Hz & Hm & Ht).
  destruct (getDiveStats_values u table') as (Hn' & Hz' & Hm' & Ht').
  split; [by rewrite Hn, Hn', (Permutation_length Hf)|]. split.
  - destruct (by_userId u table) as [|d ds] eqn:E.
    + apply Permutation_nil_l in Hf.
      by rewrite (Hz eq_refl), (Hz' (eq_sym Hf)).
    + assert (Hne' : by_userId u table' ≠ []).
      { intros Hnil. rewrite Hnil in Hf. by apply Permutation_nil_r in Hf. }
      rewrite (Hm ltac:(done)), (Hm' Hne').
      by apply Math_max_depths_perm.
  - intros zs Hzs Hb. rewrite <- dives_of_by_userId in Hzs.
    destruct (whole_minutes_perm _ _ zs Hf Hzs) as (zs' & Hzs' & Hp).
    assert (Hb' : foldr Z.add 0 (Z.abs <$> zs') <= 2 ^ 53).
    { rewrite <- (foldr_add_perm (Z.abs <$> zs) (Z.abs <$> zs')); [done|].
      by apply fmap_Permutation. }
    rewrite Ht, Ht', Hzs, Hzs', <- Z2Qc_inj_0.
    rewrite !fold_add_int by (simpl; lia).
    by rewrite (foldr_add_perm zs zs' Hp).
Qed.

Lemma getDiveStats_order_witness :
  sample_dives ≡ₚ rev sample_dives /\
  whole_minutes (dives_of (js "u1") sample_dives) [45; 50] /\
  maxDepth (getDiveStats (js "u1") sample_dives)
  = maxDepth (getDiveStats (js "u1") (rev sample_dives)) /\
  totalTime (getDiveStats (js "u1") sample_dives)
  = totalTime (getDiveStats (js "u1") (rev sample_dives)).
Proof.
  assert (H : sample_dives ≡ₚ rev sample_dives) by apply Permutation_rev.
  assert (Hw : whole_minutes (dives_of (js "u1") sample_dives) [45; 50])
    by reflexivity.
  assert (Hb : foldr Z.add 0 (Z.abs <$> [45; 50]) <= 2 ^ 53)
    by (vm_compute; discriminate).
  destruct (getDiveStats_order (js "u1") _ _ H) as (_ & Hm & Ht).
  split; [exact H|]. split; [exact Hw|]. split; [exact Hm|].
  exact (Ht _ Hw Hb).
Defined.
